(** * CEGAR pattern-collection generation: the control loop of
      [src/search/pdbs/cegar.cc]

    The class [Cegar] keeps a collection of abstract solutions (pattern,
    PDB, wildcard plan), projects every plan onto the concrete task to find
    flaws, and repairs one flaw per iteration by merging two patterns,
    extending a pattern, or blacklisting the variable.

    The embedding is shallow: every member function of [Cegar] is a Rocq
    function that takes the object's mutable members as a record and gives
    the new record back.  [int] is [Z] with the 32-bit wrap-around written
    out, [std::vector] is [list], [std::unordered_map<int,int>] is
    [gmap Z Z] and [std::unordered_set<int>] is [gset Z].  Calls that leave
    the function abnormally ([utils::exit_with], a failed [assert], a null
    dereference) are values of the result type [Outcome]. *)

From Stdlib Require Import ZArith Lia.
From stdpp Require Import gmap list sorting.

Local Open Scope Z_scope.

(** ** Machine integers *)

Definition INT_MAX : Z := 2147483647.
Definition INT_MIN : Z := -2147483648.

(** A mathematical integer brought back into the range of a 32-bit [int]
    (two's complement). *)
Definition wrap_int (z : Z) : Z := (z + 2147483648) mod 4294967296 - 2147483648.

Definition int_add (a b : Z) : Z := wrap_int (a + b).
Definition int_sub (a b : Z) : Z := wrap_int (a - b).
Definition int_mul (a b : Z) : Z := wrap_int (a * b).

(** [static_cast<int>] of a [size_t]. *)
Definition static_cast_int (n : nat) : Z := wrap_int (Z.of_nat n).

Definition in_int_range (z : Z) : Prop := INT_MIN <= z <= INT_MAX.

(** ** Abnormal termination *)

Inductive ExitCode : Type :=
| SEARCH_INPUT_ERROR
| SEARCH_UNSOLVABLE.

(** What a call can end in: a normal return, [utils::exit_with], an [assert]
    that fails (only in a build without [NDEBUG]), behaviour the language
    leaves undefined (null dereference, [back()] of an empty vector, index
    out of range), a loop of the model that ran out of fuel, or a
    [std::length_error] that [std::vector::reserve] throws and nothing in
    [cegar.cc] catches. *)
Inductive Outcome (A : Type) : Type :=
| Returns (a : A)
| ExitWith (code : ExitCode)
| AssertionFailed
| UndefinedBehaviour
| OutOfFuel
| LengthError.

Arguments Returns {A} a.
Arguments ExitWith {A} code.
Arguments AssertionFailed {A}.
Arguments UndefinedBehaviour {A}.
Arguments OutOfFuel {A}.
Arguments LengthError {A}.

#[global] Instance Outcome_ret : MRet Outcome := fun A a => Returns a.

#[global] Instance Outcome_bind : MBind Outcome := fun A B f m =>
  match m with
  | Returns a => f a
  | ExitWith c => ExitWith c
  | AssertionFailed => AssertionFailed
  | UndefinedBehaviour => UndefinedBehaviour
  | OutOfFuel => OutOfFuel
  | LengthError => LengthError
  end.

(** ** The planning task as [cegar.cc] sees it *)

(** A fact [variable = value]: a precondition or a goal. *)
Record FactPair : Type := { fact_var : Z; fact_value : Z }.

(** An unpacked state: the value of every variable ([State::operator[]]). *)
Definition State : Type := Z → Z.

Record OperatorProxy : Type := {
  get_preconditions : list FactPair;
  get_effects : list FactPair
}.

(** The queries [cegar.cc] makes through [TaskProxy] and [State].  The
    classes themselves are declared outside the file at hand, so what they
    answer is a parameter of the development. *)
Record TaskProxy : Type := {
  get_variables_size : nat;
  get_domain_size : Z → Z;
  get_operators : Z → OperatorProxy;
  get_goals : list FactPair;
  get_initial_state : State;
  get_unregistered_successor : State → OperatorProxy → State
}.

(** Modelled from the spec: [task_properties::is_goal_state] (declared in
    task_utils/task_properties.h, which is not among the sources) is the
    goal-test of the task view over the goal given as a list of
    (variable, value) pairs: every goal fact holds in the state. *)
Definition is_goal_state (task : TaskProxy) (s : State) : bool :=
  forallb (fun goal => s (fact_var goal) =? fact_value goal) (get_goals task).

(** Modelled from the spec: [utils::is_product_within_limit] (declared in
    utils/math.h, which is not among the sources) is an overflow-checked
    comparison of a product against a limit: it never forms the product,
    it divides the limit instead. *)
Definition is_product_within_limit (factor1 factor2 limit : Z) : bool :=
  (factor2 =? 0) || (factor1 <=? Z.quot limit factor2).

(** ** Abstract solutions *)

(** The members of [AbstractSolutionData] that [cegar.cc] reads.
    [get_pdb_size] stands for [get_pdb()->get_size()]. *)
Record AbstractSolutionData : Type := {
  get_pattern : list Z;
  get_pdb_size : Z;
  get_plan : list (list Z);
  get_concrete_op_id_for_abs_op_id : Z → Z;
  is_solved : bool;
  solution_exists : bool
}.

(** Modelled from the spec: [AbstractSolutionData::mark_as_solved]
    (abstract_solution_data.h is not among the sources) sets the solved
    flag, the only mutable part of an entry. *)
Definition mark_as_solved (s : AbstractSolutionData) : AbstractSolutionData :=
  {| get_pattern := get_pattern s;
     get_pdb_size := get_pdb_size s;
     get_plan := get_plan s;
     get_concrete_op_id_for_abs_op_id := get_concrete_op_id_for_abs_op_id s;
     is_solved := true;
     solution_exists := solution_exists s |}.

Record Flaw : Type := { solution_index : Z; variable : Z }.

Abbreviation FlawList := (list Flaw).

#[global] Instance Flaw_eq_dec : EqDecision Flaw.
Proof. solve_decision. Defined.

(** ** Options and collaborators *)

Inductive InitialCollectionType : Type :=
| GIVEN_GOAL
| RANDOM_GOAL
| ALL_GOALS.

#[global] Instance InitialCollectionType_eq_dec : EqDecision InitialCollectionType.
Proof. solve_decision. Defined.

(** The [const] members of [Cegar] that steer control flow.  [verbosity]
    only selects log lines and [max_time] only feeds the timer. *)
Record Options : Type := {
  max_refinements : Z;
  max_pdb_size : Z;
  max_collection_size : Z;
  wildcard_plans : bool;
  ignore_goal_violations : bool;
  global_blacklist_size : Z;
  initial : InitialCollectionType;
  given_goal : Z
}.

(** What the class is handed from outside: the random number generator,
    the constructor of [AbstractSolutionData] (which builds the PDB and the
    plan of a pattern and may draw random numbers), the countdown timer and
    the build mode. *)
Class Collaborators : Type := {
  RNG : Type;
  (** [int operator()(int bound)] *)
  rng_random : RNG → Z → Z * RNG;
  (** [shuffle(vector<int> &)] *)
  rng_shuffle : RNG → list Z → list Z * RNG;
  (** [AbstractSolutionData(task, pattern, rng, wildcard_plans, verbosity)] *)
  make_solution : TaskProxy → list Z → RNG → bool → AbstractSolutionData * RNG;
  (** the answer of the [n]-th call of [timer.is_expired()] *)
  is_expired : nat → bool;
  (** whether the build defines [NDEBUG], which turns [assert] off *)
  NDEBUG : bool
}.

(** ** The mutable members of [Cegar] *)

Record Cegar `{Collaborators} : Type := {
  rng : RNG;
  remaining_goals : list Z;
  global_blacklist : gset Z;
  solutions : list (option AbstractSolutionData);
  solution_lookup : gmap Z Z;
  collection_size : Z;
  concrete_solution_index : Z
}.

Section Model.
Context `{Collaborators}.

Definition set_rng (r : RNG) (c : Cegar) : Cegar :=
  {| rng := r; remaining_goals := remaining_goals c;
     global_blacklist := global_blacklist c; solutions := solutions c;
     solution_lookup := solution_lookup c;
     collection_size := collection_size c;
     concrete_solution_index := concrete_solution_index c |}.

Definition set_remaining_goals (g : list Z) (c : Cegar) : Cegar :=
  {| rng := rng c; remaining_goals := g;
     global_blacklist := global_blacklist c; solutions := solutions c;
     solution_lookup := solution_lookup c;
     collection_size := collection_size c;
     concrete_solution_index := concrete_solution_index c |}.

Definition set_global_blacklist (b : gset Z) (c : Cegar) : Cegar :=
  {| rng := rng c; remaining_goals := remaining_goals c;
     global_blacklist := b; solutions := solutions c;
     solution_lookup := solution_lookup c;
     collection_size := collection_size c;
     concrete_solution_index := concrete_solution_index c |}.

Definition set_solutions (s : list (option AbstractSolutionData))
    (c : Cegar) : Cegar :=
  {| rng := rng c; remaining_goals := remaining_goals c;
     global_blacklist := global_blacklist c; solutions := s;
     solution_lookup := solution_lookup c;
     collection_size := collection_size c;
     concrete_solution_index := concrete_solution_index c |}.

Definition set_solution_lookup (m : gmap Z Z) (c : Cegar) : Cegar :=
  {| rng := rng c; remaining_goals := remaining_goals c;
     global_blacklist := global_blacklist c; solutions := solutions c;
     solution_lookup := m;
     collection_size := collection_size c;
     concrete_solution_index := concrete_solution_index c |}.

Definition set_collection_size (n : Z) (c : Cegar) : Cegar :=
  {| rng := rng c; remaining_goals := remaining_goals c;
     global_blacklist := global_blacklist c; solutions := solutions c;
     solution_lookup := solution_lookup c;
     collection_size := n;
     concrete_solution_index := concrete_solution_index c |}.

Definition set_concrete_solution_index (i : Z) (c : Cegar) : Cegar :=
  {| rng := rng c; remaining_goals := remaining_goals c;
     global_blacklist := global_blacklist c; solutions := solutions c;
     solution_lookup := solution_lookup c;
     collection_size := collection_size c;
     concrete_solution_index := i |}.

(** The object right after the constructor: [collection_size(0)],
    [concrete_solution_index(-1)], empty containers. *)
Definition Cegar_new (r : RNG) : Cegar :=
  {| rng := r; remaining_goals := []; global_blacklist := ∅;
     solutions := []; solution_lookup := ∅; collection_size := 0;
     concrete_solution_index := -1 |}.

(** [assert(b)] *)
Definition assert (b : bool) : Outcome unit :=
  if NDEBUG || b then Returns tt else AssertionFailed.

(** [solutions[i]] as a pointer: [None] when the slot does not exist. *)
Definition solution_slot (c : Cegar) (i : Z) : option (option AbstractSolutionData) :=
  if i <? 0 then None else solutions c !! Z.to_nat i.

(** [*solutions[i]]: undefined on a missing slot and on a null pointer. *)
Definition solution_at (c : Cegar) (i : Z) : Outcome AbstractSolutionData :=
  match solution_slot c i with
  | Some (Some s) => Returns s
  | _ => UndefinedBehaviour
  end.

(** [solutions[i] = p] *)
Definition store_solution (i : Z) (p : option AbstractSolutionData)
    (c : Cegar) : Cegar :=
  set_solutions (<[Z.to_nat i := p]> (solutions c)) c.


Context (opts : Options) (task : TaskProxy).

(** ** Plan projection: [Cegar::apply_wildcard_plan] *)

(** The loop over the preconditions of one operator (lines 196-208): a
    blacklisted variable is skipped, a violated precondition sets
    [flaw_detected] and appends a flaw. *)
Fixpoint check_preconditions (blacklist : gset Z) (index : Z) (current : State)
    (preconditions : list FactPair) (flaw_detected : bool) (flaws : FlawList)
    : bool * FlawList :=
  match preconditions with
  | [] => (flaw_detected, flaws)
  | precondition :: rest =>
      let var := fact_var precondition in
      if bool_decide (var ∈ blacklist) then
        check_preconditions blacklist index current rest flaw_detected flaws
      else if negb (current var =? fact_value precondition) then
        check_preconditions blacklist index current rest true
          (flaws ++ [{| solution_index := index; variable := var |}])
      else
        check_preconditions blacklist index current rest flaw_detected flaws
  end.

(** The concrete operator behind an abstract operator id (lines 188-189). *)
Definition concrete_operator (solution : AbstractSolutionData) (abs_op_id : Z)
    : OperatorProxy :=
  get_operators task (get_concrete_op_id_for_abs_op_id solution abs_op_id).

(** The loop over the operators of one plan step (lines 185-218).  The
    result is [step_failed], the flaw list and the current state. *)
Fixpoint try_equivalent_ops (blacklist : gset Z) (solution : AbstractSolutionData)
    (index : Z) (equivalent_ops : list Z) (flaws : FlawList) (current : State)
    : bool * FlawList * State :=
  match equivalent_ops with
  | [] => (true, flaws, current)
  | abs_op_id :: rest =>
      let op := concrete_operator solution abs_op_id in
      let '(flaw_detected, flaws') :=
        check_preconditions blacklist index current (get_preconditions op)
          false flaws in
      if negb flaw_detected then
        (false, [], get_unregistered_successor task current op)
      else
        try_equivalent_ops blacklist solution index rest flaws' current
  end.

(** The loop over the plan (lines 184-225): it stops at the first step
    that failed. *)
Fixpoint execute_plan (blacklist : gset Z) (solution : AbstractSolutionData)
    (index : Z) (plan : list (list Z)) (flaws : FlawList) (current : State)
    : FlawList * State :=
  match plan with
  | [] => (flaws, current)
  | equivalent_ops :: rest =>
      let '(step_failed, flaws', current') :=
        try_equivalent_ops blacklist solution index equivalent_ops flaws current in
      if step_failed then (flaws', current')
      else execute_plan blacklist solution index rest flaws' current'
  end.

(** The loop over the goals (lines 267-276). *)
Definition goal_is_flaw (c : Cegar) (current : State) (goal : FactPair) : bool :=
  negb (current (fact_var goal) =? fact_value goal)
  && negb (bool_decide (fact_var goal ∈ global_blacklist c))
  && bool_decide (fact_var goal ∈ remaining_goals c).

Fixpoint collect_goal_flaws (c : Cegar) (index : Z) (current : State)
    (goals : list FactPair) (flaws : FlawList) : FlawList :=
  match goals with
  | [] => flaws
  | goal :: rest =>
      if goal_is_flaw c current goal then
        collect_goal_flaws c index current rest
          (flaws ++ [{| solution_index := index; variable := fact_var goal |}])
      else collect_goal_flaws c index current rest flaws
  end.

(** [solution.mark_as_solved()] for the entry at [index]. *)
Definition mark_solved_at (index : Z) (solution : AbstractSolutionData)
    (c : Cegar) : Cegar :=
  store_solution index (Some (mark_as_solved solution)) c.

(** What follows the plan loop (lines 230-295). *)
Definition conclude_plan (index : Z) (solution : AbstractSolutionData)
    (flaws : FlawList) (current : State) (c : Cegar) : FlawList * Cegar :=
  if bool_decide (flaws = []) then
    if is_goal_state task current then
      if bool_decide (global_blacklist c = ∅) then
        (flaws, set_concrete_solution_index index c)
      else
        (flaws, mark_solved_at index solution c)
    else
      if negb (ignore_goal_violations opts) then
        (collect_goal_flaws c index current (get_goals task) flaws, c)
      else
        (flaws, mark_solved_at index solution c)
  else (flaws, c).

Definition apply_wildcard_plan (index : Z) (init : State) (c : Cegar)
    : Outcome (FlawList * Cegar) :=
  solution ← solution_at c index;
  let '(flaws, current) :=
    execute_plan (global_blacklist c) solution index (get_plan solution) [] init in
  mret (conclude_plan index solution flaws current c).

(** ** Flaws of the whole collection: [Cegar::get_flaws] *)

(** The body of the loop for the entries whose indices are listed.
    [apply_wildcard_plan] never changes the length of [solutions], so the
    bound [solutions.size()] is the one read when the loop starts. *)
Fixpoint get_flaws_loop (indices : list nat) (flaws : FlawList) (c : Cegar)
    : Outcome (FlawList * Cegar) :=
  match indices with
  | [] => mret (flaws, c)
  | i :: rest =>
      match solutions c !! i with
      | None => UndefinedBehaviour
      | Some None => get_flaws_loop rest flaws c
      | Some (Some solution) =>
          if is_solved solution then get_flaws_loop rest flaws c
          else if negb (solution_exists solution) then
            ExitWith SEARCH_UNSOLVABLE
          else
            '(new_flaws, c') ←
              apply_wildcard_plan (static_cast_int i) (get_initial_state task) c;
            if negb (concrete_solution_index c' =? -1) then
              _ ← assert (concrete_solution_index c' =? static_cast_int i);
              _ ← assert (bool_decide (new_flaws = []));
              mret ([], c')
            else get_flaws_loop rest (flaws ++ new_flaws) c'
      end
  end.

Definition get_flaws (c : Cegar) : Outcome (FlawList * Cegar) :=
  get_flaws_loop (seq 0 (length (solutions c))) [] c.

(** ** Size bookkeeping and refinement *)

(** [vector::erase] of the first element equal to [x], if there is one. *)
Fixpoint erase_first (x : Z) (l : list Z) : list Z :=
  match l with
  | [] => []
  | y :: rest => if bool_decide (y = x) then rest else y :: erase_first x rest
  end.

Definition update_goals (added_var : Z) (c : Cegar) : Cegar :=
  set_remaining_goals (erase_first added_var (remaining_goals c)) c.

Definition add_pattern_for_var (var : Z) (c : Cegar) : Cegar :=
  let '(solution, r) := make_solution task [var] (rng c) (wildcard_plans opts) in
  let c1 := set_rng r (set_solutions (solutions c ++ [Some solution]) c) in
  let c2 :=
    set_solution_lookup
      (<[var := wrap_int (Z.of_nat (length (solutions c1)) - 1)]> (solution_lookup c1))
      c1 in
  set_collection_size (int_add (collection_size c2) (get_pdb_size solution)) c2.

Definition can_merge_patterns (index1 index2 : Z) (c : Cegar) : Outcome bool :=
  solution1 ← solution_at c index1;
  solution2 ← solution_at c index2;
  let pdb_size1 := get_pdb_size solution1 in
  let pdb_size2 := get_pdb_size solution2 in
  if negb (is_product_within_limit pdb_size1 pdb_size2 (max_pdb_size opts)) then
    mret false
  else
    let added_size := int_sub (int_sub (int_mul pdb_size1 pdb_size2) pdb_size1) pdb_size2 in
    mret (int_add (collection_size c) added_size <=? max_collection_size opts).

(** [std::sort] on a pattern. *)
Definition sort_pattern (p : list Z) : list Z := merge_sort Z.le p.

(** The loop [for (int var : pattern2) solution_lookup[var] = index1]. *)
Definition redirect_lookup (pattern : list Z) (index : Z) (m : gmap Z Z) : gmap Z Z :=
  foldl (fun m' var => <[var := index]> m') m pattern.

Definition merge_patterns (index1 index2 : Z) (c : Cegar) : Outcome Cegar :=
  solution1 ← solution_at c index1;
  solution2 ← solution_at c index2;
  let pattern2 := get_pattern solution2 in
  let c1 := set_solution_lookup (redirect_lookup pattern2 index1 (solution_lookup c)) c in
  let new_pattern := sort_pattern (get_pattern solution1 ++ pattern2) in
  let pdb_size1 := get_pdb_size solution1 in
  let pdb_size2 := get_pdb_size solution2 in
  let '(merged, r) := make_solution task new_pattern (rng c1) (wildcard_plans opts) in
  let c2 := set_rng r c1 in
  let c3 := set_collection_size (int_sub (collection_size c2) pdb_size1) c2 in
  let c4 := set_collection_size (int_sub (collection_size c3) pdb_size2) c3 in
  let c5 := set_collection_size (int_add (collection_size c4) (get_pdb_size merged)) c4 in
  mret (store_solution index2 None (store_solution index1 (Some merged) c5)).

Definition can_add_variable_to_pattern (index var : Z) (c : Cegar) : Outcome bool :=
  solution ← solution_at c index;
  let pdb_size := get_pdb_size solution in
  let domain_size := get_domain_size task var in
  if negb (is_product_within_limit pdb_size domain_size (max_pdb_size opts)) then
    mret false
  else
    let added_size := int_sub (int_mul pdb_size domain_size) pdb_size in
    mret (int_add (collection_size c) added_size <=? max_collection_size opts).

Definition add_variable_to_pattern (index var : Z) (c : Cegar) : Outcome Cegar :=
  solution ← solution_at c index;
  let new_pattern := sort_pattern (get_pattern solution ++ [var]) in
  let '(new_solution, r) := make_solution task new_pattern (rng c) (wildcard_plans opts) in
  let c1 := set_rng r c in
  let c2 := set_collection_size (int_sub (collection_size c1) (get_pdb_size solution)) c1 in
  let c3 := set_collection_size (int_add (collection_size c2) (get_pdb_size new_solution)) c2 in
  let c4 := set_solution_lookup (<[var := index]> (solution_lookup c3)) c3 in
  mret (store_solution index (Some new_solution) (update_goals var c4)).

(** [global_blacklist.insert(var)] *)
Definition blacklist_var (var : Z) (c : Cegar) : Cegar :=
  set_global_blacklist ({[var]} ∪ global_blacklist c) c.

(** [assert(solutions[i] != nullptr)]: the slot is read only when
    assertions are compiled in. *)
Definition assert_not_null (c : Cegar) (i : Z) : Outcome unit :=
  if NDEBUG then Returns tt
  else match solution_slot c i with
       | None => UndefinedBehaviour
       | Some p => assert (bool_decide (is_Some p))
       end.

(** Lines 445-479 of [handle_flaw]: the attempt to bring [var] into the
    pattern of the flawed entry.  The first component of the result is
    [added_var]. *)
Definition try_add_var (flaw : Flaw) (c : Cegar) : Outcome (bool * Cegar) :=
  let sol_index := solution_index flaw in
  let var := variable flaw in
  match solution_lookup c !! var with
  | Some other_index =>
      _ ← assert (negb (other_index =? sol_index));
      _ ← assert_not_null c other_index;
      can ← can_merge_patterns sol_index other_index c;
      if (can : bool) then
        c1 ← merge_patterns sol_index other_index c;
        mret (true, c1)
      else mret (false, c)
  | None =>
      can ← can_add_variable_to_pattern sol_index var c;
      if (can : bool) then
        c1 ← add_variable_to_pattern sol_index var c;
        mret (true, c1)
      else mret (false, c)
  end.

Definition handle_flaw (flaw : Flaw) (c : Cegar) : Outcome Cegar :=
  '(added_var, c') ← try_add_var flaw c;
  if (added_var : bool) then mret c' else mret (blacklist_var (variable flaw) c').

(** [flaws[i]] for an [int] index. *)
Definition flaw_at (flaws : FlawList) (i : Z) : Outcome Flaw :=
  if i <? 0 then UndefinedBehaviour
  else match flaws !! Z.to_nat i with
       | Some flaw => Returns flaw
       | None => UndefinedBehaviour
       end.

Definition refine (flaws : FlawList) (c : Cegar) : Outcome Cegar :=
  _ ← assert (negb (bool_decide (flaws = [])));
  let '(random_flaw_index, r) := rng_random (rng c) (static_cast_int (length flaws)) in
  flaw ← flaw_at flaws random_flaw_index;
  handle_flaw flaw (set_rng r c).

(** ** Seeding: [Cegar::generate_trivial_solution_collection] *)

(** [remaining_goals.back()] with [remaining_goals.pop_back()]. *)
Definition pop_back (l : list Z) : option (list Z * Z) :=
  match last l with
  | Some x => Some (removelast l, x)
  | None => None
  end.

(** The loop of the case [ALL_GOALS] (lines 133-137).  Every round pops
    one goal, so the length of [remaining_goals] is fuel enough. *)
Fixpoint seed_all_goals (fuel : nat) (c : Cegar) : Cegar :=
  match fuel with
  | O => c
  | S fuel' =>
      match pop_back (remaining_goals c) with
      | None => c
      | Some (rest, var) =>
          seed_all_goals fuel' (add_pattern_for_var var (set_remaining_goals rest c))
      end
  end.

Definition generate_trivial_solution_collection (c : Cegar) : Outcome Cegar :=
  _ ← assert (negb (bool_decide (remaining_goals c = [])));
  match initial opts with
  | GIVEN_GOAL =>
      _ ← assert (negb (given_goal opts =? -1));
      mret (add_pattern_for_var (given_goal opts) (update_goals (given_goal opts) c))
  | RANDOM_GOAL =>
      match pop_back (remaining_goals c) with
      | None => UndefinedBehaviour
      | Some (rest, var) => mret (add_pattern_for_var var (set_remaining_goals rest c))
      end
  | ALL_GOALS => mret (seed_all_goals (length (remaining_goals c)) c)
  end.

(** ** The driver: [Cegar::generate] *)

(** A mathematical integer converted to [std::size_t], which has 64
    bits. *)
Definition wrap_size_t (z : Z) : Z := z mod 18446744073709551616.

(** [std::vector<int>::max_size()] of the standard library, with 64-bit
    pointers and a 4-byte [int]: [PTRDIFF_MAX / sizeof(int)], that is
    2^61 - 1.  The requests of [cegar.cc] are either at most [INT_MAX] or
    above 2^63, so nothing depends on the exact value. *)
Definition vector_int_max_size : Z := 2305843009213693951.

(** [std::vector<int>::reserve(n)] on an empty vector, as far as it is
    seen from outside: a request above [max_size()] throws
    [std::length_error].  Memory is taken to suffice for a request that is
    allowed, as for every other allocation. *)
Definition reserve (n : Z) : Outcome unit :=
  if vector_int_max_size <? n then LengthError else Returns tt.

(** Lines 531-553: a random subset of the non-goal variables is
    blacklisted.  The argument of [reserve] (line 534) is the difference of
    the [int] [num_vars] and the [size_t] [remaining_goals.size()], taken
    in [size_t]: it wraps around when there are more remaining goals than
    variables. *)
Definition blacklist_nongoals (c : Cegar) : Outcome Cegar :=
  let num_vars := static_cast_int (get_variables_size task) in
  _ ← reserve (wrap_size_t (num_vars - Z.of_nat (length (remaining_goals c))));
  let nongoals :=
    filter (fun var_id => var_id ∉ remaining_goals c)
      (map Z.of_nat (seq 0 (Z.to_nat num_vars))) in
  let '(shuffled, r) := rng_shuffle (rng c) nongoals in
  let wanted := global_blacklist_size opts in
  let count :=
    if wanted <? 0 then length shuffled
    else Nat.min (Z.to_nat wanted) (length shuffled) in
  mret
    (set_global_blacklist
       (foldl (fun b var_id => {[var_id]} ∪ b) (global_blacklist c)
          (take count shuffled))
       (set_rng r c)).

(** The main loop (lines 560-607).  [ticks] counts the calls of
    [timer.is_expired()] made so far; [fuel] bounds the iterations of the
    model. *)
Fixpoint main_loop (fuel : nat) (ticks : nat) (refinement_counter : Z)
    (c : Cegar) : Outcome Cegar :=
  match fuel with
  | O => OutOfFuel
  | S fuel' =>
      if is_expired ticks then mret c
      else if refinement_counter =? max_refinements opts then mret c
      else
        '(flaws, c1) ← get_flaws c;
        if bool_decide (flaws = []) then
          if negb (concrete_solution_index c1 =? -1) then
            _ ← assert (bool_decide (global_blacklist c1 = ∅));
            mret c1
          else mret c1
        else if is_expired (S ticks) then mret c1
        else
          c2 ← refine flaws c1;
          main_loop fuel' (S (S ticks)) (int_add refinement_counter 1) c2
  end.

(** The entries handed to [PatternCollectionInformation] (lines 612-627):
    the pattern and the PDB of the concrete solution, or of every entry
    that is not null. *)
Definition collect_output (c : Cegar) : Outcome (list AbstractSolutionData) :=
  if negb (concrete_solution_index c =? -1) then
    solution ← solution_at c (concrete_solution_index c);
    mret [solution]
  else mret (omap id (solutions c)).

(** [Cegar::generate], run on the object the constructor made. *)
Definition generate (fuel : nat) (c : Cegar) : Outcome (list AbstractSolutionData) :=
  let given := given_goal opts in
  if negb (given =? -1) && (static_cast_int (get_variables_size task) <=? given) then
    ExitWith SEARCH_INPUT_ERROR
  else
    let goal_vars := map fact_var (get_goals task) in
    let c1 := set_remaining_goals (remaining_goals c ++ goal_vars) c in
    let found_given_goal :=
      existsb (fun goal_var => negb (given =? -1) && (goal_var =? given)) goal_vars in
    if negb (given =? -1) && negb found_given_goal then
      ExitWith SEARCH_INPUT_ERROR
    else
      let '(shuffled, r) := rng_shuffle (rng c1) (remaining_goals c1) in
      let c2 := set_rng r (set_remaining_goals shuffled c1) in
      c3 ← (if negb (global_blacklist_size opts =? 0)
            then blacklist_nongoals c2 else mret c2);
      c4 ← generate_trivial_solution_collection c3;
      c5 ← main_loop fuel 0 0 c4;
      collect_output c5.

(** The entry point [pdbs::cegar]: construct, then generate. *)
Definition cegar (fuel : nat) (r : RNG) : Outcome (list AbstractSolutionData) :=
  generate fuel (Cegar_new r).

End Model.

(** * The vocabulary of the specification *)

Section Vocabulary.
Context `{Collaborators}.
Context (opts : Options) (task : TaskProxy).

(** The set F_o of the specification: the variables of the preconditions
    of [op] that are violated in [current] and not blacklisted, in the
    order of the preconditions. *)
Definition violated_preconditions (blacklist : gset Z) (current : State)
    (op : OperatorProxy) : list Z :=
  fact_var <$>
    filter (fun p => (fact_var p ∉ blacklist) ∧ current (fact_var p) ≠ fact_value p)
      (get_preconditions op).

(** The flaws (k, v) for the variables [vars]. *)
Definition flaws_on (index : Z) (vars : list Z) : FlawList :=
  (fun v => {| solution_index := index; variable := v |}) <$> vars.

(** An abstract operator whose concrete operator has F_o = ∅. *)
Definition applicable_op (blacklist : gset Z) (solution : AbstractSolutionData)
    (current : State) (abs_op_id : Z) : bool :=
  bool_decide
    (violated_preconditions blacklist current
       (concrete_operator task solution abs_op_id) = []).

(** The variables collected over all the operators of a class. *)
Definition violated_in_class (blacklist : gset Z) (solution : AbstractSolutionData)
    (current : State) (equivalent_ops : list Z) : list Z :=
  concat
    ((fun a => violated_preconditions blacklist current
                 (concrete_operator task solution a)) <$> equivalent_ops).

(** The plan executes to completion: every step has an applicable
    operator, and the first one of every step is applied.  The result is the
    state reached, or [None] when some step has no applicable operator. *)
Fixpoint plan_completes (blacklist : gset Z) (solution : AbstractSolutionData)
    (plan : list (list Z)) (current : State) : option State :=
  match plan with
  | [] => Some current
  | equivalent_ops :: rest =>
      match find (applicable_op blacklist solution current) equivalent_ops with
      | Some a =>
          plan_completes blacklist solution rest
            (get_unregistered_successor task current
               (concrete_operator task solution a))
      | None => None
      end
  end.

(** The plan of the entry solves the concrete task: from the initial
    state it runs without a flaw into a goal state, and no variable is
    blacklisted.  This is when [apply_wildcard_plan] sets
    [concrete_solution_index]. *)
Definition solves_concrete_task (blacklist : gset Z) (index : Z)
    (solution : AbstractSolutionData) : Prop :=
  blacklist = ∅
  ∧ (execute_plan task blacklist solution index (get_plan solution) []
       (get_initial_state task)).1 = []
  ∧ is_goal_state task
      (execute_plan task blacklist solution index (get_plan solution) []
         (get_initial_state task)).2 = true.

(** A goal fact that is violated in [s], not blacklisted and still among
    the remaining goals. *)
Definition open_goal_violation (c : Cegar) (s : State) (goal : FactPair) : Prop :=
  s (fact_var goal) ≠ fact_value goal
  ∧ (fact_var goal ∉ global_blacklist c)
  ∧ (fact_var goal ∈ remaining_goals c).

#[global] Instance open_goal_violation_dec c s goal :
  Decision (open_goal_violation c s goal).
Proof. unfold open_goal_violation. apply _. Defined.

(** The entry at index [i] is live: the slot exists and is not null. *)
Definition live_entry (c : Cegar) (i : Z) (e : AbstractSolutionData) : Prop :=
  0 <= i ∧ solutions c !! Z.to_nat i = Some (Some e).

(** [v] lies in the pattern of some live entry. *)
Definition in_live_pattern (c : Cegar) (v : Z) : Prop :=
  ∃ i e, live_entry c i e ∧ v ∈ get_pattern e.

(** Invariant 2 of the collection state: the lookup table knows exactly
    the variables of the live patterns, each with the index of its entry. *)
Definition lookup_consistent (c : Cegar) : Prop :=
  ∀ v i, solution_lookup c !! v = Some i ↔
         (∃ e, live_entry c i e ∧ v ∈ get_pattern e).

(** The same invariant as a test that can be run. *)
Definition lookup_consistentb (c : Cegar) : bool :=
  forallb
    (fun '(v, i) =>
       match solution_slot c i with
       | Some (Some e) => bool_decide (v ∈ get_pattern e)
       | _ => false
       end)
    (map_to_list (solution_lookup c))
  && forallb
       (fun '(n, slot) =>
          match slot with
          | Some e =>
              forallb
                (fun v => bool_decide (solution_lookup c !! v = Some (Z.of_nat n)))
                (get_pattern e)
          | None => true
          end)
       (imap (fun n slot => (n, slot)) (solutions c)).

(** A flaw as [get_flaws] reports it: on a live entry, and on a variable
    that the pattern of this entry does not hold (what [handle_flaw]
    asserts). *)
Definition flaw_well_formed (c : Cegar) (flaw : Flaw) : Prop :=
  ∃ e, live_entry c (solution_index flaw) e ∧ variable flaw ∉ get_pattern e.

(** A flaw on a live entry. *)
Definition flaw_on_live_entry (c : Cegar) (flaw : Flaw) : Prop :=
  ∃ e, live_entry c (solution_index flaw) e.

(** The contract of the random number generator: a draw for a positive
    bound lies below the bound. *)
Definition draws_below_bound (r : RNG) : Prop :=
  ∀ bound, 0 < bound → 0 <= (rng_random r bound).1 < bound.

(** The contract of the constructor of [AbstractSolutionData]: the entry
    has the pattern it was built for. *)
Definition constructor_keeps_pattern : Prop :=
  ∀ task' pattern r wildcard,
    get_pattern (make_solution task' pattern r wildcard).1 = pattern.

(** The call can leave through [exit_with] only with a code that
    satisfies [P]. *)
Definition exits_only {A : Type} (P : ExitCode → Prop) (o : Outcome A) : Prop :=
  ∀ code, o = ExitWith code → P code.

(** The model of the call did not run out of fuel. *)
Definition has_fuel {A : Type} (o : Outcome A) : Prop := o ≠ OutOfFuel.

(** The states the main loop can be in after seeding left [c0]: those that
    a sequence of flaw extractions and refinements leads to. *)
Inductive reachable_from (c0 : Cegar) : Cegar → Prop :=
| reachable_seed : reachable_from c0 c0
| reachable_get_flaws c flaws c' :
    reachable_from c0 c →
    get_flaws opts task c = Returns (flaws, c') →
    reachable_from c0 c'
| reachable_refine c flaws c' :
    reachable_from c0 c →
    refine opts task flaws c = Returns c' →
    reachable_from c0 c'.

End Vocabulary.

(** * A small task to run the model on

    Two binary variables [a] = 0 and [b] = 1, both 0 initially.  Operator 0
    needs [b = 1] and sets [a := 1]; operator 1 needs nothing and sets
    [b := 1].  The goal is [a = 1] and [b = 1]. *)

(** The successor of a state under unconditional effects. *)
Definition apply_effects (s : State) (op : OperatorProxy) : State :=
  fun v =>
    match find (fun e => fact_var e =? v) (get_effects op) with
    | Some e => fact_value e
    | None => s v
    end.

Definition example_operators (op_id : Z) : OperatorProxy :=
  if op_id =? 0 then
    {| get_preconditions := [{| fact_var := 1; fact_value := 1 |}];
       get_effects := [{| fact_var := 0; fact_value := 1 |}] |}
  else if op_id =? 1 then
    {| get_preconditions := [];
       get_effects := [{| fact_var := 1; fact_value := 1 |}] |}
  else {| get_preconditions := []; get_effects := [] |}.

Definition example_task : TaskProxy :=
  {| get_variables_size := 2;
     get_domain_size := fun _ => 2;
     get_operators := example_operators;
     get_goals := [{| fact_var := 0; fact_value := 1 |};
                   {| fact_var := 1; fact_value := 1 |}];
     get_initial_state := fun _ => 0;
     get_unregistered_successor := apply_effects |}.

(** The same task with the goal [a = 1] only. *)
Definition example_task_one_goal : TaskProxy :=
  {| get_variables_size := 2;
     get_domain_size := fun _ => 2;
     get_operators := example_operators;
     get_goals := [{| fact_var := 0; fact_value := 1 |}];
     get_initial_state := fun _ => 0;
     get_unregistered_successor := apply_effects |}.

(** An entry with the given pattern, PDB size and plan; abstract operator
    ids are the concrete ones. *)
Definition example_entry (pattern : list Z) (size : Z) (plan : list (list Z))
    (solvable : bool) : AbstractSolutionData :=
  {| get_pattern := pattern;
     get_pdb_size := size;
     get_plan := plan;
     get_concrete_op_id_for_abs_op_id := fun a => a;
     is_solved := false;
     solution_exists := solvable |}.

(** Optimal plans of the three projections of the example task. *)
Definition example_solver (task : TaskProxy) (pattern : list Z) (r : unit)
    (wildcard : bool) : AbstractSolutionData * unit :=
  if bool_decide (pattern = [0]) then (example_entry [0] 2 [[0]] true, r)
  else if bool_decide (pattern = [1]) then (example_entry [1] 2 [[1]] true, r)
  else if bool_decide (pattern = [0; 1]) then
    (example_entry [0; 1] 4 [[1]; [0]] true, r)
  else (example_entry pattern 1 [] false, r).

(** Collaborators that always draw 0, shuffle nothing and never run out
    of time. *)
Definition example_world (ndebug : bool) : Collaborators :=
  {| RNG := unit;
     rng_random := fun r _ => (0, r);
     rng_shuffle := fun r l => (l, r);
     make_solution := example_solver;
     is_expired := fun _ => false;
     NDEBUG := ndebug |}.

(** The build with assertions. *)
Abbreviation debug_world := (example_world false).

Definition example_options (init : InitialCollectionType) (given : Z)
    (pdb_limit : Z) (ignore : bool) : Options :=
  {| max_refinements := 100;
     max_pdb_size := pdb_limit;
     max_collection_size := INT_MAX;
     wildcard_plans := true;
     ignore_goal_violations := ignore;
     global_blacklist_size := 0;
     initial := init;
     given_goal := given |}.

(** The collection after seeding with all goals: entry 0 is [{b}], entry 1
    is [{a}]. *)
Definition example_seeded : @Cegar (example_world false) :=
  {| rng := tt : @RNG (example_world false);
     remaining_goals := [];
     global_blacklist := ∅;
     solutions := [Some (example_entry [1] 2 [[1]] true);
                   Some (example_entry [0] 2 [[0]] true)];
     solution_lookup := <[0 := 1]> (<[1 := 0]> ∅);
     collection_size := 4;
     concrete_solution_index := -1 |}.

(** The collection after the two entries were merged into entry 1. *)
Definition example_merged : @Cegar (example_world false) :=
  {| rng := tt : @RNG (example_world false);
     remaining_goals := [];
     global_blacklist := ∅;
     solutions := [None; Some (example_entry [0; 1] 4 [[1]; [0]] true)];
     solution_lookup := <[1 := 1]> (<[0 := 1]> (<[1 := 0]> ∅));
     collection_size := 4;
     concrete_solution_index := -1 |}.

(** The collection after seeding with a random goal: entry 0 is [{b}], and
    [a] is still among the remaining goals. *)
Definition example_seeded_random : @Cegar (example_world false) :=
  {| rng := tt : @RNG (example_world false);
     remaining_goals := [0];
     global_blacklist := ∅;
     solutions := [Some (example_entry [1] 2 [[1]] true)];
     solution_lookup := <[1 := 0]> ∅;
     collection_size := 2;
     concrete_solution_index := -1 |}.

(** A collection whose second entry has no abstract solution. *)
Definition example_unsolvable : @Cegar (example_world false) :=
  {| rng := tt : @RNG (example_world false);
     remaining_goals := [];
     global_blacklist := ∅;
     solutions := [Some (example_entry [1] 2 [[1]] true);
                   Some (example_entry [0] 2 [] false)];
     solution_lookup := <[0 := 1]> (<[1 := 0]> ∅);
     collection_size := 4;
     concrete_solution_index := -1 |}.

(** ** A large collection

    Every variable has 1000 values.  Entries 0 and 1 are the singleton
    patterns of the variables 0 and 1 with 1000 abstract states each; the
    2147 entries after them are patterns of two variables with 1000000
    abstract states each.  The sizes add up to 2147002000, which is below
    [INT_MAX] = 2147483647. *)

Definition large_task : TaskProxy :=
  {| get_variables_size := 4297;
     get_domain_size := fun _ => 1000;
     get_operators := fun _ => {| get_preconditions := []; get_effects := [] |};
     get_goals := [{| fact_var := 0; fact_value := 1 |};
                   {| fact_var := 1; fact_value := 1 |}];
     get_initial_state := fun _ => 0;
     get_unregistered_successor := apply_effects |}.

Definition large_pair (n : nat) : list Z :=
  [Z.of_nat (2 + 2 * n); Z.of_nat (3 + 2 * n)].

Definition large_solutions : list (option AbstractSolutionData) :=
  [Some (example_entry [0] 1000 [] true); Some (example_entry [1] 1000 [] true)]
  ++ ((fun n => Some (example_entry (large_pair n) 1000000 [] true)) <$> seq 0 2147).

Definition large_lookup : gmap Z Z :=
  foldr (fun n m => redirect_lookup (large_pair n) (Z.of_nat (2 + n)) m)
    (<[0 := 0]> (<[1 := 1]> ∅)) (seq 0 2147).

Definition large_collection : @Cegar (example_world false) :=
  {| rng := tt : @RNG (example_world false);
     remaining_goals := [];
     global_blacklist := ∅;
     solutions := large_solutions;
     solution_lookup := large_lookup;
     collection_size := 2147002000;
     concrete_solution_index := -1 |}.

(** The default limits: [max_pdb_size] = 1000000 and
    [max_collection_size] = infinity, which for an [int] option is
    [INT_MAX]. *)
Definition default_options : Options :=
  example_options ALL_GOALS (-1) 1000000 false.

(** * More vocabulary: concrete plans and the invariants of the collection *)

Section MoreVocabulary.
Context `{Collaborators}.
Context (opts : Options) (task : TaskProxy).

(** Every precondition of [op] holds in [s]. *)
Definition is_applicable (s : State) (op : OperatorProxy) : bool :=
  forallb (fun p => s (fact_var p) =? fact_value p) (get_preconditions op).

(** The state that applying the operators one after the other leads to, or
    [None] when one of them is not applicable where it is due. *)
Fixpoint apply_operators (s : State) (ops : list OperatorProxy) : option State :=
  match ops with
  | [] => Some s
  | op :: rest =>
      if is_applicable s op
      then apply_operators (get_unregistered_successor task s op) rest
      else None
  end.

(** [ops] is a plan of the concrete task: applicable step by step from the
    initial state, and ending in a goal state. *)
Definition is_concrete_plan (ops : list OperatorProxy) : Prop :=
  ∃ s, apply_operators (get_initial_state task) ops = Some s
       ∧ is_goal_state task s = true.

(** [choice] picks one abstract operator from each of the first steps of
    [plan]. *)
Definition picks_from (choice : list Z) (plan : list (list Z)) : Prop :=
  Forall2 (fun a equivalent_ops => a ∈ equivalent_ops) choice
    (take (length choice) plan).

(** The PDB size that a slot contributes. *)
Definition slot_size (slot : option AbstractSolutionData) : Z :=
  match slot with Some e => get_pdb_size e | None => 0 end.

(** The sum of the PDB sizes of the entries that are not null. *)
Definition total_pdb_size (c : Cegar) : Z :=
  foldr
    (fun slot sum =>
       match slot with Some e => get_pdb_size e + sum | None => sum end)
    0 (solutions c).

(** Invariant 1: [collection_size] is the sum of the PDB sizes, as far as
    an [int] can hold it. *)
Definition size_consistent (c : Cegar) : Prop :=
  collection_size c = wrap_int (total_pdb_size c).

(** Two live entries never share a variable. *)
Definition patterns_disjoint (c : Cegar) : Prop :=
  ∀ i j ei ej v,
    live_entry c i ei → live_entry c j ej →
    v ∈ get_pattern ei → v ∈ get_pattern ej → i = j.

(** The pattern of every live entry is sorted and not empty. *)
Definition patterns_sorted (c : Cegar) : Prop :=
  ∀ i e, live_entry c i e → Sorted Z.le (get_pattern e) ∧ get_pattern e ≠ [].

(** The remaining goals are pairwise different and none of them is in a
    pattern yet. *)
Definition goals_unplaced (c : Cegar) : Prop :=
  NoDup (remaining_goals c)
  ∧ ∀ v, v ∈ remaining_goals c → solution_lookup c !! v = None.

(** The patterns of the entries that are not null, in the order of their
    indices. *)
Definition live_patterns (c : Cegar) : list (list Z) :=
  omap (fmap get_pattern) (solutions c).

(** The contract of [shuffle]: the result is a permutation of the
    argument. *)
Definition shuffle_permutes (r : RNG) : Prop :=
  ∀ l, (rng_shuffle r l).1 ≡ₚ l.

(** [c'] is [c] except that some entries were marked as solved and
    [concrete_solution_index] may have been set. *)
Definition only_marks_solved (c c' : Cegar) : Prop :=
  rng c' = rng c
  ∧ remaining_goals c' = remaining_goals c
  ∧ global_blacklist c' = global_blacklist c
  ∧ solution_lookup c' = solution_lookup c
  ∧ collection_size c' = collection_size c
  ∧ length (solutions c') = length (solutions c)
  ∧ ∀ i, solutions c' !! i = solutions c !! i
         ∨ ∃ e, solutions c !! i = Some (Some e)
                ∧ solutions c' !! i = Some (Some (mark_as_solved e)).

(** The object before seeding: no entry, no lookup, size 0. *)
Definition unseeded (c : Cegar) : Prop :=
  solutions c = [] ∧ solution_lookup c = ∅ ∧ collection_size c = 0.

(** An outcome that is a normal return or an exit, not a failed assertion,
    undefined behaviour or lack of fuel. *)
Definition ends_regularly {A : Type} (o : Outcome A) : Prop :=
  match o with
  | Returns _ | ExitWith _ => True
  | _ => False
  end.

(** Some entry of the collection is not null. *)
Definition has_live_entry (c : Cegar) : Prop := ∃ i e, live_entry c i e.

(** The invariants of the collection, together. *)
Definition collection_invariants (c : Cegar) : Prop :=
  lookup_consistent c
  ∧ size_consistent c
  ∧ goals_unplaced c
  ∧ patterns_sorted c
  ∧ has_live_entry c.

(** The variables of the task that are not remaining goals, by id. *)
Definition nongoal_variables (c : Cegar) : list Z :=
  filter (fun var_id => var_id ∉ remaining_goals c)
    (map Z.of_nat (seq 0 (Z.to_nat (static_cast_int (get_variables_size task))))).

(** The goal variables that seeding builds a pattern for, in the order of
    the patterns, when [goals] are the remaining goals. *)
Definition seeded_goals (goals : list Z) : list Z :=
  match initial opts with
  | ALL_GOALS => reverse goals
  | RANDOM_GOAL => option_list (last goals)
  | GIVEN_GOAL => [given_goal opts]
  end.

(** No two patterns of the output share a variable. *)
Definition outputs_disjoint (out : list AbstractSolutionData) : Prop :=
  ∀ i j ei ej v,
    out !! i = Some ei → out !! j = Some ej →
    v ∈ get_pattern ei → v ∈ get_pattern ej → i = j.

(** [marked] is [solution] with the solved flag set and nothing else
    changed. *)
Definition solved_copy_of (solution marked : AbstractSolutionData) : Prop :=
  is_solved marked = true
  ∧ get_pattern marked = get_pattern solution
  ∧ get_pdb_size marked = get_pdb_size solution
  ∧ get_plan marked = get_plan solution
  ∧ get_concrete_op_id_for_abs_op_id marked = get_concrete_op_id_for_abs_op_id solution
  ∧ solution_exists marked = solution_exists solution.

(** [l'] is [l] without the first occurrence of [x], if there is one. *)
Definition first_erased (x : Z) (l l' : list Z) : Prop :=
  ((x ∉ l) ∧ l' = l)
  ∨ ∃ l1 l2, l = l1 ++ x :: l2 ∧ (x ∉ l1) ∧ l' = l1 ++ l2.

(** A merge, on the fields.  [c'] is [c] after the entries [k] and [m]
    were merged into [k] with the random number generator in state [r]:
    slot [k] holds the entry that the constructor builds for the sorted
    union of the two patterns, slot [m] is null, the lookup table sends
    the variables of [m] to [k], and [collection_size] has lost the two
    old PDB sizes and gained the new one. *)
Definition merged_into (r : RNG) (k m : Z) (c c' : Cegar) : Prop :=
  ∃ ek em pattern merged,
    live_entry c k ek ∧ live_entry c m em
    ∧ Sorted Z.le pattern
    ∧ pattern ≡ₚ get_pattern ek ++ get_pattern em
    ∧ make_solution task pattern r (wildcard_plans opts) = (merged, rng c')
    ∧ solutions c' =
        <[Z.to_nat m := None]> (<[Z.to_nat k := Some merged]> (solutions c))
    ∧ (∀ v, solution_lookup c' !! v =
            if bool_decide (v ∈ get_pattern em) then Some k
            else solution_lookup c !! v)
    ∧ collection_size c' =
        int_add (int_sub (int_sub (collection_size c) (get_pdb_size ek))
                   (get_pdb_size em)) (get_pdb_size merged)
    ∧ remaining_goals c' = remaining_goals c
    ∧ global_blacklist c' = global_blacklist c
    ∧ concrete_solution_index c' = concrete_solution_index c.

(** An extension, on the fields.  [c'] is [c] after the pattern of the
    entry [k] was extended by [v] with the random number generator in state
    [r]: slot [k] holds the entry that the constructor builds for the
    sorted pattern with [v], the lookup table sends [v] to [k],
    [collection_size] has lost the old PDB size and gained the new one,
    and the first occurrence of [v] is gone from the remaining goals. *)
Definition extended_by (r : RNG) (k v : Z) (c c' : Cegar) : Prop :=
  ∃ ek pattern extended,
    live_entry c k ek
    ∧ Sorted Z.le pattern
    ∧ pattern ≡ₚ get_pattern ek ++ [v]
    ∧ make_solution task pattern r (wildcard_plans opts) = (extended, rng c')
    ∧ solutions c' = <[Z.to_nat k := Some extended]> (solutions c)
    ∧ solution_lookup c' = <[v := k]> (solution_lookup c)
    ∧ collection_size c' =
        int_add (int_sub (collection_size c) (get_pdb_size ek))
          (get_pdb_size extended)
    ∧ first_erased v (remaining_goals c) (remaining_goals c')
    ∧ global_blacklist c' = global_blacklist c
    ∧ concrete_solution_index c' = concrete_solution_index c.

(** Blacklisting, on the fields.  [c'] is [c] with [v] on the blacklist
    and the random number generator in state [r]; nothing else differs. *)
Definition blacklisted_only (r : RNG) (v : Z) (c c' : Cegar) : Prop :=
  global_blacklist c' = {[v]} ∪ global_blacklist c
  ∧ rng c' = r
  ∧ remaining_goals c' = remaining_goals c
  ∧ solutions c' = solutions c
  ∧ solution_lookup c' = solution_lookup c
  ∧ collection_size c' = collection_size c
  ∧ concrete_solution_index c' = concrete_solution_index c.

(** A new singleton, on the fields.  [c'] is [c] with a new last entry,
    the one that the constructor builds for the pattern [{var}]: the lookup
    table sends [var] to the index of the new entry, [collection_size] has
    grown by the size of its PDB, and [var] is no remaining goal any more
    while the other remaining goals are the ones they were. *)
Definition singleton_added (var : Z) (c c' : Cegar) : Prop :=
  ∃ solution,
    make_solution task [var] (rng c) (wildcard_plans opts) = (solution, rng c')
    ∧ get_pattern solution = [var]
    ∧ solutions c' = solutions c ++ [Some solution]
    ∧ solution_lookup c' =
        <[var := Z.of_nat (length (solutions c))]> (solution_lookup c)
    ∧ collection_size c' = int_add (collection_size c) (get_pdb_size solution)
    ∧ (var ∉ remaining_goals c')
    ∧ (∀ v, v ≠ var → (v ∈ remaining_goals c') ↔ (v ∈ remaining_goals c))
    ∧ global_blacklist c' = global_blacklist c
    ∧ concrete_solution_index c' = concrete_solution_index c.

(** One new singleton after the other for the variables [vars], from [c]
    to [c']. *)
Fixpoint singletons_added (vars : list Z) (c c' : Cegar) : Prop :=
  match vars with
  | [] => c' = c
  | var :: rest => ∃ c1, singleton_added var c c1 ∧ singletons_added rest c1 c'
  end.

End MoreVocabulary.

(** ** More of the example task *)

(** The object that [generate] seeds on the example task: both goals
    remain and nothing else is set. *)
Definition example_unseeded : @Cegar (example_world false) :=
  set_remaining_goals [0; 1] (Cegar_new (tt : @RNG (example_world false))).

(** The object that [generate] draws the random blacklist for on the
    example task with the one goal [a]. *)
Definition example_one_goal_unseeded : @Cegar (example_world false) :=
  set_remaining_goals [0] (Cegar_new (tt : @RNG (example_world false))).

(** The same object with [b] on the blacklist. *)
Definition example_one_goal_blacklisted : @Cegar (example_world false) :=
  set_global_blacklist {[1]} example_one_goal_unseeded.

(** An object with more remaining goals than the example task has
    variables. *)
Definition example_many_goals : @Cegar (example_world false) :=
  set_remaining_goals [0; 0; 0] (Cegar_new (tt : @RNG (example_world false))).

(** The collection after seeding with a random goal and adding [a] to
    entry 0. *)
Definition example_extended : @Cegar (example_world false) :=
  {| rng := tt : @RNG (example_world false);
     remaining_goals := [];
     global_blacklist := ∅;
     solutions := [Some (example_entry [0; 1] 4 [[1]; [0]] true)];
     solution_lookup := <[0 := 0]> (<[1 := 0]> ∅);
     collection_size := 4;
     concrete_solution_index := -1 |}.

(** The merged collection once its entry was found to solve the task. *)
Definition example_solved : @Cegar (example_world false) :=
  set_concrete_solution_index 1 example_merged.

(** The default options with another bound on the refinements and another
    size of the random blacklist. *)
Definition bounded_options (refinements blacklist_size : Z) : Options :=
  {| max_refinements := refinements;
     max_pdb_size := 1000000;
     max_collection_size := INT_MAX;
     wildcard_plans := true;
     ignore_goal_violations := false;
     global_blacklist_size := blacklist_size;
     initial := ALL_GOALS;
     given_goal := -1 |}.

(** * Properties *)

Section Properties.
Context `{Collaborators}.
Context (opts : Options) (task : TaskProxy).

(** ** Machine integers *)

Lemma wrap_int_in_range z : in_int_range z → wrap_int z = z.
Proof.
  unfold in_int_range, INT_MIN, INT_MAX, wrap_int. intros Hz.
  rewrite Z.mod_small by lia. lia.
Qed.

Lemma wrap_int_range z : in_int_range (wrap_int z).
Proof.
  unfold in_int_range, INT_MIN, INT_MAX, wrap_int.
  pose proof (Z.mod_pos_bound (z + 2147483648) 4294967296). lia.
Qed.

Lemma static_cast_int_small n :
  Z.of_nat n <= INT_MAX → static_cast_int n = Z.of_nat n.
Proof.
  intros Hn. apply wrap_int_in_range. unfold in_int_range, INT_MIN, INT_MAX in *. lia.
Qed.

(** ** Plan projection *)

(** The precondition loop adds exactly the flaws on F_o to the list it was
    given, and raises [flaw_detected] iff F_o is not empty. *)
Lemma check_preconditions_spec blacklist index current pres detected flaws :
  check_preconditions blacklist index current pres detected flaws =
    (detected
     || negb (bool_decide
                (violated_preconditions blacklist current
                   {| get_preconditions := pres; get_effects := [] |} = [])),
     flaws ++ flaws_on index
                (violated_preconditions blacklist current
                   {| get_preconditions := pres; get_effects := [] |})).
Proof.
  unfold violated_preconditions, flaws_on. simpl.
  revert detected flaws.
  induction pres as [|p pres IH]; intros detected flaws; simpl.
  - by rewrite orb_false_r, app_nil_r.
  - rewrite filter_cons.
    destruct (decide (fact_var p ∈ blacklist)) as [Hin|Hout].
    + rewrite (bool_decide_eq_true_2 _ Hin), IH.
      by rewrite decide_False by (intros [Hn _]; contradiction).
    + rewrite (bool_decide_eq_false_2 _ Hout).
      destruct (Z.eqb_spec (current (fact_var p)) (fact_value p)) as [Heq|Hne]; simpl.
      * rewrite IH. by rewrite decide_False by (intros [_ Hn]; contradiction).
      * rewrite IH, decide_True by (split; assumption).
        rewrite !fmap_cons.
        rewrite (bool_decide_eq_false_2 (_ :: _ = [])) by done.
        by rewrite orb_true_r, <- app_assoc.
Qed.

Lemma violated_preconditions_eta blacklist current op :
  violated_preconditions blacklist current
    {| get_preconditions := get_preconditions op; get_effects := [] |} =
  violated_preconditions blacklist current op.
Proof. reflexivity. Qed.

(** One plan step, as the loop over the class computes it. *)
Lemma try_equivalent_ops_spec blacklist solution index ops flaws current :
  try_equivalent_ops task blacklist solution index ops flaws current =
    match find (applicable_op task blacklist solution current) ops with
    | Some a =>
        (false, [],
         get_unregistered_successor task current (concrete_operator task solution a))
    | None =>
        (true,
         flaws ++ flaws_on index (violated_in_class task blacklist solution current ops),
         current)
    end.
Proof.
  revert flaws.
  induction ops as [|a ops IH]; intros flaws; simpl.
  - unfold violated_in_class, flaws_on. simpl. by rewrite app_nil_r.
  - rewrite check_preconditions_spec, violated_preconditions_eta. simpl.
    unfold applicable_op at 1.
    case_bool_decide as Happ; simpl; [done|].
    rewrite IH. destruct (find _ ops); [done|].
    unfold violated_in_class, flaws_on. simpl.
    by rewrite fmap_app, app_assoc.
Qed.

(** C1.  At every step of the plan of an entry, the operators of the class
    are tried in order in the current state.  If some operator has no
    violated non-blacklisted precondition, the first such operator is
    applied, the flaws collected so far are dropped, and execution goes on
    with the next step.  Otherwise a flaw (k, v) is appended for every
    violated non-blacklisted precondition variable, in the order in which
    the operators and their preconditions were tried, and the execution of
    the plan stops at this step. *)
Theorem plan_step_applies_first_applicable_or_aborts
    blacklist solution index equivalent_ops rest flaws current :
  execute_plan task blacklist solution index (equivalent_ops :: rest) flaws current =
    match find (applicable_op task blacklist solution current) equivalent_ops with
    | Some a =>
        execute_plan task blacklist solution index rest []
          (get_unregistered_successor task current
             (concrete_operator task solution a))
    | None =>
        (flaws ++ flaws_on index
                    (violated_in_class task blacklist solution current equivalent_ops),
         current)
    end.
Proof.
  simpl. rewrite try_equivalent_ops_spec.
  by destruct (find _ equivalent_ops).
Qed.

(** A plan that executes to completion leaves no precondition flaw, and
    the loop ends in the state the specification reaches. *)
Lemma execute_plan_completes blacklist solution index plan current s :
  plan_completes task blacklist solution plan current = Some s →
  execute_plan task blacklist solution index plan [] current = ([], s).
Proof.
  revert current.
  induction plan as [|ops plan IH]; intros current Hdone.
  - simpl in *. by inversion Hdone.
  - simpl in *. rewrite try_equivalent_ops_spec.
    destruct (find _ ops); [by apply IH | done].
Qed.

(** The goal loop emits one flaw for every goal fact that is an open goal
    violation, in the order of the goals. *)
Lemma collect_goal_flaws_spec c index s goals flaws :
  collect_goal_flaws c index s goals flaws =
    flaws ++ flaws_on index (fact_var <$> filter (open_goal_violation c s) goals).
Proof.
  revert flaws.
  induction goals as [|g goals IH]; intros flaws; simpl.
  - by rewrite app_nil_r.
  - rewrite filter_cons. unfold goal_is_flaw.
    destruct (decide (open_goal_violation c s g)) as [(Hv & Hb & Hr)|Hno].
    + rewrite (bool_decide_eq_false_2 _ Hb), (bool_decide_eq_true_2 _ Hr).
      destruct (Z.eqb_spec (s (fact_var g)) (fact_value g)); [done|]. simpl.
      rewrite IH, <- app_assoc. done.
    + destruct (Z.eqb_spec (s (fact_var g)) (fact_value g)); simpl; [by apply IH|].
      case_bool_decide; simpl; [by apply IH|].
      case_bool_decide; simpl; [|by apply IH].
      exfalso. apply Hno. by repeat split.
Qed.

(** C3.  When the plan of an entry executes to completion from the initial
    state and the state reached is a goal state, no flaw is returned and,
    field by field: with an empty blacklist [concrete_solution_index]
    becomes the index of the entry and nothing else changes; with a
    non-empty blacklist the slot of the entry holds the entry with the
    solved flag set, whatever the blacklisted variables would have said,
    and nothing else changes. *)
Theorem completed_plan_in_goal_state index init c solution s :
  solution_at c index = Returns solution →
  plan_completes task (global_blacklist c) solution (get_plan solution) init = Some s →
  is_goal_state task s = true →
  ∃ c',
    apply_wildcard_plan opts task index init c = Returns ([], c')
    ∧ rng c' = rng c
    ∧ remaining_goals c' = remaining_goals c
    ∧ global_blacklist c' = global_blacklist c
    ∧ solution_lookup c' = solution_lookup c
    ∧ collection_size c' = collection_size c
    ∧ (global_blacklist c = ∅ →
       concrete_solution_index c' = index ∧ solutions c' = solutions c)
    ∧ (global_blacklist c ≠ ∅ →
       concrete_solution_index c' = concrete_solution_index c
       ∧ length (solutions c') = length (solutions c)
       ∧ (∀ i, i ≠ Z.to_nat index → solutions c' !! i = solutions c !! i)
       ∧ ∃ marked, solutions c' !! Z.to_nat index = Some (Some marked)
                   ∧ solved_copy_of solution marked).
Proof.
  intros Hsol Hdone Hgoal.
  assert (Z.to_nat index < length (solutions c))%nat as Hlt.
  { unfold solution_at, solution_slot in Hsol. destruct (index <? 0); [done|].
    destruct (solutions c !! Z.to_nat index) as [slot|] eqn:Hslot; [|done].
    by eapply lookup_lt_Some. }
  unfold apply_wildcard_plan. rewrite Hsol. simpl.
  rewrite (execute_plan_completes _ _ index _ _ _ Hdone).
  unfold conclude_plan. simpl. rewrite Hgoal.
  destruct (decide (global_blacklist c = ∅)) as [Hbl|Hbl].
  - rewrite (bool_decide_eq_true_2 _ Hbl).
    exists (set_concrete_solution_index index c).
    split; [done|]. do 5 (split; [done|]). split; [by intros _ | by intros Hne].
  - rewrite (bool_decide_eq_false_2 _ Hbl).
    exists (mark_solved_at index solution c).
    split; [done|]. do 5 (split; [done|]). split; [by intros Heq|].
    intros _. unfold mark_solved_at, store_solution. simpl.
    split; [done|]. split; [by rewrite length_insert|]. split.
    + intros i Hi. by rewrite list_lookup_insert_ne.
    + exists (mark_as_solved solution).
      split; [by apply list_lookup_insert_eq|]. by repeat split.
Qed.

(** C4.  When the plan of an entry executes to completion, the state
    reached is not a goal state and goal violations are not ignored, the
    flaws returned are one flaw (k, g) for every goal fact on g that is
    violated in the state reached, not blacklisted and still among the
    remaining goals, and nothing else; the collection is left as it was, so
    the entry is not marked as solved, also when the list is empty. *)
Theorem completed_plan_outside_goal index init c solution s :
  solution_at c index = Returns solution →
  plan_completes task (global_blacklist c) solution (get_plan solution) init = Some s →
  is_goal_state task s = false →
  ignore_goal_violations opts = false →
  apply_wildcard_plan opts task index init c =
    Returns
      (flaws_on index (fact_var <$> filter (open_goal_violation c s) (get_goals task)),
       c).
Proof.
  intros Hsol Hdone Hgoal Hignore.
  unfold apply_wildcard_plan. rewrite Hsol. simpl.
  rewrite (execute_plan_completes _ _ index _ _ _ Hdone).
  unfold conclude_plan. simpl. rewrite Hgoal, Hignore. simpl.
  by rewrite collect_goal_flaws_spec.
Qed.

(** ** Invariant 2 *)

(** The test [lookup_consistentb] is sound for the invariant. *)
Lemma lookup_consistentb_sound c :
  lookup_consistentb c = true → lookup_consistent c.
Proof.
  unfold lookup_consistentb. intros Hb.
  apply andb_true_iff in Hb as [Hmap Hlist].
  rewrite forallb_forall in Hmap. rewrite forallb_forall in Hlist.
  intros v i. split.
  - intros Hlk.
    specialize (Hmap (v, i)). simpl in Hmap.
    assert (In (v, i) (map_to_list (solution_lookup c))) as Hin
      by (by apply list_elem_of_In, elem_of_map_to_list).
    specialize (Hmap Hin). unfold solution_slot in Hmap.
    destruct (Z.ltb_spec i 0); [done|].
    destruct (solutions c !! Z.to_nat i) as [[e|]|] eqn:Hslot; try done.
    exists e. split; [by split|]. by apply bool_decide_eq_true_1 in Hmap.
  - intros (e & [Hpos Hslot] & Hin).
    specialize (Hlist (Z.to_nat i, Some e)). simpl in Hlist.
    assert (In (Z.to_nat i, Some e)
              (imap (fun n slot => (n, slot)) (solutions c))) as Himap.
    { apply list_elem_of_In.
      by apply (elem_of_lookup_imap_2 (fun n slot => (n, slot))). }
    specialize (Hlist Himap). rewrite forallb_forall in Hlist.
    specialize (Hlist v ltac:(by apply list_elem_of_In)).
    apply bool_decide_eq_true_1 in Hlist. rewrite Hlist. f_equal. lia.
Qed.

(** ** Refinement *)

Lemma solution_at_live c i e :
  live_entry c i e → solution_at c i = Returns e.
Proof.
  intros [Hpos Hslot]. unfold solution_at, solution_slot.
  destruct (Z.ltb_spec i 0); [lia|]. by rewrite Hslot.
Qed.

Lemma solution_at_returns c i e :
  solution_at c i = Returns e → live_entry c i e.
Proof.
  unfold solution_at, solution_slot, live_entry.
  destruct (Z.ltb_spec i 0); [done|].
  destruct (solutions c !! Z.to_nat i) as [[e'|]|]; try done.
  intros [= ->]. split; [lia | done].
Qed.

Lemma live_entry_set_rng r c i e :
  live_entry (set_rng r c) i e ↔ live_entry c i e.
Proof. reflexivity. Qed.

Lemma assert_true b : b = true → assert b = Returns tt.
Proof. intros ->. unfold assert. by rewrite orb_true_r. Qed.

Lemma assert_not_null_live c i e :
  live_entry c i e → assert_not_null c i = Returns tt.
Proof.
  intros [Hpos Hslot]. unfold assert_not_null, solution_slot.
  destruct NDEBUG eqn:Hnd; [done|].
  destruct (Z.ltb_spec i 0); [lia|]. rewrite Hslot.
  by apply assert_true, bool_decide_eq_true_2.
Qed.

(** Both size tests return once the entries they read are live. *)
Lemma can_merge_patterns_live c i1 i2 e1 e2 :
  live_entry c i1 e1 → live_entry c i2 e2 →
  ∃ b, can_merge_patterns opts i1 i2 c = Returns b.
Proof.
  intros H1 H2. unfold can_merge_patterns.
  rewrite (solution_at_live _ _ _ H1), (solution_at_live _ _ _ H2). simpl.
  destruct (negb _); eauto.
Qed.

Lemma can_add_variable_to_pattern_live c i e v :
  live_entry c i e →
  ∃ b, can_add_variable_to_pattern opts task i v c = Returns b.
Proof.
  intros H1. unfold can_add_variable_to_pattern.
  rewrite (solution_at_live _ _ _ H1). simpl.
  destruct (negb _); eauto.
Qed.

Lemma merge_patterns_live c i1 i2 e1 e2 :
  live_entry c i1 e1 → live_entry c i2 e2 →
  ∃ c', merge_patterns opts task i1 i2 c = Returns c'.
Proof.
  intros H1 H2. unfold merge_patterns.
  rewrite (solution_at_live _ _ _ H1), (solution_at_live _ _ _ H2). simpl.
  destruct (make_solution _ _ _ _). eauto.
Qed.

Lemma add_variable_to_pattern_live c i e v :
  live_entry c i e →
  ∃ c', add_variable_to_pattern opts task i v c = Returns c'.
Proof.
  intros H1. unfold add_variable_to_pattern.
  rewrite (solution_at_live _ _ _ H1). simpl.
  destruct (make_solution _ _ _ _). eauto.
Qed.

(** Under invariant 2, a variable outside every live pattern is unknown
    to the lookup table. *)
Lemma lookup_None_iff c v :
  lookup_consistent c →
  solution_lookup c !! v = None ↔ ¬ in_live_pattern c v.
Proof.
  intros Hinv. split.
  - intros Hnone (i & e & Hlive & Hin).
    assert (solution_lookup c !! v = Some i) as Hsome by (apply Hinv; eauto).
    congruence.
  - intros Hnot. destruct (solution_lookup c !! v) as [i|] eqn:Hlk; [|done].
    exfalso. apply Hnot. apply Hinv in Hlk as (e & Hlive & Hin).
    by exists i, e.
Qed.

(** What [handle_flaw] does with a flaw (k, v) on a live entry k whose
    pattern does not hold v. *)
Lemma handle_flaw_cases c k v ek :
  lookup_consistent c →
  live_entry c k ek →
  v ∉ get_pattern ek →
  let flaw := {| solution_index := k; variable := v |} in
  (∀ m em, live_entry c m em → v ∈ get_pattern em →
     m ≠ k
     ∧ ∃ b, can_merge_patterns opts k m c = Returns b
       ∧ try_add_var opts task flaw c =
           (if b then c' ← merge_patterns opts task k m c; mret (true, c')
            else Returns (false, c))
       ∧ if b then
           ∃ c', merge_patterns opts task k m c = Returns c'
                 ∧ handle_flaw opts task flaw c = Returns c'
         else handle_flaw opts task flaw c = Returns (blacklist_var v c))
  ∧ (¬ in_live_pattern c v →
     ∃ b, can_add_variable_to_pattern opts task k v c = Returns b
       ∧ try_add_var opts task flaw c =
           (if b then c' ← add_variable_to_pattern opts task k v c; mret (true, c')
            else Returns (false, c))
       ∧ if b then
           ∃ c', add_variable_to_pattern opts task k v c = Returns c'
                 ∧ handle_flaw opts task flaw c = Returns c'
         else handle_flaw opts task flaw c = Returns (blacklist_var v c)).
Proof.
  intros Hinv Hk Hnotin flaw. split.
  - intros m em Hm Hin.
    assert (m ≠ k) as Hmk.
    { intros ->. destruct Hk as [_ Hk], Hm as [_ Hm]. congruence. }
    split; [done|].
    assert (solution_lookup c !! v = Some m) as Hlk by (apply Hinv; eauto).
    destruct (can_merge_patterns_live c k m ek em Hk Hm) as [b Hb].
    exists b. split; [done|].
    assert (try_add_var opts task flaw c =
              (if b then c' ← merge_patterns opts task k m c; mret (true, c')
               else Returns (false, c))) as Htry.
    { unfold try_add_var. simpl. rewrite Hlk.
      rewrite assert_true by (apply negb_true_iff, Z.eqb_neq; done). simpl.
      rewrite (assert_not_null_live _ _ _ Hm). simpl.
      rewrite Hb. simpl. by destruct b. }
    split; [done|].
    unfold handle_flaw. rewrite Htry. destruct b; simpl; [|done].
    destruct (merge_patterns_live c k m ek em Hk Hm) as [c' Hc'].
    exists c'. by rewrite Hc'.
  - intros Hnone. apply (lookup_None_iff c v Hinv) in Hnone.
    destruct (can_add_variable_to_pattern_live c k ek v Hk) as [b Hb].
    exists b. split; [done|].
    assert (try_add_var opts task flaw c =
              (if b then c' ← add_variable_to_pattern opts task k v c; mret (true, c')
               else Returns (false, c))) as Htry.
    { unfold try_add_var. simpl. rewrite Hnone, Hb. simpl. by destruct b. }
    split; [done|].
    unfold handle_flaw. rewrite Htry. destruct b; simpl; [|done].
    destruct (add_variable_to_pattern_live c k ek v Hk) as [c' Hc'].
    exists c'. by rewrite Hc'.
Qed.

(** The branches of the refiner.  From a non-empty flaw list the refiner
    takes the flaw (k, v) at the index the random number generator draws
    for the length of the list.  If v lies in the pattern of a live entry
    m, then m is not k and [merge_patterns] is called when
    [can_merge_patterns] allows it.  If v lies in no live pattern,
    [add_variable_to_pattern] is called when [can_add_variable_to_pattern]
    allows it.  In the cases that remain [blacklist_var] is called. *)
Lemma refine_branches flaws c :
  lookup_consistent c →
  Forall (flaw_well_formed c) flaws →
  draws_below_bound (rng c) →
  Z.of_nat (length flaws) <= INT_MAX →
  flaws ≠ [] →
  let draw := rng_random (rng c) (static_cast_int (length flaws)) in
  let c0 := set_rng draw.2 c in
  ∃ k v,
    0 <= draw.1
    ∧ flaws !! Z.to_nat draw.1 = Some {| solution_index := k; variable := v |}
    ∧ (∀ m em, live_entry c m em → v ∈ get_pattern em →
         m ≠ k
         ∧ ∃ b, can_merge_patterns opts k m c0 = Returns b
           ∧ if b then
               ∃ c', merge_patterns opts task k m c0 = Returns c'
                     ∧ refine opts task flaws c = Returns c'
             else refine opts task flaws c = Returns (blacklist_var v c0))
    ∧ (¬ in_live_pattern c v →
         ∃ b, can_add_variable_to_pattern opts task k v c0 = Returns b
           ∧ if b then
               ∃ c', add_variable_to_pattern opts task k v c0 = Returns c'
                     ∧ refine opts task flaws c = Returns c'
             else refine opts task flaws c = Returns (blacklist_var v c0)).
Proof.
  intros Hinv Hwf Hrng Hlen Hne. cbv zeta.
  assert (0 < Z.of_nat (length flaws)) as Hpos.
  { destruct flaws; [done | simpl; lia]. }
  pose proof (Hrng (static_cast_int (length flaws))) as Hdraw.
  rewrite static_cast_int_small in Hdraw by done.
  specialize (Hdraw Hpos).
  rewrite <- (static_cast_int_small (length flaws)) in Hdraw at 1 2 by done.
  assert (refine opts task flaws c =
            let draw := rng_random (rng c) (static_cast_int (length flaws)) in
            flaw ← flaw_at flaws draw.1; handle_flaw opts task flaw (set_rng draw.2 c))
    as Href.
  { unfold refine. rewrite assert_true by (by apply negb_true_iff, bool_decide_eq_false_2).
    simpl. by destruct (rng_random _ _). }
  destruct (rng_random (rng c) (static_cast_int (length flaws))) as [i r]. simpl in *.
  destruct (lookup_lt_is_Some_2 flaws (Z.to_nat i)) as [[k v] Hflaw]; [lia|].
  exists k, v. split; [lia|]. split; [done|].
  unfold flaw_at in Href. destruct (Z.ltb_spec i 0); [lia|].
  rewrite Hflaw in Href. simpl in Href.
  pose proof (proj1 (Forall_lookup _ _) Hwf _ _ Hflaw) as (ek & Hk & Hnotin).
  simpl in Hk, Hnotin.
  destruct (handle_flaw_cases (set_rng r c) k v ek Hinv Hk Hnotin) as [Hmerge Hextend].
  split.
  - intros m em Hm Hin. destruct (Hmerge m em Hm Hin) as (Hmk & b & Hb & _ & Hdone).
    split; [done|]. exists b. split; [done|]. by rewrite Href.
  - intros Hnot. destruct (Hextend Hnot) as (b & Hb & _ & Hdone).
    exists b. split; [done|]. by rewrite Href.
Qed.

(** C5, as the code has it.  When [handle_flaw] falls through to the
    blacklist, one of two things is the case.  Either v was unknown to the
    collection and the extension of entry k was refused: then v lies in no
    live pattern.  Or v lies in the pattern of the live entry m found in
    the lookup table and the merge of k and m was refused: then v is
    blacklisted while it lies in the live pattern of m. *)
Theorem fall_through_blacklists flaw c c1 :
  lookup_consistent c →
  try_add_var opts task flaw c = Returns (false, c1) →
  handle_flaw opts task flaw c = Returns (blacklist_var (variable flaw) c)
  ∧ ((solution_lookup c !! variable flaw = None
      ∧ ¬ in_live_pattern c (variable flaw)
      ∧ can_add_variable_to_pattern opts task (solution_index flaw) (variable flaw) c
        = Returns false)
     ∨ (∃ m em,
          solution_lookup c !! variable flaw = Some m
          ∧ live_entry c m em
          ∧ variable flaw ∈ get_pattern em
          ∧ can_merge_patterns opts (solution_index flaw) m c = Returns false)).
Proof.
  intros Hinv Htry.
  assert (c1 = c ∧
          ((solution_lookup c !! variable flaw = None
            ∧ can_add_variable_to_pattern opts task (solution_index flaw)
                (variable flaw) c = Returns false)
           ∨ (∃ m, solution_lookup c !! variable flaw = Some m
                ∧ can_merge_patterns opts (solution_index flaw) m c = Returns false)))
    as [-> Hcase].
  { unfold try_add_var in Htry.
    destruct (solution_lookup c !! variable flaw) as [m|] eqn:Hlk.
    - destruct (assert _); try done. simpl in Htry.
      destruct (assert_not_null c m); try done. simpl in Htry.
      destruct (can_merge_patterns opts (solution_index flaw) m c) as [[|]| | | | |] eqn:Hcan;
        try done; simpl in Htry.
      + destruct (merge_patterns _ _ _ _ _); cbn in Htry;
          unfold mret, Outcome_ret in Htry; congruence.
      + unfold mret, Outcome_ret in Htry. split; [congruence|]. right. by exists m.
    - destruct (can_add_variable_to_pattern opts task (solution_index flaw)
                  (variable flaw) c) as [[|]| | | | |] eqn:Hcan;
        try done; simpl in Htry.
      + destruct (add_variable_to_pattern _ _ _ _ _); cbn in Htry;
          unfold mret, Outcome_ret in Htry; congruence.
      + unfold mret, Outcome_ret in Htry. split; [congruence|]. by left. }
  split.
  - unfold handle_flaw. by rewrite Htry.
  - destruct Hcase as [[Hlk Hcan]|(m & Hlk & Hcan)].
    + left. split; [done|]. split; [|done]. by apply lookup_None_iff.
    + right. apply Hinv in Hlk as Hlive. destruct Hlive as (em & Hm & Hin).
      by exists m, em.
Qed.

(** ** Flaw extraction over the collection *)

(** The projection of a plan that does not solve the concrete task
    returns, and leaves [concrete_solution_index], the blacklist and the
    other slots alone. *)
Lemma apply_wildcard_plan_not_solving index c e :
  solution_at c index = Returns e →
  ¬ solves_concrete_task task (global_blacklist c) index e →
  ∃ flaws c',
    apply_wildcard_plan opts task index (get_initial_state task) c = Returns (flaws, c')
    ∧ concrete_solution_index c' = concrete_solution_index c
    ∧ global_blacklist c' = global_blacklist c
    ∧ ∀ j, j ≠ Z.to_nat index → solutions c' !! j = solutions c !! j.
Proof.
  intros Hsol Hnot. unfold apply_wildcard_plan, solves_concrete_task in *.
  rewrite Hsol. simpl.
  destruct (execute_plan _ _ _ _ _ _ _) as [fl s]. simpl in Hnot.
  unfold mret, Outcome_ret, conclude_plan.
  assert (∀ c1 j, j ≠ Z.to_nat index →
            solutions (mark_solved_at index e c1) !! j = solutions c1 !! j) as Hmark.
  { intros c1 j Hj. unfold mark_solved_at, store_solution. simpl.
    by rewrite list_lookup_insert_ne. }
  case_bool_decide as Hfl; [|by eauto 10].
  destruct (is_goal_state task s) eqn:Hgoal.
  - case_bool_decide as Hbl; [by destruct Hnot|].
    eexists _, _. split; [done|]. split; [done|]. split; [done|]. apply Hmark.
  - destruct (negb (ignore_goal_violations opts)); [by eauto 10|].
    eexists _, _. split; [done|]. split; [done|]. split; [done|]. apply Hmark.
Qed.

Lemma get_flaws_loop_exit_app l1 l2 flaws c code :
  get_flaws_loop opts task l1 flaws c = ExitWith code →
  get_flaws_loop opts task (l1 ++ l2) flaws c = ExitWith code.
Proof.
  revert flaws c. induction l1 as [|i l1 IH]; intros flaws c Hrun; simpl in *; [done|].
  destruct (solutions c !! i) as [[e|]|]; try done; [|by apply IH].
  destruct (is_solved e); [by apply IH|].
  destruct (negb (solution_exists e)); [done|].
  destruct (apply_wildcard_plan _ _ _ _ _) as [[fl c1]| | | | |]; try done.
  simpl in *. destruct (negb (concrete_solution_index c1 =? -1)).
  - destruct (assert (concrete_solution_index c1 =? static_cast_int i));
      simpl in *; try done.
  - by apply IH.
Qed.

(** A pass that comes across a live, unsolved entry without a solution
    exits, provided no entry before it solves the concrete task. *)
Lemma get_flaws_loop_exits l flaws c i e :
  concrete_solution_index c = -1 →
  i ∈ l → NoDup l →
  (∀ j, j ∈ l → Z.of_nat j <= INT_MAX ∧ is_Some (solutions c !! j)) →
  solutions c !! i = Some (Some e) → is_solved e = false → solution_exists e = false →
  (∀ j ej, j ∈ l → solutions c !! j = Some (Some ej) →
     is_solved ej = false → solution_exists ej = true →
     ¬ solves_concrete_task task (global_blacklist c) (static_cast_int j) ej) →
  get_flaws_loop opts task l flaws c = ExitWith SEARCH_UNSOLVABLE.
Proof.
  revert flaws c.
  induction l as [|j l IH]; intros flaws c Hidx Hin Hnodup Hrange Hslot Hsolved Hexists Hnot.
  { by apply not_elem_of_nil in Hin. }
  apply NoDup_cons in Hnodup as [Hj Hnodup]. simpl.
  destruct (Hrange j ltac:(by apply elem_of_cons; left)) as [Hjmax [slot Hjslot]].
  rewrite Hjslot.
  assert (j ≠ i → i ∈ l) as Hlater.
  { intros Hji. apply elem_of_cons in Hin as [->|Hin]; done. }
  destruct slot as [ej|].
  - destruct (is_solved ej) eqn:Hjsolved.
    + apply IH; try done.
      * apply Hlater. intros ->. congruence.
      * intros j' Hj'. apply Hrange. by apply elem_of_cons; right.
      * intros j' ej' Hj'. apply Hnot. by apply elem_of_cons; right.
    + destruct (solution_exists ej) eqn:Hjexists; simpl; [|done].
      assert (j ≠ i) as Hji by (intros ->; congruence).
      assert (live_entry c (static_cast_int j) ej) as Hlive.
      { rewrite static_cast_int_small by done. split; [lia|]. by rewrite Nat2Z.id. }
      destruct (apply_wildcard_plan_not_solving (static_cast_int j) c ej)
        as (fl & c1 & Happly & Hidx1 & Hbl1 & Hslots1).
      { by apply solution_at_live. }
      { apply Hnot; try done. by apply elem_of_cons; left. }
      rewrite Happly. simpl. rewrite Hidx1, Hidx. simpl.
      assert (∀ j', j' ∈ l → solutions c1 !! j' = solutions c !! j') as Hsame.
      { intros j' Hj'. apply Hslots1. rewrite static_cast_int_small by done.
        rewrite Nat2Z.id. by intros ->. }
      apply IH; try done.
      * congruence.
      * by apply Hlater.
      * intros j' Hj'. rewrite (Hsame j' Hj'). apply Hrange. by apply elem_of_cons; right.
      * rewrite Hsame; [done|]. by apply Hlater.
      * intros j' ej' Hj' Hslot'. rewrite Hbl1. rewrite (Hsame j' Hj') in Hslot'.
        apply Hnot; [|done]. by apply elem_of_cons; right.
  - apply IH; try done.
    + apply Hlater. intros ->. congruence.
    + intros j' Hj'. apply Hrange. by apply elem_of_cons; right.
    + intros j' ej' Hj'. apply Hnot. by apply elem_of_cons; right.
Qed.

(** C6.  Flaw extraction goes through the entries in the order of their
    indices and skips null and solved entries.  If a live, unsolved entry
    reports [solution_exists() = false] (and no entry before it has a plan
    that solves the concrete task, which would end the pass), flaw
    extraction ends in [exit_with(SEARCH_UNSOLVABLE)], whatever flaws were
    collected before: no flaw list comes back, and the main loop, hence the
    driver, ends in the same exit without returning a collection. *)
Theorem unsolvable_entry_exits c i e :
  solutions c !! i = Some (Some e) →
  is_solved e = false →
  solution_exists e = false →
  Z.of_nat i <= INT_MAX →
  concrete_solution_index c = -1 →
  (∀ j ej, (j < i)%nat → solutions c !! j = Some (Some ej) →
     is_solved ej = false → solution_exists ej = true →
     ¬ solves_concrete_task task (global_blacklist c) (static_cast_int j) ej) →
  get_flaws opts task c = ExitWith SEARCH_UNSOLVABLE
  ∧ ∀ fuel ticks counter,
      is_expired ticks = false →
      counter ≠ max_refinements opts →
      main_loop opts task (S fuel) ticks counter c = ExitWith SEARCH_UNSOLVABLE.
Proof.
  intros Hslot Hsolved Hexists Hi Hidx Hbefore.
  assert (get_flaws opts task c = ExitWith SEARCH_UNSOLVABLE) as Hflaws.
  { unfold get_flaws.
    assert (i < length (solutions c))%nat as Hlt by (by eapply lookup_lt_Some).
    replace (length (solutions c)) with (S i + (length (solutions c) - S i))%nat by lia.
    rewrite seq_app. apply get_flaws_loop_exit_app.
    apply (get_flaws_loop_exits _ _ _ i e); try done.
    - apply list_elem_of_In, in_seq. lia.
    - apply NoDup_ListNoDup, seq_NoDup.
    - intros j Hj. apply list_elem_of_In, in_seq in Hj. split; [lia|].
      apply lookup_lt_is_Some_2. lia.
    - intros j ej Hj Hjslot Hjsolved Hjexists.
      apply list_elem_of_In, in_seq in Hj.
      apply Hbefore; try done.
      destruct (decide (j = i)) as [->|Hji]; [congruence | lia]. }
  split; [done|].
  intros fuel ticks counter Htime Hcount. simpl.
  rewrite Htime. destruct (Z.eqb_spec counter (max_refinements opts)); [done|].
  by rewrite Hflaws.
Qed.

(** ** Exit codes *)

Lemma exits_only_ret {A} P (a : A) : exits_only P (mret a : Outcome A).
Proof. intros code Heq. inversion Heq. Qed.

Lemma exits_only_Returns {A} P (a : A) : exits_only P (Returns a).
Proof. intros code Heq. inversion Heq. Qed.

Lemma exits_only_bind {A B} P (m : Outcome A) (f : A → Outcome B) :
  exits_only P m → (∀ a, exits_only P (f a)) → exits_only P (m ≫= f).
Proof.
  intros Hm Hf code. destruct m; simpl; try done.
  - apply Hf.
  - intros [= ->]. by apply Hm.
Qed.

Lemma exits_only_assert P b : exits_only P (assert b).
Proof. unfold assert. by destruct (NDEBUG || b). Qed.

Lemma exits_only_solution_at P c i : exits_only P (solution_at c i).
Proof. unfold solution_at. by repeat case_match. Qed.

Lemma exits_only_other {A} P : exits_only P (AssertionFailed : Outcome A)
  ∧ exits_only P (UndefinedBehaviour : Outcome A)
  ∧ exits_only P (OutOfFuel : Outcome A)
  ∧ exits_only P (LengthError : Outcome A).
Proof. by repeat split. Qed.

Ltac exits_step :=
  first
    [ apply exits_only_ret
    | apply exits_only_Returns
    | apply exits_only_assert
    | apply exits_only_solution_at
    | apply exits_only_other
    | apply exits_only_bind; [|intros]
    | progress case_match ].

Lemma exits_only_apply_wildcard_plan P index init c :
  exits_only P (apply_wildcard_plan opts task index init c).
Proof. unfold apply_wildcard_plan. repeat exits_step. Qed.

Lemma exits_only_get_flaws_loop l flaws c :
  exits_only (fun code => code = SEARCH_UNSOLVABLE) (get_flaws_loop opts task l flaws c).
Proof.
  revert flaws c. induction l as [|i l IH]; intros flaws c; simpl.
  - apply exits_only_ret.
  - destruct (solutions c !! i) as [[e|]|]; [|apply IH|apply exits_only_other].
    destruct (is_solved e); [apply IH|].
    destruct (negb (solution_exists e)); [by intros code [= <-]|].
    apply exits_only_bind; [apply exits_only_apply_wildcard_plan|].
    intros [fl c1]. destruct (negb _); [repeat exits_step | apply IH].
Qed.

Lemma exits_only_can_merge_patterns P i1 i2 c :
  exits_only P (can_merge_patterns opts i1 i2 c).
Proof. unfold can_merge_patterns. repeat exits_step. Qed.

Lemma exits_only_merge_patterns P i1 i2 c :
  exits_only P (merge_patterns opts task i1 i2 c).
Proof. unfold merge_patterns. repeat exits_step. Qed.

Lemma exits_only_can_add_variable_to_pattern P i v c :
  exits_only P (can_add_variable_to_pattern opts task i v c).
Proof. unfold can_add_variable_to_pattern. repeat exits_step. Qed.

Lemma exits_only_add_variable_to_pattern P i v c :
  exits_only P (add_variable_to_pattern opts task i v c).
Proof. unfold add_variable_to_pattern. repeat exits_step. Qed.

Lemma exits_only_handle_flaw P flaw c :
  exits_only P (handle_flaw opts task flaw c).
Proof.
  unfold handle_flaw, try_add_var, assert_not_null.
  repeat first
    [ apply exits_only_can_merge_patterns
    | apply exits_only_merge_patterns
    | apply exits_only_can_add_variable_to_pattern
    | apply exits_only_add_variable_to_pattern
    | exits_step ].
Qed.

Lemma exits_only_refine P flaws c :
  exits_only P (refine opts task flaws c).
Proof.
  unfold refine, flaw_at.
  repeat first [ apply exits_only_handle_flaw | exits_step ].
Qed.

Lemma exits_only_main_loop fuel ticks counter c :
  exits_only (fun code => code = SEARCH_UNSOLVABLE)
    (main_loop opts task fuel ticks counter c).
Proof.
  revert ticks counter c.
  induction fuel as [|fuel IH]; intros ticks counter c; simpl.
  - apply exits_only_other.
  - destruct (is_expired ticks); [apply exits_only_ret|].
    destruct (counter =? max_refinements opts); [apply exits_only_ret|].
    apply exits_only_bind; [apply exits_only_get_flaws_loop|].
    intros [fl c1]. destruct (bool_decide (fl = [])); [repeat exits_step|].
    destruct (is_expired (S ticks)); [apply exits_only_ret|].
    apply exits_only_bind; [apply exits_only_refine | intros; apply IH].
Qed.

Lemma exits_only_seeding P c :
  exits_only P (generate_trivial_solution_collection opts task c).
Proof. unfold generate_trivial_solution_collection. repeat exits_step. Qed.

Lemma exits_only_collect_output P c : exits_only P (collect_output c).
Proof. unfold collect_output. repeat exits_step. Qed.

Lemma exits_only_blacklist_nongoals P c :
  exits_only P (blacklist_nongoals opts task c).
Proof.
  unfold blacklist_nongoals, reserve. cbv zeta.
  destruct (vector_int_max_size <? _); simpl; [by intros code Hcode|].
  destruct (rng_shuffle _ _). apply exits_only_ret.
Qed.

(** C7, as the code has it.  The validation at the entry of [generate]
    looks at [given_goal] only, never at [initial].  If [given_goal] is not
    -1, the driver exits with [SEARCH_INPUT_ERROR] iff [given_goal] is at
    least the number of variables or is not the variable of a goal.  If
    [given_goal] is -1 and [initial] is not [GIVEN_GOAL], the driver never
    exits with [SEARCH_INPUT_ERROR]. *)
Theorem input_error_depends_on_given_goal fuel c :
  (given_goal opts ≠ -1 →
   (generate opts task fuel c = ExitWith SEARCH_INPUT_ERROR ↔
    static_cast_int (get_variables_size task) <= given_goal opts
    ∨ given_goal opts ∉ map fact_var (get_goals task)))
  ∧ (given_goal opts = -1 → initial opts ≠ GIVEN_GOAL →
     generate opts task fuel c ≠ ExitWith SEARCH_INPUT_ERROR).
Proof.
  assert (∀ c2,
            (c3 ← (if negb (global_blacklist_size opts =? 0)
                   then blacklist_nongoals opts task c2 else mret c2);
             c4 ← generate_trivial_solution_collection opts task c3;
             c5 ← main_loop opts task fuel 0 0 c4;
             collect_output c5) ≠ ExitWith SEARCH_INPUT_ERROR) as Hrest.
  { intros c2 Heq.
    assert (SEARCH_INPUT_ERROR = SEARCH_UNSOLVABLE) as Hcode; [|done].
    revert Heq. generalize SEARCH_INPUT_ERROR.
    change (exits_only (fun code => code = SEARCH_UNSOLVABLE)
              (c3 ← (if negb (global_blacklist_size opts =? 0)
                     then blacklist_nongoals opts task c2 else mret c2);
               c4 ← generate_trivial_solution_collection opts task c3;
               c5 ← main_loop opts task fuel 0 0 c4;
               collect_output c5)).
    apply exits_only_bind.
    { destruct (negb _); [apply exits_only_blacklist_nongoals | apply exits_only_ret]. }
    intros c3.
    apply exits_only_bind; [apply exits_only_seeding|]. intros c4.
    apply exits_only_bind; [apply exits_only_main_loop|]. intros c5.
    apply exits_only_collect_output. }
  unfold generate. cbv zeta.
  set (found := existsb _ (map fact_var (get_goals task))).
  assert (found = true
          ↔ given_goal opts ≠ -1 ∧ given_goal opts ∈ map fact_var (get_goals task))
    as Hfound.
  { subst found. rewrite existsb_exists. split.
    - intros (g & Hin & Hg). apply andb_true_iff in Hg as [Hne Heq].
      apply negb_true_iff, Z.eqb_neq in Hne. apply Z.eqb_eq in Heq. subst g.
      split; [done|]. by apply list_elem_of_In.
    - intros [Hne Hin]. exists (given_goal opts). split; [by apply list_elem_of_In|].
      apply andb_true_iff. split; [by apply negb_true_iff, Z.eqb_neq | by apply Z.eqb_eq]. }
  clearbody found.
  split.
  - intros Hgiven.
    rewrite (proj2 (Z.eqb_neq _ _) Hgiven). cbn [negb andb].
    destruct (Z.leb_spec (static_cast_int (get_variables_size task)) (given_goal opts))
      as [Hrange|Hrange].
    { split; [by left | done]. }
    destruct found; cbn [negb].
    + destruct (proj1 Hfound eq_refl) as [_ Hin].
      destruct (rng_shuffle _ _) as [shuffled r]. split.
      * intros Heq. exfalso. by eapply Hrest.
      * intros [Hbad|Hbad]; [lia | done].
    + split; [|done]. intros _. right. intros Hin.
      assert (false = true) as Hyes by (by apply Hfound). done.
  - intros Hgiven _. rewrite Hgiven. cbn [Z.eqb negb andb].
    destruct (rng_shuffle _ _) as [shuffled r]. apply Hrest.
Qed.

(** ** The size tests *)

(** The overflow-checked comparison decides the comparison of the exact
    product with the limit. *)
Lemma is_product_within_limit_spec factor1 factor2 limit :
  0 <= factor1 → 0 <= factor2 → 0 <= limit →
  is_product_within_limit factor1 factor2 limit = true ↔ factor1 * factor2 <= limit.
Proof.
  intros H1 H2 Hl. unfold is_product_within_limit.
  destruct (Z.eqb_spec factor2 0) as [->|Hne]; simpl.
  - split; [lia | done].
  - rewrite Z.quot_div_nonneg by lia. rewrite Z.leb_le.
    pose proof (Z.div_mod limit factor2 Hne) as Hdm.
    pose proof (Z.mod_pos_bound limit factor2 ltac:(lia)) as Hmod.
    split; intros Hle; nia.
Qed.

(** As long as the new collection size does not leave the range of [int],
    [can_merge_patterns] is the test of the specification. *)
Lemma can_merge_patterns_exact c i1 i2 e1 e2 :
  live_entry c i1 e1 → live_entry c i2 e2 →
  0 <= get_pdb_size e1 <= INT_MAX → 0 <= get_pdb_size e2 <= INT_MAX →
  0 <= max_pdb_size opts <= INT_MAX →
  in_int_range (collection_size c + get_pdb_size e1 * get_pdb_size e2
                - get_pdb_size e1 - get_pdb_size e2) →
  can_merge_patterns opts i1 i2 c =
    Returns
      (bool_decide
         (get_pdb_size e1 * get_pdb_size e2 <= max_pdb_size opts
          ∧ collection_size c + get_pdb_size e1 * get_pdb_size e2
            - get_pdb_size e1 - get_pdb_size e2 <= max_collection_size opts)).
Proof.
  intros Hl1 Hl2 Hs1 Hs2 Hmax Hsum. unfold can_merge_patterns.
  rewrite (solution_at_live _ _ _ Hl1), (solution_at_live _ _ _ Hl2). simpl.
  pose proof (is_product_within_limit_spec (get_pdb_size e1) (get_pdb_size e2)
                (max_pdb_size opts) ltac:(lia) ltac:(lia) ltac:(lia)) as Hprod.
  destruct (is_product_within_limit _ _ _); simpl.
  - assert (get_pdb_size e1 * get_pdb_size e2 <= max_pdb_size opts) as Hle
      by (by apply Hprod).
    unfold mret, Outcome_ret. f_equal.
    unfold int_add, int_sub, int_mul.
    unfold in_int_range, INT_MIN, INT_MAX in *.
    rewrite (wrap_int_in_range (_ * _))
      by (unfold in_int_range, INT_MIN, INT_MAX; nia).
    rewrite (wrap_int_in_range (_ * _ - _))
      by (unfold in_int_range, INT_MIN, INT_MAX; nia).
    rewrite (wrap_int_in_range (_ * _ - _ - _))
      by (unfold in_int_range, INT_MIN, INT_MAX; nia).
    rewrite wrap_int_in_range
      by (unfold in_int_range, INT_MIN, INT_MAX; lia).
    match goal with |- (?a <=? ?b) = _ => destruct (Z.leb_spec a b) end; symmetry;
      [apply bool_decide_eq_true_2 | apply bool_decide_eq_false_2]; lia.
  - unfold mret, Outcome_ret. f_equal. symmetry. apply bool_decide_eq_false_2.
    intros [Hle _]. apply Hprod in Hle. done.
Qed.

Lemma can_add_variable_to_pattern_exact c index e var :
  live_entry c index e →
  0 <= get_pdb_size e <= INT_MAX → 0 <= get_domain_size task var <= INT_MAX →
  0 <= max_pdb_size opts <= INT_MAX →
  in_int_range (collection_size c
                + get_pdb_size e * (get_domain_size task var - 1)) →
  can_add_variable_to_pattern opts task index var c =
    Returns
      (bool_decide
         (get_pdb_size e * get_domain_size task var <= max_pdb_size opts
          ∧ collection_size c + get_pdb_size e * (get_domain_size task var - 1)
            <= max_collection_size opts)).
Proof.
  intros Hl Hs Hd Hmax Hsum. unfold can_add_variable_to_pattern.
  rewrite (solution_at_live _ _ _ Hl). simpl.
  pose proof (is_product_within_limit_spec (get_pdb_size e) (get_domain_size task var)
                (max_pdb_size opts) ltac:(lia) ltac:(lia) ltac:(lia)) as Hprod.
  destruct (is_product_within_limit _ _ _); simpl.
  - assert (get_pdb_size e * get_domain_size task var <= max_pdb_size opts) as Hle
      by (by apply Hprod).
    unfold mret, Outcome_ret. f_equal.
    unfold int_add, int_sub, int_mul.
    unfold in_int_range, INT_MIN, INT_MAX in *.
    rewrite (wrap_int_in_range (_ * _))
      by (unfold in_int_range, INT_MIN, INT_MAX; nia).
    rewrite (wrap_int_in_range (_ * _ - _))
      by (unfold in_int_range, INT_MIN, INT_MAX; nia).
    rewrite wrap_int_in_range
      by (unfold in_int_range, INT_MIN, INT_MAX; lia).
    match goal with |- (?a <=? ?b) = _ => destruct (Z.leb_spec a b) end; symmetry;
      [apply bool_decide_eq_true_2 | apply bool_decide_eq_false_2]; lia.
  - unfold mret, Outcome_ret. f_equal. symmetry. apply bool_decide_eq_false_2.
    intros [Hle _]. apply Hprod in Hle. done.
Qed.

(** ** Seeding *)

(** [add_pattern_for_var] on its own appends the entry that the
    constructor of [AbstractSolutionData] builds for the pattern [{var}],
    points [solution_lookup[var]] to the index of the new entry, and adds
    the size of its PDB to [collection_size].  It leaves [remaining_goals]
    as it is: the callers take [var] out of it before the call. *)
Lemma add_pattern_for_var_fields_all var c :
  let built := make_solution task [var] (rng c) (wildcard_plans opts) in
  let c' := add_pattern_for_var opts task var c in
  solutions c' = solutions c ++ [Some built.1]
  ∧ solution_lookup c' =
      <[var := static_cast_int (length (solutions c))]> (solution_lookup c)
  ∧ collection_size c' = int_add (collection_size c) (get_pdb_size built.1)
  ∧ remaining_goals c' = remaining_goals c
  ∧ global_blacklist c' = global_blacklist c
  ∧ concrete_solution_index c' = concrete_solution_index c
  ∧ rng c' = built.2.
Proof.
  cbv zeta. unfold add_pattern_for_var.
  destruct (make_solution task [var] (rng c) (wildcard_plans opts)) as [e r]. simpl.
  repeat split. unfold static_cast_int. rewrite length_app. simpl.
  do 2 f_equal. lia.
Qed.

Lemma add_pattern_for_var_remaining_goals var c :
  remaining_goals (add_pattern_for_var opts task var c) = remaining_goals c.
Proof.
  unfold add_pattern_for_var. by destruct (make_solution _ _ _ _).
Qed.

Lemma pop_back_length l rest x :
  pop_back l = Some (rest, x) → length l = S (length rest).
Proof.
  unfold pop_back. destruct (last l) as [y|] eqn:Hlast; [|done].
  intros [= <- <-]. destruct l as [|z l]; [done|].
  rewrite removelast_firstn_len, length_take. simpl. lia.
Qed.

Lemma pop_back_None l : pop_back l = None → l = [].
Proof.
  unfold pop_back. destruct (last l) eqn:Hlast; [done|].
  intros _. by apply last_None in Hlast.
Qed.

(** The loop of [ALL_GOALS] empties [remaining_goals]. *)
Lemma seed_all_goals_remaining_goals fuel c :
  (length (remaining_goals c) <= fuel)%nat →
  remaining_goals (seed_all_goals opts task fuel c) = [].
Proof.
  revert c. induction fuel as [|fuel IH]; intros c Hlen; simpl.
  - destruct (remaining_goals c); [done | simpl in Hlen; lia].
  - destruct (pop_back (remaining_goals c)) as [[rest var]|] eqn:Hpop.
    + apply IH. rewrite add_pattern_for_var_remaining_goals. simpl.
      apply pop_back_length in Hpop. lia.
    + by apply pop_back_None.
Qed.

(** ** Goal-violation flaws when no goal remains *)

Lemma apply_wildcard_plan_remaining_goals index init c flaws c' :
  apply_wildcard_plan opts task index init c = Returns (flaws, c') →
  remaining_goals c' = remaining_goals c.
Proof.
  unfold apply_wildcard_plan. destruct (solution_at c index) as [e| | | | |]; try done.
  simpl. destruct (execute_plan _ _ _ _ _ _ _) as [fl s].
  unfold mret, Outcome_ret, conclude_plan. intros Hret.
  repeat case_match; by inversion Hret.
Qed.

Lemma get_flaws_loop_remaining_goals l flaws c flaws' c' :
  get_flaws_loop opts task l flaws c = Returns (flaws', c') →
  remaining_goals c' = remaining_goals c.
Proof.
  revert flaws c. induction l as [|i l IH]; intros flaws c Hrun; simpl in Hrun.
  - unfold mret, Outcome_ret in Hrun. by inversion Hrun.
  - destruct (solutions c !! i) as [[e|]|]; try done; [|by eapply IH].
    destruct (is_solved e); [by eapply IH|].
    destruct (negb (solution_exists e)); [done|].
    destruct (apply_wildcard_plan _ _ _ _ _) as [[fl c1]| | | | |] eqn:Happly; try done.
    apply apply_wildcard_plan_remaining_goals in Happly.
    simpl in Hrun. destruct (negb (concrete_solution_index c1 =? -1)).
    + destruct (assert (concrete_solution_index c1 =? static_cast_int i));
        simpl in *; try done.
      destruct (assert (bool_decide (fl = []))); simpl in *; try done.
      unfold mret, Outcome_ret in Hrun. inversion Hrun; subst. done.
    + rewrite <- Happly. by eapply IH.
Qed.

Lemma erase_first_nil x : erase_first x [] = [].
Proof. reflexivity. Qed.

(** A refinement never puts a variable back among the remaining goals. *)
Lemma handle_flaw_no_remaining_goals flaw c c' :
  handle_flaw opts task flaw c = Returns c' →
  remaining_goals c = [] → remaining_goals c' = [].
Proof.
  unfold handle_flaw, try_add_var. intros Hret Hnil.
  destruct (solution_lookup c !! variable flaw) as [m|].
  - destruct (assert _); simpl in Hret; try done.
    destruct (assert_not_null c m); simpl in Hret; try done.
    destruct (can_merge_patterns _ _ _ _) as [[|]| | | | |]; simpl in Hret; try done.
    + unfold merge_patterns in Hret.
      destruct (solution_at c (solution_index flaw)); simpl in Hret; try done.
      destruct (solution_at c m); simpl in Hret; try done.
      destruct (make_solution _ _ _ _). simpl in Hret.
      unfold mret, Outcome_ret in Hret. by inversion Hret.
    + unfold mret, Outcome_ret in Hret. by inversion Hret.
  - destruct (can_add_variable_to_pattern _ _ _ _ _) as [[|]| | | | |];
      simpl in Hret; try done.
    + unfold add_variable_to_pattern in Hret.
      destruct (solution_at c (solution_index flaw)); simpl in Hret; try done.
      destruct (make_solution _ _ _ _). simpl in Hret.
      unfold mret, Outcome_ret in Hret. inversion Hret. simpl. by rewrite Hnil.
    + unfold mret, Outcome_ret in Hret. by inversion Hret.
Qed.

Lemma refine_no_remaining_goals flaws c c' :
  refine opts task flaws c = Returns c' →
  remaining_goals c = [] → remaining_goals c' = [].
Proof.
  unfold refine. intros Hret Hnil.
  destruct (assert _); simpl in Hret; try done.
  destruct (rng_random _ _) as [i r].
  destruct (flaw_at flaws i); simpl in Hret; try done.
  by eapply handle_flaw_no_remaining_goals.
Qed.

Lemma reachable_no_remaining_goals c0 c :
  reachable_from opts task c0 c →
  remaining_goals c0 = [] → remaining_goals c = [].
Proof.
  induction 1 as [|c flaws c' _ IH Hflaws|c flaws c' _ IH Href]; intros Hnil.
  - done.
  - unfold get_flaws in Hflaws.
    rewrite (get_flaws_loop_remaining_goals _ _ _ _ _ Hflaws). by apply IH.
  - eapply refine_no_remaining_goals; [done | by apply IH].
Qed.

(** The states of the main loop are reachable in the sense of
    [reachable_from]. *)
Lemma main_loop_reachable fuel ticks counter c0 c c' :
  reachable_from opts task c0 c →
  main_loop opts task fuel ticks counter c = Returns c' →
  reachable_from opts task c0 c'.
Proof.
  revert ticks counter c.
  induction fuel as [|fuel IH]; intros ticks counter c Hreach Hrun; simpl in Hrun; [done|].
  destruct (is_expired ticks); [by inversion Hrun; subst|].
  destruct (counter =? max_refinements opts); [by inversion Hrun; subst|].
  destruct (get_flaws opts task c) as [[fl c1]| | | | |] eqn:Hflaws; try done.
  simpl in Hrun.
  assert (reachable_from opts task c0 c1) as Hc1 by (by eapply reachable_get_flaws).
  destruct (bool_decide (fl = [])).
  - destruct (negb _); simpl in Hrun.
    + destruct (assert _); simpl in Hrun; try done. by inversion Hrun; subst.
    + by inversion Hrun; subst.
  - destruct (is_expired (S ticks)); [by inversion Hrun; subst|].
    destruct (refine opts task fl c1) as [c2| | | | |] eqn:Href; try done.
    simpl in Hrun. eapply IH; [|done]. by eapply reachable_refine.
Qed.

(** With no goal among the remaining goals, what the goal loop adds to the
    flaw list is nothing. *)
Lemma collect_goal_flaws_no_remaining_goals c index s goals flaws :
  remaining_goals c = [] →
  collect_goal_flaws c index s goals flaws = flaws.
Proof.
  intros Hnil. rewrite collect_goal_flaws_spec.
  assert (filter (open_goal_violation c s) goals = []) as ->.
  { induction goals as [|g goals IH]; [done|].
    rewrite filter_cons, decide_False; [done|].
    intros (_ & _ & Hin). rewrite Hnil in Hin. by apply not_elem_of_nil in Hin. }
  apply app_nil_r.
Qed.

(** C10, as the code has it.  With [initial = ALL_GOALS], seeding leaves
    [remaining_goals] empty, and it is empty in every state the main loop
    reaches afterwards.  In every such state the flaws that the projection
    of a plan returns are the precondition flaws of the plan loop and
    nothing else, so no goal-violation flaw is emitted; and when goal
    violations are not ignored, a plan that ends without flaws outside the
    goal leaves the collection as it is, so the entry is not marked as
    solved. *)
Theorem all_goals_seed_rules_out_goal_flaws c_in c0 c :
  initial opts = ALL_GOALS →
  generate_trivial_solution_collection opts task c_in = Returns c0 →
  reachable_from opts task c0 c →
  remaining_goals c0 = []
  ∧ remaining_goals c = []
  ∧ ∀ index init solution,
      solution_at c index = Returns solution →
      ∃ c',
        apply_wildcard_plan opts task index init c =
          Returns
            ((execute_plan task (global_blacklist c) solution index
                (get_plan solution) [] init).1, c')
        ∧ (ignore_goal_violations opts = false →
           is_goal_state task
             (execute_plan task (global_blacklist c) solution index
                (get_plan solution) [] init).2 = false →
           c' = c).
Proof.
  intros Hall Hseed Hreach.
  assert (remaining_goals c0 = []) as Hnil0.
  { unfold generate_trivial_solution_collection in Hseed. rewrite Hall in Hseed.
    destruct (assert _); simpl in Hseed; try done.
    unfold mret, Outcome_ret in Hseed. inversion Hseed.
    by apply seed_all_goals_remaining_goals. }
  assert (remaining_goals c = []) as Hnil by (by eapply reachable_no_remaining_goals).
  split; [done|]. split; [done|].
  intros index init solution Hsol.
  unfold apply_wildcard_plan. rewrite Hsol. simpl.
  destruct (execute_plan _ _ _ _ _ _ _) as [fl s]. simpl.
  unfold mret, Outcome_ret, conclude_plan.
  case_bool_decide as Hfl; [|by eauto].
  destruct (is_goal_state task s).
  - case_bool_decide; eexists; (split; [done|]); done.
  - destruct (ignore_goal_violations opts); simpl.
    + eexists. split; [done|]. done.
    + rewrite collect_goal_flaws_no_remaining_goals by done. eauto.
Qed.

(** ** Invariant 2 is established by seeding and kept by every step *)

Lemma live_entry_lt c i e : live_entry c i e → (Z.to_nat i < length (solutions c))%nat.
Proof. intros [_ Hslot]. by eapply lookup_lt_Some. Qed.

Lemma lookup_consistent_add_pattern_for_var var c :
  constructor_keeps_pattern →
  lookup_consistent c →
  solution_lookup c !! var = None →
  Z.of_nat (length (solutions c)) <= INT_MAX →
  lookup_consistent (add_pattern_for_var opts task var c).
Proof.
  intros Hctor Hinv Hfresh Hlen v i.
  unfold add_pattern_for_var, live_entry.
  pose proof (Hctor task [var] (rng c) (wildcard_plans opts)) as Hpat.
  destruct (make_solution task [var] (rng c) (wildcard_plans opts)) as [e r].
  simpl in *. rewrite length_app. simpl.
  replace (Z.of_nat (length (solutions c) + 1) - 1) with (Z.of_nat (length (solutions c)))
    by lia.
  fold (static_cast_int (length (solutions c))). rewrite static_cast_int_small by done.
  rewrite lookup_insert. case_decide as Hvar.
  - subst v. split.
    + intros [= <-]. exists e. split; [split; [lia|]|].
      * rewrite Nat2Z.id. rewrite lookup_app_r by lia.
        by rewrite Nat.sub_diag.
      * rewrite Hpat. apply list_elem_of_In. simpl. tauto.
    + intros (e' & [Hpos Hslot] & Hin).
      destruct (decide (Z.to_nat i < length (solutions c))%nat) as [Hlt|Hge].
      * rewrite lookup_app_l in Hslot by done.
        assert (solution_lookup c !! var = Some i) as Hold
          by (apply Hinv; exists e'; by split).
        congruence.
      * rewrite lookup_app_r in Hslot by lia.
        destruct (Z.to_nat i - length (solutions c))%nat as [|n] eqn:Hdiff;
          [|by destruct n]. f_equal. lia.
  - split.
    + intros Hlk. apply Hinv in Hlk as (e' & [Hpos Hslot] & Hin).
      exists e'. split; [split; [done|]|done].
      rewrite lookup_app_l; [done|]. by eapply lookup_lt_Some.
    + intros (e' & [Hpos Hslot] & Hin).
      destruct (decide (Z.to_nat i < length (solutions c))%nat) as [Hlt|Hge].
      * rewrite lookup_app_l in Hslot by done.
        apply Hinv. exists e'. by split.
      * rewrite lookup_app_r in Hslot by lia.
        destruct (Z.to_nat i - length (solutions c))%nat as [|n] eqn:Hdiff;
          [|by destruct n].
        simpl in Hslot. injection Hslot as <-. rewrite Hpat in Hin.
        apply list_elem_of_In in Hin. simpl in Hin. intuition congruence.
Qed.

Lemma lookup_consistent_mark_solved_at index e c :
  live_entry c index e →
  lookup_consistent c →
  lookup_consistent (mark_solved_at index e c).
Proof.
  intros [Hpos Hslot] Hinv v i.
  assert (Z.to_nat index < length (solutions c))%nat as Hlt by (by eapply lookup_lt_Some).
  rewrite (Hinv v i). unfold live_entry, mark_solved_at, store_solution. simpl.
  destruct (decide (Z.to_nat i = Z.to_nat index)) as [Heq|Hne].
  - rewrite Heq, list_lookup_insert_eq by done. split.
    + intros (e' & [Hi Hslot'] & Hin). rewrite Hslot in Hslot'.
      injection Hslot' as <-. exists (mark_as_solved e). by repeat split.
    + intros (e' & [Hi Hslot'] & Hin). injection Hslot' as <-.
      exists e. by repeat split.
  - by rewrite list_lookup_insert_ne.
Qed.

Lemma lookup_consistent_apply_wildcard_plan index init c flaws c' :
  apply_wildcard_plan opts task index init c = Returns (flaws, c') →
  lookup_consistent c →
  lookup_consistent c'.
Proof.
  unfold apply_wildcard_plan.
  destruct (solution_at c index) as [e| | | | |] eqn:Hsol; try done.
  apply solution_at_returns in Hsol.
  simpl. destruct (execute_plan _ _ _ _ _ _ _) as [fl s].
  unfold mret, Outcome_ret, conclude_plan. intros Hret Hinv.
  repeat case_match; inversion Hret; subst;
    first [assumption | by apply lookup_consistent_mark_solved_at].
Qed.

Lemma lookup_consistent_get_flaws_loop l flaws c flaws' c' :
  get_flaws_loop opts task l flaws c = Returns (flaws', c') →
  lookup_consistent c →
  lookup_consistent c'.
Proof.
  revert flaws c. induction l as [|i l IH]; intros flaws c Hrun Hinv; simpl in Hrun.
  - unfold mret, Outcome_ret in Hrun. by inversion Hrun; subst.
  - destruct (solutions c !! i) as [[e|]|]; try done; [|by eapply IH].
    destruct (is_solved e); [by eapply IH|].
    destruct (negb (solution_exists e)); [done|].
    destruct (apply_wildcard_plan _ _ _ _ _) as [[fl c1]| | | | |] eqn:Happly; try done.
    apply lookup_consistent_apply_wildcard_plan in Happly; [|done].
    simpl in Hrun. destruct (negb (concrete_solution_index c1 =? -1)).
    + destruct (assert (concrete_solution_index c1 =? static_cast_int i));
        simpl in *; try done.
      destruct (assert (bool_decide (fl = []))); simpl in *; try done.
      unfold mret, Outcome_ret in Hrun. by inversion Hrun; subst.
    + by eapply IH.
Qed.

Lemma redirect_lookup_lookup pattern index m v :
  redirect_lookup pattern index m !! v =
    if bool_decide (v ∈ pattern) then Some index else m !! v.
Proof.
  unfold redirect_lookup. revert m.
  induction pattern as [|x pattern IH]; intros m.
  - reflexivity.
  - change (foldl (fun m' var => <[var := index]> m') m (x :: pattern))
      with (foldl (fun m' var => <[var := index]> m') (<[x := index]> m) pattern).
    rewrite IH. rewrite lookup_insert.
    destruct (decide (v ∈ pattern)) as [Hin|Hout].
    + rewrite !bool_decide_eq_true_2; [done | by apply elem_of_cons; right | done].
    + rewrite (bool_decide_eq_false_2 (v ∈ pattern)) by done.
      destruct (decide (x = v)) as [->|Hx].
      * rewrite bool_decide_eq_true_2; [done|]. by apply elem_of_cons; left.
      * rewrite bool_decide_eq_false_2; [done|].
        intros Hcons. apply elem_of_cons in Hcons as [->|?]; done.
Qed.

Lemma elem_of_sort_pattern v p : v ∈ sort_pattern p ↔ v ∈ p.
Proof. unfold sort_pattern. by rewrite merge_sort_Permutation. Qed.

Lemma lookup_consistent_merge_patterns k m ek em c c' :
  constructor_keeps_pattern →
  lookup_consistent c →
  live_entry c k ek → live_entry c m em → k ≠ m →
  merge_patterns opts task k m c = Returns c' →
  lookup_consistent c'.
Proof.
  intros Hctor Hinv Hk Hm Hkm. unfold merge_patterns.
  rewrite (solution_at_live _ _ _ Hk), (solution_at_live _ _ _ Hm). simpl.
  pose proof (Hctor task (sort_pattern (get_pattern ek ++ get_pattern em)) (rng c)
                (wildcard_plans opts)) as Hpat.
  destruct (make_solution _ _ _ _) as [merged r]. simpl in Hpat.
  unfold mret, Outcome_ret. intros [= <-].
  pose proof (live_entry_lt _ _ _ Hk) as Hklt.
  pose proof (live_entry_lt _ _ _ Hm) as Hmlt.
  destruct Hk as [Hkpos Hkslot], Hm as [Hmpos Hmslot].
  assert (∀ v, v ∈ get_pattern merged ↔ v ∈ get_pattern ek ∨ v ∈ get_pattern em)
    as Hmerged.
  { intros v. by rewrite Hpat, elem_of_sort_pattern, elem_of_app. }
  assert (∀ i, 0 <= i →
            <[Z.to_nat m := None]> (<[Z.to_nat k := Some merged]> (solutions c))
              !! Z.to_nat i =
            if decide (i = m) then Some None
            else if decide (i = k) then Some (Some merged)
                 else solutions c !! Z.to_nat i) as Hslots.
  { intros i Hi. destruct (decide (i = m)) as [->|Him].
    - by rewrite list_lookup_insert_eq by (by rewrite length_insert).
    - rewrite list_lookup_insert_ne by lia.
      destruct (decide (i = k)) as [->|Hik].
      + by rewrite list_lookup_insert_eq.
      + by rewrite list_lookup_insert_ne by lia. }
  intros v i. unfold live_entry, store_solution. simpl.
  rewrite redirect_lookup_lookup. split.
  - case_bool_decide as Hin.
    + intros [= <-]. exists merged. split; [split; [done|]|].
      * rewrite Hslots by done. rewrite decide_False by done. by rewrite decide_True.
      * apply Hmerged. by right.
    + intros Hlk. apply Hinv in Hlk as (e0 & [Hipos Hislot] & Hv).
      assert (i ≠ m) as Him by (intros ->; congruence).
      destruct (decide (i = k)) as [->|Hik].
      * exists merged. split; [split; [done|]|].
        -- rewrite Hslots by done. rewrite decide_False by done. by rewrite decide_True.
        -- apply Hmerged. left. congruence.
      * exists e0. split; [split; [done|]|done].
        rewrite Hslots by done. by rewrite !decide_False.
  - intros (e' & [Hipos Hislot] & Hv). rewrite Hslots in Hislot by done.
    destruct (decide (i = m)) as [->|Him]; [done|].
    destruct (decide (i = k)) as [->|Hik].
    + injection Hislot as <-. apply Hmerged in Hv as [Hv|Hv].
      * case_bool_decide; [done|]. apply Hinv. exists ek. by repeat split.
      * by rewrite bool_decide_eq_true_2.
    + assert (solution_lookup c !! v = Some i) as Hlk
        by (apply Hinv; exists e'; by repeat split).
      case_bool_decide as Hin; [|done]. exfalso.
      assert (solution_lookup c !! v = Some m) as Hlm
        by (apply Hinv; exists em; by repeat split).
      congruence.
Qed.

Lemma lookup_consistent_add_variable_to_pattern k v ek c c' :
  constructor_keeps_pattern →
  lookup_consistent c →
  live_entry c k ek →
  solution_lookup c !! v = None →
  add_variable_to_pattern opts task k v c = Returns c' →
  lookup_consistent c'.
Proof.
  intros Hctor Hinv Hk Hfresh. unfold add_variable_to_pattern.
  rewrite (solution_at_live _ _ _ Hk). simpl.
  pose proof (Hctor task (sort_pattern (get_pattern ek ++ [v])) (rng c)
                (wildcard_plans opts)) as Hpat.
  destruct (make_solution _ _ _ _) as [extended r]. simpl in Hpat.
  unfold mret, Outcome_ret. intros [= <-].
  pose proof (live_entry_lt _ _ _ Hk) as Hklt.
  destruct Hk as [Hkpos Hkslot].
  assert (∀ w, w ∈ get_pattern extended ↔ w ∈ get_pattern ek ∨ w = v) as Hext.
  { intros w. rewrite Hpat, elem_of_sort_pattern, elem_of_app.
    by rewrite list_elem_of_singleton. }
  intros w i. unfold live_entry, store_solution. simpl.
  rewrite lookup_insert. split.
  - destruct (decide (v = w)) as [->|Hvw].
    + intros [= <-]. exists extended. split; [split; [done|]|].
      * by rewrite list_lookup_insert_eq.
      * apply Hext. by right.
    + intros Hlk. apply Hinv in Hlk as (e0 & [Hipos Hislot] & Hw).
      destruct (decide (i = k)) as [->|Hik].
      * exists extended. split; [split; [done|]|].
        -- by rewrite list_lookup_insert_eq.
        -- apply Hext. left. congruence.
      * exists e0. split; [split; [done|]|done].
        by rewrite list_lookup_insert_ne by lia.
  - intros (e' & [Hipos Hislot] & Hw).
    destruct (decide (i = k)) as [->|Hik].
    + rewrite list_lookup_insert_eq in Hislot by done. injection Hislot as <-.
      apply Hext in Hw as [Hw| ->].
      * destruct (decide (v = w)) as [->|Hvw]; [done|].
        apply Hinv. exists ek. by repeat split.
      * by rewrite decide_True.
    + rewrite list_lookup_insert_ne in Hislot by lia.
      assert (solution_lookup c !! w = Some i) as Hlk
        by (apply Hinv; exists e'; by repeat split).
      destruct (decide (v = w)) as [->|Hvw]; [congruence | done].
Qed.

(** Invariant 2 is kept by the repair of a flaw on a live entry whose
    pattern does not hold the variable. *)
Lemma lookup_consistent_handle_flaw flaw c c' :
  constructor_keeps_pattern →
  lookup_consistent c →
  flaw_well_formed c flaw →
  handle_flaw opts task flaw c = Returns c' →
  lookup_consistent c'.
Proof.
  intros Hctor Hinv (ek & Hk & Hnotin) Hret.
  destruct flaw as [k v]. simpl in *.
  destruct (handle_flaw_cases c k v ek Hinv Hk Hnotin) as [Hmerge Hextend].
  destruct (solution_lookup c !! v) as [m|] eqn:Hlk.
  - apply Hinv in Hlk as (em & Hm & Hin).
    destruct (Hmerge m em Hm Hin) as (Hmk & b & _ & _ & Hres).
    destruct b.
    + destruct Hres as (c1 & Hc1 & Hh). rewrite Hh in Hret. injection Hret as <-.
      by eapply (lookup_consistent_merge_patterns k m ek em c c1).
    + rewrite Hres in Hret. by injection Hret as <-.
  - pose proof (proj1 (lookup_None_iff c v Hinv) Hlk) as Hnot.
    destruct (Hextend Hnot) as (b & _ & _ & Hres).
    destruct b.
    + destruct Hres as (c1 & Hc1 & Hh). rewrite Hh in Hret. injection Hret as <-.
      by eapply (lookup_consistent_add_variable_to_pattern k v ek c c1).
    + rewrite Hres in Hret. by injection Hret as <-.
Qed.

Lemma lookup_consistent_refine flaws c c' :
  constructor_keeps_pattern →
  lookup_consistent c →
  Forall (flaw_well_formed c) flaws →
  refine opts task flaws c = Returns c' →
  lookup_consistent c'.
Proof.
  intros Hctor Hinv Hwf. unfold refine.
  destruct (assert _); simpl; try done.
  destruct (rng_random _ _) as [i r]. unfold flaw_at.
  destruct (i <? 0); [done|].
  destruct (flaws !! Z.to_nat i) as [flaw|] eqn:Hflaw; [|done]. simpl.
  apply lookup_consistent_handle_flaw; [done | done |].
  exact (proj1 (Forall_lookup _ _) Hwf _ _ Hflaw).
Qed.

Lemma lookup_consistent_fresh c :
  solutions c = [] → solution_lookup c = ∅ → lookup_consistent c.
Proof.
  intros Hsols Hlk v i. rewrite Hlk, lookup_empty. split; [done|].
  intros (e & [_ Hslot] & _). by rewrite Hsols in Hslot.
Qed.

Lemma pop_back_Some l rest x : pop_back l = Some (rest, x) → l = rest ++ [x].
Proof.
  unfold pop_back. destruct (last l) as [y|] eqn:Hlast; [|done].
  intros [= <- <-]. apply last_Some in Hlast as [l' ->].
  by rewrite removelast_last.
Qed.

Lemma add_pattern_for_var_fields var c :
  length (solutions (add_pattern_for_var opts task var c)) = S (length (solutions c))
  ∧ ∀ v, v ≠ var →
      solution_lookup (add_pattern_for_var opts task var c) !! v = solution_lookup c !! v.
Proof.
  unfold add_pattern_for_var. destruct (make_solution _ _ _ _) as [e r]. simpl.
  split.
  - rewrite length_app. simpl. lia.
  - intros v Hv. by rewrite lookup_insert_ne.
Qed.

Lemma lookup_consistent_seed_all_goals fuel c :
  constructor_keeps_pattern →
  lookup_consistent c →
  NoDup (remaining_goals c) →
  (∀ v, v ∈ remaining_goals c → solution_lookup c !! v = None) →
  Z.of_nat (length (solutions c) + length (remaining_goals c)) <= INT_MAX →
  lookup_consistent (seed_all_goals opts task fuel c).
Proof.
  intros Hctor. revert c.
  induction fuel as [|fuel IH]; intros c Hinv Hnodup Hfresh Hlen; simpl; [done|].
  destruct (pop_back (remaining_goals c)) as [[rest var]|] eqn:Hpop; [|done].
  apply pop_back_Some in Hpop. rewrite Hpop in Hnodup, Hfresh, Hlen.
  apply NoDup_app in Hnodup as (Hrest & Hdisj & _).
  rewrite length_app in Hlen. simpl in Hlen.
  destruct (add_pattern_for_var_fields var (set_remaining_goals rest c))
    as [Hlen' Hother].
  apply IH.
  - apply lookup_consistent_add_pattern_for_var; try done.
    + apply Hfresh, elem_of_app. right. by apply list_elem_of_singleton.
    + simpl. lia.
  - by rewrite add_pattern_for_var_remaining_goals.
  - rewrite add_pattern_for_var_remaining_goals. simpl. intros v Hv.
    rewrite Hother.
    + apply Hfresh, elem_of_app. by left.
    + intros ->. apply (Hdisj var Hv). by apply list_elem_of_singleton.
  - rewrite Hlen', add_pattern_for_var_remaining_goals. simpl. lia.
Qed.

(** Seeding a fresh object establishes invariant 2. *)
Lemma lookup_consistent_seeding c c' :
  constructor_keeps_pattern →
  solutions c = [] → solution_lookup c = ∅ →
  NoDup (remaining_goals c) →
  Z.of_nat (length (remaining_goals c)) <= INT_MAX →
  generate_trivial_solution_collection opts task c = Returns c' →
  lookup_consistent c'.
Proof.
  intros Hctor Hsols Hlk Hnodup Hlen.
  pose proof (lookup_consistent_fresh c Hsols Hlk) as Hinv.
  unfold generate_trivial_solution_collection.
  destruct (assert (negb (bool_decide (remaining_goals c = [])))); simpl; try done.
  destruct (initial opts).
  - destruct (assert (negb (given_goal opts =? -1))); simpl; try done.
    unfold mret, Outcome_ret. intros [= <-].
    apply lookup_consistent_add_pattern_for_var; try done.
    + simpl. by rewrite Hlk, lookup_empty.
    + simpl. rewrite Hsols. simpl. unfold INT_MAX. lia.
  - destruct (pop_back (remaining_goals c)) as [[rest var]|]; [|done].
    unfold mret, Outcome_ret. intros [= <-].
    apply lookup_consistent_add_pattern_for_var; try done.
    + simpl. by rewrite Hlk, lookup_empty.
    + simpl. rewrite Hsols. simpl. unfold INT_MAX. lia.
  - unfold mret, Outcome_ret. intros [= <-].
    apply lookup_consistent_seed_all_goals; try done.
    + intros v _. by rewrite Hlk, lookup_empty.
    + rewrite Hsols. simpl. lia.
Qed.

(** ** Invariant 2 along the main loop, in a build with assertions *)

Lemma execute_plan_flaw_indices blacklist solution index plan flaws current :
  Forall (fun f => solution_index f = index) flaws →
  Forall (fun f => solution_index f = index)
    (execute_plan task blacklist solution index plan flaws current).1.
Proof.
  revert flaws current.
  induction plan as [|ops plan IH]; intros flaws current Hflaws; [done|].
  simpl. rewrite try_equivalent_ops_spec.
  destruct (find _ ops).
  - by apply IH.
  - simpl. apply Forall_app. split; [done|].
    unfold flaws_on. by apply Forall_fmap, Forall_true.
Qed.

Lemma apply_wildcard_plan_flaw_indices index init c flaws c' :
  apply_wildcard_plan opts task index init c = Returns (flaws, c') →
  Forall (fun f => solution_index f = index) flaws.
Proof.
  unfold apply_wildcard_plan. destruct (solution_at c index) as [e| | | | |]; try done.
  simpl.
  pose proof (execute_plan_flaw_indices (global_blacklist c) e index (get_plan e) []
                init (Forall_nil_2 _)) as Hpre.
  destruct (execute_plan _ _ _ _ _ _ _) as [fl s]. simpl in Hpre.
  unfold mret, Outcome_ret, conclude_plan. intros Hret.
  repeat case_match; inversion Hret; subst; try done.
  rewrite collect_goal_flaws_spec. apply Forall_app. split; [done|].
  unfold flaws_on. by apply Forall_fmap, Forall_true.
Qed.

(** Plan projection keeps every live entry live. *)
Lemma apply_wildcard_plan_keeps_live index init c flaws c' i e :
  apply_wildcard_plan opts task index init c = Returns (flaws, c') →
  live_entry c i e → ∃ e', live_entry c' i e'.
Proof.
  unfold apply_wildcard_plan.
  destruct (solution_at c index) as [e0| | | | |] eqn:Hsol; try done.
  simpl. destruct (execute_plan _ _ _ _ _ _ _) as [fl s].
  unfold mret, Outcome_ret, conclude_plan. intros Hret [Hpos Hslot].
  assert (∃ e', live_entry (mark_solved_at index e0 c) i e') as Hmark.
  { unfold live_entry, mark_solved_at, store_solution. simpl.
    destruct (decide (Z.to_nat i = Z.to_nat index)) as [Heq|Hne].
    - exists (mark_as_solved e0). split; [done|].
      rewrite Heq. apply list_lookup_insert_eq.
      rewrite <- Heq. by eapply lookup_lt_Some.
    - exists e. split; [done|]. by rewrite list_lookup_insert_ne. }
  repeat case_match; inversion Hret; subst;
    first [exact Hmark | by exists e].
Qed.

Lemma get_flaws_loop_flaws_on_live l flaws c flaws' c' :
  get_flaws_loop opts task l flaws c = Returns (flaws', c') →
  Forall (flaw_on_live_entry c) flaws →
  Forall (flaw_on_live_entry c') flaws'.
Proof.
  revert flaws c. induction l as [|i l IH]; intros flaws c Hrun Hlive; simpl in Hrun.
  - unfold mret, Outcome_ret in Hrun. by inversion Hrun; subst.
  - destruct (solutions c !! i) as [[e|]|]; try done; [|by eapply IH].
    destruct (is_solved e); [by eapply IH|].
    destruct (negb (solution_exists e)); [done|].
    destruct (apply_wildcard_plan _ _ _ _ _) as [[fl c1]| | | | |] eqn:Happly; try done.
    simpl in Hrun. destruct (negb (concrete_solution_index c1 =? -1)).
    + destruct (assert (concrete_solution_index c1 =? static_cast_int i));
        simpl in *; try done.
      destruct (assert (bool_decide (fl = []))); simpl in *; try done.
      unfold mret, Outcome_ret in Hrun. by inversion Hrun; subst.
    + eapply IH; [done|]. apply Forall_app. split.
      * eapply Forall_impl; [done|]. intros f [e0 He0].
        by eapply apply_wildcard_plan_keeps_live.
      * pose proof (apply_wildcard_plan_flaw_indices _ _ _ _ _ Happly) as Hidx.
        assert (∃ e0, live_entry c (static_cast_int i) e0) as [e0 He0].
        { unfold apply_wildcard_plan in Happly.
          destruct (solution_at c (static_cast_int i)) as [e0| | | | |] eqn:Hsol; try done.
          exists e0. by apply solution_at_returns. }
        eapply Forall_impl; [done|]. intros f Hf. unfold flaw_on_live_entry.
        rewrite Hf. by eapply apply_wildcard_plan_keeps_live.
Qed.

(** With assertions compiled in, a repair that returns was a repair of a
    flaw on a variable outside the pattern of the flawed entry. *)
Lemma handle_flaw_asserted flaw c c' :
  NDEBUG = false →
  lookup_consistent c →
  flaw_on_live_entry c flaw →
  handle_flaw opts task flaw c = Returns c' →
  flaw_well_formed c flaw.
Proof.
  intros Hdebug Hinv [ek Hk] Hret. exists ek. split; [done|].
  intros Hin.
  assert (solution_lookup c !! variable flaw = Some (solution_index flaw)) as Hlk
    by (apply Hinv; by exists ek).
  unfold handle_flaw, try_add_var in Hret. rewrite Hlk in Hret.
  unfold assert in Hret. rewrite Hdebug, Z.eqb_refl in Hret. done.
Qed.

(** In a build with assertions, the main loop keeps invariant 2. *)
Lemma main_loop_keeps_lookup_consistent fuel ticks counter c c' :
  NDEBUG = false →
  constructor_keeps_pattern →
  lookup_consistent c →
  main_loop opts task fuel ticks counter c = Returns c' →
  lookup_consistent c'.
Proof.
  intros Hdebug Hctor. revert ticks counter c.
  induction fuel as [|fuel IH]; intros ticks counter c Hinv Hrun; simpl in Hrun; [done|].
  destruct (is_expired ticks); [by inversion Hrun; subst|].
  destruct (counter =? max_refinements opts); [by inversion Hrun; subst|].
  destruct (get_flaws opts task c) as [[fl c1]| | | | |] eqn:Hflaws; try done.
  simpl in Hrun. unfold get_flaws in Hflaws.
  pose proof (lookup_consistent_get_flaws_loop _ _ _ _ _ Hflaws Hinv) as Hinv1.
  pose proof (get_flaws_loop_flaws_on_live _ _ _ _ _ Hflaws (Forall_nil_2 _)) as Hlive.
  destruct (bool_decide (fl = [])).
  - destruct (negb _); simpl in Hrun.
    + destruct (assert _); simpl in Hrun; try done. by inversion Hrun; subst.
    + by inversion Hrun; subst.
  - destruct (is_expired (S ticks)); [by inversion Hrun; subst|].
    destruct (refine opts task fl c1) as [c2| | | | |] eqn:Href; try done.
    simpl in Hrun. eapply IH; [|done].
    unfold refine in Href.
    destruct (assert (negb (bool_decide (fl = [])))); simpl in Href; try done.
    destruct (rng_random _ _) as [i r]. unfold flaw_at in Href.
    destruct (i <? 0); [done|].
    destruct (fl !! Z.to_nat i) as [flaw|] eqn:Hflaw; [|done]. simpl in Href.
    pose proof (proj1 (Forall_lookup _ _) Hlive _ _ Hflaw) as Hk.
    eapply (lookup_consistent_handle_flaw flaw (set_rng r c1)); try done.
    by eapply handle_flaw_asserted.
Qed.

(** ** The fuel of the main loop *)

Lemma has_fuel_bind {A B} (m : Outcome A) (f : A → Outcome B) :
  has_fuel m → (∀ a, has_fuel (f a)) → has_fuel (m ≫= f).
Proof. unfold has_fuel. intros Hm Hf. destruct m; simpl; done. Qed.

Lemma has_fuel_ret {A} (a : A) : has_fuel (mret a : Outcome A).
Proof. done. Qed.

Lemma has_fuel_assert b : has_fuel (assert b).
Proof. unfold assert. by destruct (NDEBUG || b). Qed.

Lemma has_fuel_solution_at c i : has_fuel (solution_at c i).
Proof. unfold solution_at. by repeat case_match. Qed.

Ltac fuel_step :=
  first
    [ apply has_fuel_ret
    | apply has_fuel_assert
    | apply has_fuel_solution_at
    | apply has_fuel_bind; [|intros]
    | progress case_match
    | discriminate ].

Lemma has_fuel_get_flaws_loop l flaws c :
  has_fuel (get_flaws_loop opts task l flaws c).
Proof.
  revert flaws c. induction l as [|i l IH]; intros flaws c; simpl.
  - apply has_fuel_ret.
  - destruct (solutions c !! i) as [[e|]|]; [|apply IH|done].
    destruct (is_solved e); [apply IH|].
    destruct (negb (solution_exists e)); [done|].
    apply has_fuel_bind.
    + unfold apply_wildcard_plan. unfold has_fuel. repeat fuel_step.
    + intros [fl c1]. destruct (negb _); [unfold has_fuel; repeat fuel_step | apply IH].
Qed.

Lemma has_fuel_refine flaws c : has_fuel (refine opts task flaws c).
Proof.
  unfold refine, flaw_at, handle_flaw, try_add_var, assert_not_null,
    can_merge_patterns, merge_patterns, can_add_variable_to_pattern,
    add_variable_to_pattern, has_fuel.
  repeat fuel_step.
Qed.

(** The main loop ends within [max_refinements] rounds: one unit of fuel
    more than the refinements that are left is enough. *)
Lemma main_loop_has_fuel fuel ticks counter c :
  0 <= counter <= max_refinements opts →
  max_refinements opts <= INT_MAX →
  (Z.to_nat (max_refinements opts - counter) < fuel)%nat →
  has_fuel (main_loop opts task fuel ticks counter c).
Proof.
  revert ticks counter c.
  induction fuel as [|fuel IH]; intros ticks counter c Hcount Hmax Hfuel; [lia|].
  simpl. destruct (is_expired ticks); [done|].
  destruct (Z.eqb_spec counter (max_refinements opts)) as [Heq|Hne]; [done|].
  apply has_fuel_bind; [apply has_fuel_get_flaws_loop|].
  intros [fl c1]. destruct (bool_decide (fl = [])).
  - unfold has_fuel. repeat fuel_step.
  - destruct (is_expired (S ticks)); [done|].
    apply has_fuel_bind; [apply has_fuel_refine|]. intros c2.
    assert (int_add counter 1 = counter + 1) as ->.
    { apply wrap_int_in_range. unfold in_int_range, INT_MIN, INT_MAX in *. lia. }
    apply IH; lia.
Qed.

(** The driver as a whole returns, exits or fails; the model of its loop
    never stops for lack of fuel once it has [max_refinements] + 1 units. *)
Lemma generate_has_fuel c :
  0 <= max_refinements opts <= INT_MAX →
  has_fuel (generate opts task (S (Z.to_nat (max_refinements opts))) c).
Proof.
  intros Hmax. unfold generate. cbv zeta.
  destruct (_ && _); [done|]. destruct (_ && _); [done|].
  destruct (rng_shuffle _ _) as [shuffled r].
  apply has_fuel_bind.
  { destruct (negb _); [|done].
    unfold blacklist_nongoals, reserve. cbv zeta.
    destruct (vector_int_max_size <? _); simpl; [done|].
    by destruct (rng_shuffle _ _). }
  intros c3. apply has_fuel_bind.
  { unfold generate_trivial_solution_collection, has_fuel. repeat fuel_step. }
  intros c4. apply has_fuel_bind.
  { apply main_loop_has_fuel; lia. }
  intros c5. unfold collect_output, has_fuel. repeat fuel_step.
Qed.

End Properties.

(** * The theorems at work on the example task *)

(** The plan of entry [{a}] from the initial state: operator 0 needs
    [b = 1], so the only step fails with the flaw (1, b) and the state is
    the initial one. *)
Lemma plan_step_applies_first_applicable_or_aborts_witness :
  (execute_plan example_task ∅ (example_entry [0] 2 [[0]] true) 1
     [[0]] [] (fun _ => 0)).1
  = [{| solution_index := 1; variable := 1 |}].
Proof. rewrite plan_step_applies_first_applicable_or_aborts. reflexivity. Defined.

(** One step of the plan of entry [{a, b}] from the initial state: the
    only operator of the class, operator 1, is applicable and is applied;
    then operator 0 is, and the goal is reached without a flaw. *)
Example plan_of_merged_entry_runs :
  (execute_plan example_task ∅ (example_entry [0; 1] 4 [[1]; [0]] true) 1
     [[1]; [0]] [] (fun _ => 0)).1 = []
  ∧ is_goal_state example_task
      (execute_plan example_task ∅ (example_entry [0; 1] 4 [[1]; [0]] true) 1
         [[1]; [0]] [] (fun _ => 0)).2 = true.
Proof. split; reflexivity. Qed.

Lemma example_seeded_consistent : lookup_consistent example_seeded.
Proof. apply lookup_consistentb_sound. vm_compute. reflexivity. Qed.

Lemma blacklisted_merged_nonempty :
  global_blacklist (blacklist_var 5 example_merged) ≠ ∅.
Proof.
  intros Heq. apply (f_equal (fun b => bool_decide (5 ∈ b))) in Heq.
  vm_compute in Heq. discriminate.
Qed.

(** The plan of the merged entry reaches the goal: with an empty blacklist
    [concrete_solution_index] becomes 1 and the entries stay as they are,
    with a blacklisted variable the index stays -1 and slot 1 holds an
    entry that is marked as solved. *)
Lemma completed_plan_in_goal_state_witness :
  (∃ c',
     apply_wildcard_plan (H := debug_world) default_options example_task 1
       (get_initial_state example_task) example_merged = Returns ([], c')
     ∧ concrete_solution_index c' = 1
     ∧ solutions c' = solutions example_merged)
  ∧ (∃ c' marked,
       apply_wildcard_plan (H := debug_world) default_options example_task 1
         (get_initial_state example_task) (blacklist_var 5 example_merged)
       = Returns ([], c')
       ∧ concrete_solution_index c' = -1
       ∧ solutions c' !! 1%nat = Some (Some marked)
       ∧ is_solved marked = true).
Proof.
  split.
  - destruct (completed_plan_in_goal_state (H := debug_world) default_options
                example_task 1 (get_initial_state example_task) example_merged
                (example_entry [0; 1] 4 [[1]; [0]] true)
                (apply_effects (apply_effects (fun _ => 0) (example_operators 1))
                   (example_operators 0)))
      as (c' & Hrun & _ & _ & _ & _ & _ & Hempty & _); [reflexivity..|].
    exists c'. split; [exact Hrun|]. apply Hempty. reflexivity.
  - destruct (completed_plan_in_goal_state (H := debug_world) default_options
                example_task 1 (get_initial_state example_task)
                (blacklist_var 5 example_merged)
                (example_entry [0; 1] 4 [[1]; [0]] true)
                (apply_effects (apply_effects (fun _ => 0) (example_operators 1))
                   (example_operators 0)))
      as (c' & Hrun & _ & _ & _ & _ & _ & _ & Hblack); [reflexivity..|].
    destruct (Hblack blacklisted_merged_nonempty)
      as (Hidx & _ & _ & marked & Hslot & Hsolved & _).
    exists c', marked. split; [exact Hrun|]. split; [exact Hidx|].
    split; [exact Hslot | exact Hsolved].
Defined.

(** After seeding with a random goal, the plan of entry [{b}] ends
    outside the goal: [a] is violated and still a remaining goal, so the
    flaw (0, a) comes back and the collection is unchanged. *)
Lemma completed_plan_outside_goal_witness :
  apply_wildcard_plan (H := debug_world)
    (example_options RANDOM_GOAL (-1) 1000000 false) example_task 0
    (get_initial_state example_task) example_seeded_random
  = Returns ([{| solution_index := 0; variable := 0 |}], example_seeded_random).
Proof.
  rewrite (completed_plan_outside_goal (H := debug_world)
             (example_options RANDOM_GOAL (-1) 1000000 false) example_task 0
             (get_initial_state example_task) example_seeded_random
             (example_entry [1] 2 [[1]] true)
             (apply_effects (fun _ => 0) (example_operators 1)));
    reflexivity.
Defined.

(** With [max_pdb_size] = 3 the merge of the two seeded entries is
    refused, and the flaw (1, b) ends in the blacklist. *)
Lemma fall_through_blacklists_witness :
  handle_flaw (H := debug_world) (example_options ALL_GOALS (-1) 3 false)
    example_task {| solution_index := 1; variable := 1 |} example_seeded
  = Returns (blacklist_var 1 example_seeded).
Proof.
  apply (fall_through_blacklists (H := debug_world)
           (example_options ALL_GOALS (-1) 3 false) example_task
           {| solution_index := 1; variable := 1 |} example_seeded example_seeded).
  - exact example_seeded_consistent.
  - vm_compute. reflexivity.
Defined.

(** The claim of C5 fails on the code: the run on the example task with
    [max_pdb_size] = 3 seeds the entries [{b}] and [{a}], finds the flaw
    (1, b), cannot merge, and blacklists [b] while [b] is in the pattern
    of the live entry 0. *)
Lemma blacklisted_while_in_live_pattern :
  let opts := example_options ALL_GOALS (-1) 3 false in
  let flaw := {| solution_index := 1; variable := 1 |} in
  generate_trivial_solution_collection (H := debug_world) opts example_task
    (set_remaining_goals [0; 1] (Cegar_new (tt : @RNG debug_world)))
  = Returns example_seeded
  ∧ get_flaws (H := debug_world) opts example_task example_seeded
    = Returns ([flaw], example_seeded)
  ∧ try_add_var (H := debug_world) opts example_task flaw example_seeded
    = Returns (false, example_seeded)
  ∧ handle_flaw (H := debug_world) opts example_task flaw example_seeded
    = Returns (blacklist_var 1 example_seeded)
  ∧ 1 ∈ global_blacklist (blacklist_var 1 example_seeded)
  ∧ in_live_pattern example_seeded 1.
Proof.
  cbv zeta.
  split; [vm_compute; reflexivity|].
  split; [vm_compute; reflexivity|].
  split; [vm_compute; reflexivity|].
  split; [vm_compute; reflexivity|].
  split.
  - unfold blacklist_var. simpl. apply elem_of_union_l, elem_of_singleton. reflexivity.
  - exists 0, (example_entry [1] 2 [[1]] true). split.
    + split; [simpl; lia | reflexivity].
    + simpl. apply list_elem_of_In. simpl. tauto.
Qed.

(** Entry 0 is projected without solving the task; entry 1 has no
    abstract solution, and flaw extraction exits. *)
Lemma unsolvable_entry_exits_witness :
  get_flaws (H := debug_world) default_options example_task example_unsolvable
  = ExitWith SEARCH_UNSOLVABLE.
Proof.
  apply (unsolvable_entry_exits (H := debug_world) default_options example_task
           example_unsolvable 1 (example_entry [0] 2 [] false)).
  - reflexivity.
  - reflexivity.
  - reflexivity.
  - unfold INT_MAX. simpl. lia.
  - reflexivity.
  - intros j ej Hj Hslot _ _ (_ & _ & Hgoal).
    destruct j as [|j]; [|lia].
    injection Hslot as <-. vm_compute in Hgoal. discriminate.
Defined.

(** The claim of C7 fails on the code: with [initial = ALL_GOALS] and
    [given_goal = 7], a variable the task does not have, the driver exits
    with [SEARCH_INPUT_ERROR]. *)
Lemma input_error_without_given_goal_seed :
  initial (example_options ALL_GOALS 7 1000000 false) ≠ GIVEN_GOAL
  ∧ cegar (H := debug_world) (example_options ALL_GOALS 7 1000000 false)
      example_task 10 tt
    = ExitWith SEARCH_INPUT_ERROR.
Proof. split; [discriminate | reflexivity]. Qed.

(** [given_goal = 0] is a goal variable of the example task, and
    [given_goal = -1] with [initial = ALL_GOALS] asks for no validation:
    neither run exits with [SEARCH_INPUT_ERROR]. *)
Lemma input_error_depends_on_given_goal_witness :
  cegar (H := debug_world) (example_options GIVEN_GOAL 0 1000000 false)
    example_task 10 tt ≠ ExitWith SEARCH_INPUT_ERROR
  ∧ cegar (H := debug_world) default_options example_task 10 tt
    ≠ ExitWith SEARCH_INPUT_ERROR.
Proof.
  split.
  - intros Herr.
    apply (proj1 (input_error_depends_on_given_goal (H := debug_world)
                    (example_options GIVEN_GOAL 0 1000000 false) example_task 10
                    (Cegar_new (tt : @RNG debug_world)))) in Herr.
    + destruct Herr as [Hrange|Hgoal].
      * vm_compute in Hrange. by apply Hrange.
      * apply Hgoal. simpl. apply list_elem_of_In. simpl. tauto.
    + discriminate.
  - apply (proj2 (input_error_depends_on_given_goal (H := debug_world)
                    default_options example_task 10
                    (Cegar_new (tt : @RNG debug_world)))).
    + reflexivity.
    + discriminate.
Defined.

(** C8 fails on the code at the large collection under the default
    limits.  The product 1000 * 1000 is within [max_pdb_size], and the
    collection would grow to 2148000000, which is more than
    [max_collection_size] = [INT_MAX]; but the [int] sum wraps around to a
    negative number, so both size tests answer [true]. *)
Theorem size_tests_wrap_around :
  live_entry large_collection 0 (example_entry [0] 1000 [] true)
  ∧ live_entry large_collection 1 (example_entry [1] 1000 [] true)
  ∧ can_merge_patterns (H := debug_world) default_options 0 1 large_collection
    = Returns true
  ∧ ¬ (1000 * 1000 <= max_pdb_size default_options
       ∧ collection_size large_collection + 1000 * 1000 - 1000 - 1000
         <= max_collection_size default_options)
  ∧ get_domain_size large_task 4296 = 1000
  ∧ can_add_variable_to_pattern (H := debug_world) default_options large_task
      0 4296 large_collection
    = Returns true
  ∧ ¬ (1000 * 1000 <= max_pdb_size default_options
       ∧ collection_size large_collection + 1000 * (1000 - 1)
         <= max_collection_size default_options).
Proof.
  split; [split; [simpl; lia | reflexivity]|].
  split; [split; [simpl; lia | reflexivity]|].
  split; [vm_compute; reflexivity|].
  split; [vm_compute; intros [_ Hle]; by apply Hle|].
  split; [reflexivity|].
  split; [vm_compute; reflexivity|].
  vm_compute. intros [_ Hle]. by apply Hle.
Qed.

(** The large collection is well-formed: the lookup table agrees with the
    patterns, and [collection_size] is the sum of the PDB sizes. *)
Lemma large_collection_well_formed :
  lookup_consistent large_collection
  ∧ foldr (fun slot sum =>
             match slot with Some e => get_pdb_size e + sum | None => sum end)
      0 (solutions large_collection)
    = collection_size large_collection.
Proof.
  split.
  - apply lookup_consistentb_sound. vm_compute. reflexivity.
  - vm_compute. reflexivity.
Qed.

(** The run on the example task with all goals seeded: the seeded and the
    merged collection have no remaining goals. *)
Lemma all_goals_seed_rules_out_goal_flaws_witness :
  remaining_goals example_seeded = [] ∧ remaining_goals example_merged = [].
Proof.
  destruct (all_goals_seed_rules_out_goal_flaws (H := debug_world)
              default_options example_task
              (set_remaining_goals [0; 1] (Cegar_new (tt : @RNG debug_world)))
              example_seeded example_merged) as (Hseed & Hmerged & _).
  - reflexivity.
  - vm_compute. reflexivity.
  - apply (reachable_refine default_options example_task example_seeded
             example_seeded [{| solution_index := 1; variable := 1 |}]).
    + apply (reachable_get_flaws default_options example_task example_seeded
               example_seeded [{| solution_index := 1; variable := 1 |}]).
      * apply reachable_seed.
      * vm_compute. reflexivity.
    + vm_compute. reflexivity.
  - split; assumption.
Defined.

(** The claim of C10 fails on the code when goal violations are ignored:
    with [initial = ALL_GOALS], the plan of entry 0 of the seeded
    collection ends outside the goal, and the entry is marked as solved. *)
Lemma all_goals_entry_marked_solved_outside_goal :
  let opts := example_options ALL_GOALS (-1) 1000000 true in
  let entry := example_entry [1] 2 [[1]] true in
  let s := apply_effects (fun _ => 0) (example_operators 1) in
  initial opts = ALL_GOALS
  ∧ generate_trivial_solution_collection (H := debug_world) opts example_task
      (set_remaining_goals [0; 1] (Cegar_new (tt : @RNG debug_world)))
    = Returns example_seeded
  ∧ plan_completes example_task (global_blacklist example_seeded) entry
      (get_plan entry) (get_initial_state example_task) = Some s
  ∧ is_goal_state example_task s = false
  ∧ apply_wildcard_plan (H := debug_world) opts example_task 0
      (get_initial_state example_task) example_seeded
    = Returns ([], mark_solved_at 0 entry example_seeded)
  ∧ solutions (mark_solved_at 0 entry example_seeded) !! 0%nat
    = Some (Some (mark_as_solved entry))
  ∧ is_solved (mark_as_solved entry) = true.
Proof.
  cbv zeta.
  split; [reflexivity|].
  split; [vm_compute; reflexivity|].
  split; [reflexivity|].
  split; [reflexivity|].
  split; [vm_compute; reflexivity|].
  split; reflexivity.
Qed.
(** * Invariants of the collection and further properties of the code *)
(** * More properties of the code *)

Section Invariants.
Context `{Collaborators}.
Context (opts : Options) (task : TaskProxy).

(** ** What flaw extraction changes and what it reports *)

(** The call of [apply_wildcard_plan] returns iff the entry is live, and then
    with what [conclude_plan] makes of the run of the plan. *)
Lemma apply_wildcard_plan_returns index init c flaws c' :
  apply_wildcard_plan opts task index init c = Returns (flaws, c') →
  ∃ e, live_entry c index e
       ∧ (flaws, c') =
           conclude_plan opts task index e
             (execute_plan task (global_blacklist c) e index (get_plan e) [] init).1
             (execute_plan task (global_blacklist c) e index (get_plan e) [] init).2 c.
Proof.
  unfold apply_wildcard_plan.
  destruct (solution_at c index) as [e| | | | |] eqn:Hsol; try done.
  simpl. destruct (execute_plan _ _ _ _ _ _ _) as [fl s] eqn:Hexec.
  unfold mret, Outcome_ret. intros [= Heq]. exists e.
  split; [by apply solution_at_returns | rewrite Hexec; simpl; by rewrite Heq].
Qed.

(** The three ways [conclude_plan] can end. *)
Lemma conclude_plan_cases index e fl s c :
  let r := conclude_plan opts task index e fl s c in
  (r.2 = c
   ∧ (r.1 = fl
      ∨ (fl = [] ∧
         r.1 = flaws_on index
                 (fact_var <$> filter (open_goal_violation c s) (get_goals task)))))
  ∨ (fl = [] ∧ is_goal_state task s = true ∧ global_blacklist c = ∅
     ∧ r = ([], set_concrete_solution_index index c))
  ∨ (fl = [] ∧ r = ([], mark_solved_at index e c)).
Proof.
  cbv zeta. unfold conclude_plan.
  case_bool_decide as Hfl; [subst fl | by left; split; [|left]].
  destruct (is_goal_state task s) eqn:Hgoal.
  - case_bool_decide as Hbl; [right; left | right; right]; done.
  - destruct (ignore_goal_violations opts); simpl.
    + right; right; done.
    + left. split; [done|]. right. split; [done|].
      by rewrite collect_goal_flaws_spec.
Qed.

Lemma mark_as_solved_idemp e : mark_as_solved (mark_as_solved e) = mark_as_solved e.
Proof. reflexivity. Qed.

Lemma only_marks_solved_refl c : only_marks_solved c c.
Proof. repeat split; try done. intros i. by left. Qed.

Lemma only_marks_solved_trans c1 c2 c3 :
  only_marks_solved c1 c2 → only_marks_solved c2 c3 → only_marks_solved c1 c3.
Proof.
  intros (Hr & Hg & Hb & Hl & Hs & Hlen & Hslots)
         (Hr' & Hg' & Hb' & Hl' & Hs' & Hlen' & Hslots').
  repeat split; try congruence.
  intros i. destruct (Hslots i) as [H12|(e & H1 & H2)],
    (Hslots' i) as [H23|(e' & H2' & H3)].
  - left. congruence.
  - right. exists e'. split; congruence.
  - right. exists e. split; congruence.
  - right. exists e. split; [done|].
    rewrite H3. rewrite H2 in H2'. injection H2' as <-. done.
Qed.

Lemma only_marks_solved_mark index e c :
  live_entry c index e → only_marks_solved c (mark_solved_at index e c).
Proof.
  intros [Hpos Hslot]. unfold mark_solved_at, store_solution.
  repeat split; simpl; try done.
  - apply length_insert.
  - intros i. destruct (decide (i = Z.to_nat index)) as [->|Hne].
    + right. exists e. split; [done|].
      apply list_lookup_insert_eq. by eapply lookup_lt_Some.
    + left. by apply list_lookup_insert_ne.
Qed.

Lemma only_marks_solved_apply index init c flaws c' :
  apply_wildcard_plan opts task index init c = Returns (flaws, c') →
  only_marks_solved c c'.
Proof.
  intros Hret. apply apply_wildcard_plan_returns in Hret as (e & Hlive & Heq).
  destruct (conclude_plan_cases index e
              (execute_plan task (global_blacklist c) e index (get_plan e) [] init).1
              (execute_plan task (global_blacklist c) e index (get_plan e) [] init).2 c)
    as [[Hc _]|[(_ & _ & _ & Hr)|(_ & Hr)]]; rewrite <- Heq in *; simpl in *.
  - subst c'. apply only_marks_solved_refl.
  - injection Hr as -> ->. repeat split; try done. intros i. by left.
  - injection Hr as -> ->. by apply only_marks_solved_mark.
Qed.

Lemma only_marks_solved_get_flaws_loop l flaws c flaws' c' :
  get_flaws_loop opts task l flaws c = Returns (flaws', c') →
  only_marks_solved c c'.
Proof.
  revert flaws c. induction l as [|i l IH]; intros flaws c Hrun; simpl in Hrun.
  - unfold mret, Outcome_ret in Hrun. inversion Hrun; subst.
    apply only_marks_solved_refl.
  - destruct (solutions c !! i) as [[e|]|]; try done; [|by eapply IH].
    destruct (is_solved e); [by eapply IH|].
    destruct (negb (solution_exists e)); [done|].
    destruct (apply_wildcard_plan _ _ _ _ _) as [[fl c1]| | | | |] eqn:Happly; try done.
    apply only_marks_solved_apply in Happly.
    simpl in Hrun. destruct (negb (concrete_solution_index c1 =? -1)).
    + destruct (assert (concrete_solution_index c1 =? static_cast_int i));
        simpl in *; try done.
      destruct (assert (bool_decide (fl = []))); simpl in *; try done.
      unfold mret, Outcome_ret in Hrun. by inversion Hrun; subst.
    + eapply only_marks_solved_trans; [done|]. by eapply IH.
Qed.

(** X1.  Flaw extraction leaves the random number generator, the
    remaining goals, the blacklist, the lookup table, the collection size
    and the number of slots alone.  A slot is either as it was, or holds the
    same entry marked as solved: patterns, PDBs and plans never change. *)
Theorem get_flaws_only_marks_solved c flaws c' :
  get_flaws opts task c = Returns (flaws, c') →
  only_marks_solved c c'.
Proof. apply only_marks_solved_get_flaws_loop. Qed.

Lemma violated_preconditions_not_blacklisted blacklist current op v :
  v ∈ violated_preconditions blacklist current op → v ∉ blacklist.
Proof.
  unfold violated_preconditions. intros Hin.
  apply list_elem_of_fmap in Hin as (p & -> & Hp).
  apply list_elem_of_filter in Hp as [[Hbl _] _]. done.
Qed.

Lemma execute_plan_flaws_not_blacklisted blacklist solution index plan flaws current :
  Forall (fun f => variable f ∉ blacklist) flaws →
  Forall (fun f => variable f ∉ blacklist)
    (execute_plan task blacklist solution index plan flaws current).1.
Proof.
  revert flaws current.
  induction plan as [|ops plan IH]; intros flaws current Hflaws; [done|].
  simpl. rewrite try_equivalent_ops_spec.
  destruct (find _ ops).
  - by apply IH.
  - simpl. apply Forall_app. split; [done|].
    unfold flaws_on, violated_in_class. apply Forall_fmap, Forall_forall.
    intros v Hv. simpl. apply list_elem_of_In, in_concat in Hv as (vs & Hvs & Hv).
    apply list_elem_of_In in Hv. apply list_elem_of_In in Hvs.
    apply list_elem_of_fmap in Hvs as (a & -> & _).
    by eapply violated_preconditions_not_blacklisted.
Qed.

Lemma apply_wildcard_plan_flaws_not_blacklisted index init c flaws c' :
  apply_wildcard_plan opts task index init c = Returns (flaws, c') →
  Forall (fun f => variable f ∉ global_blacklist c) flaws.
Proof.
  intros Hret. apply apply_wildcard_plan_returns in Hret as (e & Hlive & Heq).
  pose proof (execute_plan_flaws_not_blacklisted (global_blacklist c) e index
                (get_plan e) [] init (Forall_nil_2 _)) as Hpre.
  destruct (conclude_plan_cases index e
              (execute_plan task (global_blacklist c) e index (get_plan e) [] init).1
              (execute_plan task (global_blacklist c) e index (get_plan e) [] init).2 c)
    as [[_ [Hfl|[_ Hfl]]]|[(_ & _ & _ & Hr)|(_ & Hr)]]; rewrite <- Heq in *; simpl in *.
  - by rewrite Hfl.
  - rewrite Hfl. unfold flaws_on. apply Forall_fmap, Forall_fmap, Forall_forall.
    intros g Hg. simpl. apply list_elem_of_filter in Hg as [(_ & Hbl & _) _]. done.
  - by injection Hr as -> _.
  - by injection Hr as -> _.
Qed.

Lemma get_flaws_loop_flaws_not_blacklisted l flaws c flaws' c' :
  get_flaws_loop opts task l flaws c = Returns (flaws', c') →
  Forall (fun f => variable f ∉ global_blacklist c) flaws →
  Forall (fun f => variable f ∉ global_blacklist c) flaws'.
Proof.
  revert flaws c. induction l as [|i l IH]; intros flaws c Hrun Hflaws; simpl in Hrun.
  - unfold mret, Outcome_ret in Hrun. by inversion Hrun; subst.
  - destruct (solutions c !! i) as [[e|]|]; try done; [|by eapply IH].
    destruct (is_solved e); [by eapply IH|].
    destruct (negb (solution_exists e)); [done|].
    destruct (apply_wildcard_plan _ _ _ _ _) as [[fl c1]| | | | |] eqn:Happly; try done.
    pose proof (apply_wildcard_plan_flaws_not_blacklisted _ _ _ _ _ Happly) as Hfl.
    apply only_marks_solved_apply in Happly as (_ & _ & Hbl & _).
    simpl in Hrun. destruct (negb (concrete_solution_index c1 =? -1)).
    + destruct (assert (concrete_solution_index c1 =? static_cast_int i));
        simpl in *; try done.
      destruct (assert (bool_decide (fl = []))); simpl in *; try done.
      unfold mret, Outcome_ret in Hrun. by inversion Hrun; subst.
    + rewrite <- Hbl. eapply IH; [done|]. rewrite Hbl. by apply Forall_app.
Qed.

(** X2.  No flaw that flaw extraction reports is on a blacklisted
    variable: blacklisted preconditions are skipped, and so are blacklisted
    goals. *)
Theorem get_flaws_skips_blacklisted c flaws c' :
  get_flaws opts task c = Returns (flaws, c') →
  Forall (fun f => variable f ∉ global_blacklist c) flaws.
Proof.
  intros Hrun. by eapply get_flaws_loop_flaws_not_blacklisted.
Qed.

(** Plan projection changes no slot but the one of its entry, and changes
    nothing at all when it reports a flaw. *)
Lemma apply_wildcard_plan_slots index init c flaws c' :
  apply_wildcard_plan opts task index init c = Returns (flaws, c') →
  (flaws ≠ [] → c' = c)
  ∧ ∀ j, j ≠ Z.to_nat index → solutions c' !! j = solutions c !! j.
Proof.
  intros Hret. apply apply_wildcard_plan_returns in Hret as (e & Hlive & Heq).
  destruct (conclude_plan_cases index e
              (execute_plan task (global_blacklist c) e index (get_plan e) [] init).1
              (execute_plan task (global_blacklist c) e index (get_plan e) [] init).2 c)
    as [[Hc _]|[(_ & _ & _ & Hr)|(_ & Hr)]]; rewrite <- Heq in *; simpl in *.
  - by subst c'.
  - injection Hr as -> ->. done.
  - injection Hr as -> ->. split; [done|]. intros j Hj.
    unfold mark_solved_at, store_solution. simpl. by rewrite list_lookup_insert_ne.
Qed.

Lemma get_flaws_loop_flaws_on_open_entries l flaws c flaws' c' :
  get_flaws_loop opts task l flaws c = Returns (flaws', c') →
  NoDup l →
  Forall (fun j => Z.of_nat j <= INT_MAX) l →
  Forall (fun f => (∃ e, live_entry c (solution_index f) e
                         ∧ is_solved e = false ∧ solution_exists e = true)
                   ∧ Z.to_nat (solution_index f) ∉ l) flaws →
  Forall (fun f => ∃ e, live_entry c' (solution_index f) e
                        ∧ is_solved e = false ∧ solution_exists e = true) flaws'.
Proof.
  revert flaws c.
  induction l as [|i l IH]; intros flaws c Hrun Hnodup Hmax Hflaws; simpl in Hrun.
  - unfold mret, Outcome_ret in Hrun. inversion Hrun; subst.
    eapply Forall_impl; [done|]. by intros f [Hf _].
  - apply NoDup_cons in Hnodup as [Hi Hnodup].
    apply Forall_cons in Hmax as [Himax Hmax].
    assert (Forall (fun f => (∃ e, live_entry c (solution_index f) e
                                   ∧ is_solved e = false ∧ solution_exists e = true)
                             ∧ Z.to_nat (solution_index f) ∉ l) flaws) as Hflaws'.
    { eapply Forall_impl; [done|]. intros f [Hf Hnot]. split; [done|].
      intros Hin. apply Hnot. by apply elem_of_cons; right. }
    destruct (solutions c !! i) as [[e|]|] eqn:Hslot; try done; [|by eapply IH].
    destruct (is_solved e) eqn:Hsolved; [by eapply IH|].
    destruct (solution_exists e) eqn:Hexists; simpl in Hrun; [|done].
    destruct (apply_wildcard_plan _ _ _ _ _) as [[fl c1]| | | | |] eqn:Happly; try done.
    pose proof (apply_wildcard_plan_flaw_indices _ _ _ _ _ _ _ Happly) as Hidx.
    destruct (apply_wildcard_plan_slots _ _ _ _ _ Happly) as [Hsame Hother].
    rewrite static_cast_int_small in Hidx, Hother by done.
    rewrite Nat2Z.id in Hother.
    simpl in Hrun. destruct (negb (concrete_solution_index c1 =? -1)).
    + destruct (assert (concrete_solution_index c1 =? static_cast_int i));
        simpl in *; try done.
      destruct (assert (bool_decide (fl = []))); simpl in *; try done.
      unfold mret, Outcome_ret in Hrun. by inversion Hrun; subst.
    + eapply IH; try done. apply Forall_app. split.
      * eapply Forall_impl; [exact Hflaws|]. intros f [(e0 & [Hpos Hlive] & Hf) Hnot].
        split.
        -- exists e0. split; [split; [done|]|done]. rewrite Hother; [done|].
           intros Heq. apply Hnot. rewrite Heq. by apply elem_of_cons; left.
        -- intros Hin. apply Hnot. by apply elem_of_cons; right.
      * destruct fl as [|f0 fl]; [done|].
        rewrite (Hsame ltac:(done)).
        eapply Forall_impl; [exact Hidx|]. intros f Hf. simpl in Hf. rewrite Hf.
        rewrite Nat2Z.id. split; [|done].
        exists e. split; [split; [lia|]|done]. by rewrite Nat2Z.id.
Qed.

(** X3.  In a collection of fewer than 2^31 slots, every flaw that flaw
    extraction reports is on an entry that is live, not marked as solved and
    has an abstract solution, in the collection as flaw extraction leaves
    it. *)
Theorem get_flaws_reports_open_entries c flaws c' :
  Z.of_nat (length (solutions c)) <= INT_MAX →
  get_flaws opts task c = Returns (flaws, c') →
  Forall (fun f => ∃ e, live_entry c' (solution_index f) e
                        ∧ is_solved e = false ∧ solution_exists e = true) flaws.
Proof.
  intros Hlen Hrun.
  apply (get_flaws_loop_flaws_on_open_entries _ _ _ _ _ Hrun).
  - apply NoDup_ListNoDup, seq_NoDup.
  - apply Forall_forall. intros j Hj. apply list_elem_of_In, in_seq in Hj. lia.
  - done.
Qed.

(** A pass that starts with [concrete_solution_index = -1] returns or
    exits with [SEARCH_UNSOLVABLE]; when it returns with the index set, no
    flaw comes back, nothing is blacklisted and the index is that of a live
    entry whose plan solves the concrete task. *)
Lemma get_flaws_loop_regular l flaws c :
  concrete_solution_index c = -1 →
  Forall (fun j => Z.of_nat j <= INT_MAX ∧ (j < length (solutions c))%nat) l →
  match get_flaws_loop opts task l flaws c with
  | Returns (flaws', c') =>
      concrete_solution_index c' = -1
      ∨ (flaws' = [] ∧ global_blacklist c' = ∅
         ∧ ∃ e, live_entry c' (concrete_solution_index c') e
                ∧ solves_concrete_task task ∅ (concrete_solution_index c') e)
  | ExitWith code => code = SEARCH_UNSOLVABLE
  | _ => False
  end.
Proof.
  revert flaws c.
  induction l as [|i l IH]; intros flaws c Hidx Hrange; simpl; [by left|].
  apply Forall_cons in Hrange as [[Himax Hilt] Hrange].
  destruct (lookup_lt_is_Some_2 _ _ Hilt) as [slot Hslot]. rewrite Hslot.
  destruct slot as [e|]; [|by apply IH].
  destruct (is_solved e); [by apply IH|].
  destruct (solution_exists e); simpl; [|done].
  assert (live_entry c (static_cast_int i) e) as Hlive.
  { rewrite static_cast_int_small by done. split; [lia|]. by rewrite Nat2Z.id. }
  unfold apply_wildcard_plan. rewrite (solution_at_live _ _ _ Hlive). simpl.
  pose proof (conclude_plan_cases (static_cast_int i) e
    (execute_plan task (global_blacklist c) e (static_cast_int i) (get_plan e) []
       (get_initial_state task)).1
    (execute_plan task (global_blacklist c) e (static_cast_int i) (get_plan e) []
       (get_initial_state task)).2 c) as Hcases.
  destruct (execute_plan task (global_blacklist c) e (static_cast_int i) (get_plan e) []
              (get_initial_state task)) as [fl s] eqn:Hexec.
  simpl in Hcases. unfold mret at 1, Outcome_ret at 1. simpl.
  destruct (conclude_plan opts task (static_cast_int i) e fl s c) as [fl1 c1].
  simpl in *.
  destruct Hcases as [[-> _]|[(-> & Hgoal & Hbl & Heq)|(-> & Heq)]].
  - rewrite Hidx. simpl. by apply IH.
  - injection Heq as -> ->. simpl.
    rewrite static_cast_int_small by done.
    destruct (Z.eqb_spec (Z.of_nat i) (-1)); [lia|]. simpl.
    rewrite (assert_true (Z.of_nat i =? Z.of_nat i)) by apply Z.eqb_refl. simpl.
    rewrite (assert_true true) by done.
    simpl. right. split; [done|]. split; [done|].
    exists e. rewrite static_cast_int_small in Hlive, Hexec by done.
    split; [done|]. unfold solves_concrete_task.
    rewrite <- Hbl, Hexec. done.
  - injection Heq as -> ->. simpl. rewrite Hidx. simpl. apply IH; [done|].
    eapply Forall_impl; [done|]. intros j [? ?]. split; [done|].
    unfold mark_solved_at, store_solution. simpl. by rewrite length_insert.
Qed.

(** X4.  Flaw extraction on a collection of fewer than 2^31 slots whose
    [concrete_solution_index] is -1 never fails an assertion and never
    reads a missing entry: it returns, or exits with [SEARCH_UNSOLVABLE].
    When it returns, either the index is still -1, or no flaw is reported,
    the blacklist is empty and the index is that of a live entry whose
    plan solves the concrete task. *)
Theorem get_flaws_is_safe c :
  concrete_solution_index c = -1 →
  Z.of_nat (length (solutions c)) <= INT_MAX →
  ends_regularly (get_flaws opts task c)
  ∧ ∀ flaws c',
      get_flaws opts task c = Returns (flaws, c') →
      concrete_solution_index c' = -1
      ∨ (flaws = [] ∧ global_blacklist c' = ∅
         ∧ ∃ e, live_entry c' (concrete_solution_index c') e
                ∧ solves_concrete_task task ∅ (concrete_solution_index c') e).
Proof.
  intros Hidx Hlen.
  pose proof (get_flaws_loop_regular (seq 0 (length (solutions c))) [] c Hidx) as Hreg.
  unfold get_flaws.
  destruct (get_flaws_loop _ _ _ _ _) as [[fl c1]|code| | | |].
  - split; [done|]. intros flaws c' [= <- <-]. apply Hreg.
    apply Forall_forall. intros j Hj. apply list_elem_of_In, in_seq in Hj. lia.
  - split; [done|]. done.
  - exfalso. apply Hreg.
    apply Forall_forall. intros j Hj. apply list_elem_of_In, in_seq in Hj. lia.
  - exfalso. apply Hreg.
    apply Forall_forall. intros j Hj. apply list_elem_of_In, in_seq in Hj. lia.
  - exfalso. apply Hreg.
    apply Forall_forall. intros j Hj. apply list_elem_of_In, in_seq in Hj. lia.
  - exfalso. apply Hreg.
    apply Forall_forall. intros j Hj. apply list_elem_of_In, in_seq in Hj. lia.
Qed.

(** ** A concrete solution is a plan of the concrete task *)

Lemma applicable_op_is_applicable solution current a :
  applicable_op task ∅ solution current a = true →
  is_applicable current (concrete_operator task solution a) = true.
Proof.
  unfold applicable_op, violated_preconditions, is_applicable.
  intros Happ. apply bool_decide_eq_true_1, fmap_nil_inv in Happ.
  apply forallb_forall. intros p Hp. apply Z.eqb_eq.
  destruct (decide (current (fact_var p) = fact_value p)) as [|Hne]; [done|].
  exfalso. apply (filter_nil_not_elem_of _ _ p Happ).
  - split; [apply not_elem_of_empty | done].
  - by apply list_elem_of_In.
Qed.

Lemma execute_plan_is_applicable solution index plan current s :
  execute_plan task ∅ solution index plan [] current = ([], s) →
  ∃ choice,
    picks_from choice plan
    ∧ apply_operators task current (concrete_operator task solution <$> choice) = Some s
    ∧ (Forall (fun equivalent_ops => equivalent_ops ≠ []) plan →
       length choice = length plan).
Proof.
  revert current.
  induction plan as [|ops plan IH]; intros current Hrun.
  - exists []. simpl in Hrun. injection Hrun as <-.
    split; [constructor|]. split; done.
  - simpl in Hrun. rewrite try_equivalent_ops_spec in Hrun.
    destruct (find _ ops) as [a|] eqn:Hfind.
    + apply find_some in Hfind as [Hin Happ].
      destruct (IH _ Hrun) as (choice & Hpicks & Hops & Hfull).
      exists (a :: choice). split; [|split].
      * unfold picks_from. simpl. constructor; [by apply list_elem_of_In | done].
      * simpl. by rewrite (applicable_op_is_applicable _ _ _ Happ).
      * intros Hsteps. apply Forall_cons in Hsteps as [_ Hsteps].
        simpl. by rewrite Hfull.
    + exists []. injection Hrun as Hnone <-. split; [constructor|]. split; [done|].
      intros Hsteps. apply Forall_cons in Hsteps as [Hops _]. exfalso.
      destruct ops as [|a ops]; [done|].
      simpl in Hfind. destruct (applicable_op task ∅ solution current a) eqn:Happ; [done|].
      unfold flaws_on, violated_in_class in Hnone. simpl in Hnone.
      apply fmap_nil_inv, app_eq_nil in Hnone as [Hnone _].
      unfold applicable_op in Happ. by rewrite Hnone in Happ.
Qed.

(** X5.  When the projection of the plan of an entry from the initial
    state changes [concrete_solution_index], the task is solved indeed: one
    operator can be picked from each of the first steps of the plan of
    the entry such that the concrete operators behind them are applicable
    one after the other from the initial state, with all their
    preconditions, and lead to a goal state.  When no step of the plan is
    empty, these first steps are all the steps of the plan. *)
Theorem concrete_solution_is_a_plan index c flaws c' :
  apply_wildcard_plan opts task index (get_initial_state task) c = Returns (flaws, c') →
  concrete_solution_index c' ≠ concrete_solution_index c →
  ∃ e choice,
    live_entry c index e
    ∧ picks_from choice (get_plan e)
    ∧ is_concrete_plan task (concrete_operator task e <$> choice)
    ∧ (Forall (fun equivalent_ops => equivalent_ops ≠ []) (get_plan e) →
       length choice = length (get_plan e)).
Proof.
  intros Hret Hchanged.
  apply apply_wildcard_plan_returns in Hret as (e & Hlive & Heq).
  destruct (execute_plan task (global_blacklist c) e index (get_plan e) []
              (get_initial_state task)) as [fl s] eqn:Hexec.
  destruct (conclude_plan_cases index e fl s c)
    as [[Hc _]|[(Hfl & Hgoal & Hbl & Hr)|(_ & Hr)]]; simpl in *;
    rewrite <- Heq in *; simpl in *.
  - by subst c'.
  - subst fl. rewrite Hbl in Hexec.
    destruct (execute_plan_is_applicable _ _ _ _ _ Hexec)
      as (choice & Hpicks & Hops & Hfull).
    exists e, choice. split; [done|]. split; [done|]. split; [by exists s | done].
  - injection Hr as _ ->. done.
Qed.

(** ** When flaw extraction exits *)

Lemma get_flaws_loop_exit_entry l flaws c code :
  get_flaws_loop opts task l flaws c = ExitWith code →
  ∃ i e, solutions c !! i = Some (Some e)
         ∧ is_solved e = false ∧ solution_exists e = false.
Proof.
  revert flaws c. induction l as [|i l IH]; intros flaws c Hrun; simpl in Hrun.
  - done.
  - destruct (solutions c !! i) as [[e|]|] eqn:Hslot; try done; [|by eapply IH].
    destruct (is_solved e) eqn:Hsolved; [by eapply IH|].
    destruct (solution_exists e) eqn:Hexists; simpl in Hrun; [|by exists i, e].
    destruct (apply_wildcard_plan _ _ _ _ _) as [[fl c1]|code'| | | |] eqn:Happly;
      try done.
    + apply only_marks_solved_apply in Happly as (_ & _ & _ & _ & _ & _ & Hslots).
      simpl in Hrun.
      assert (∃ i' e', solutions c1 !! i' = Some (Some e')
                       ∧ is_solved e' = false ∧ solution_exists e' = false)
        as (i' & e' & Hslot' & Hsolved' & Hexists').
      { destruct (negb (concrete_solution_index c1 =? -1)); [|by eapply IH].
        unfold assert in Hrun.
        destruct (NDEBUG || (concrete_solution_index c1 =? static_cast_int i));
          simpl in Hrun; [|done].
        destruct (NDEBUG || bool_decide (fl = [])); simpl in Hrun; [|done].
        unfold mret, Outcome_ret in Hrun. inversion Hrun. }
      exists i', e'. destruct (Hslots i') as [Hsame|(e0 & _ & Hmarked)].
      * by rewrite <- Hsame.
      * rewrite Hmarked in Hslot'. injection Hslot' as <-. done.
    + by destruct (exits_only_apply_wildcard_plan opts task (fun _ => False)
                     (static_cast_int i) (get_initial_state task) c code').
Qed.

(** X8.  Flaw extraction exits only as unsolvable, and only when the
    collection holds an entry that is not marked as solved and has no
    abstract solution. *)
Theorem get_flaws_exit_needs_unsolvable_entry c code :
  get_flaws opts task c = ExitWith code →
  code = SEARCH_UNSOLVABLE
  ∧ ∃ i e, live_entry c i e ∧ is_solved e = false ∧ solution_exists e = false.
Proof.
  intros Hrun. split.
  - by apply (exits_only_get_flaws_loop opts task _ _ _ _ Hrun).
  - apply get_flaws_loop_exit_entry in Hrun as (i & e & Hslot & Hsolved & Hexists).
    exists (Z.of_nat i), e. split; [|done]. split; [lia|]. by rewrite Nat2Z.id.
Qed.

(** ** What a refinement changes *)

(** The three ways [handle_flaw] can return. *)
Lemma handle_flaw_shapes flaw c c' :
  handle_flaw opts task flaw c = Returns c' →
  c' = blacklist_var (variable flaw) c
  ∨ (∃ m, solution_lookup c !! variable flaw = Some m
          ∧ merge_patterns opts task (solution_index flaw) m c = Returns c')
  ∨ (solution_lookup c !! variable flaw = None
     ∧ add_variable_to_pattern opts task (solution_index flaw) (variable flaw) c
       = Returns c').
Proof.
  unfold handle_flaw, try_add_var. intros Hret.
  destruct (solution_lookup c !! variable flaw) as [m|] eqn:Hlk.
  - destruct (assert (negb (m =? solution_index flaw))); simpl in Hret; try done.
    destruct (assert_not_null c m); simpl in Hret; try done.
    destruct (can_merge_patterns _ _ _ _) as [[|]| | | | |]; simpl in Hret; try done.
    + destruct (merge_patterns _ _ _ _ _) as [c1| | | | |] eqn:Hmerge;
        simpl in Hret; try done.
      unfold mret, Outcome_ret in Hret. injection Hret as <-.
      right. left. by exists m.
    + unfold mret, Outcome_ret in Hret. injection Hret as <-. by left.
  - destruct (can_add_variable_to_pattern _ _ _ _ _) as [[|]| | | | |];
      simpl in Hret; try done.
    + destruct (add_variable_to_pattern _ _ _ _ _) as [c1| | | | |] eqn:Hadd;
        simpl in Hret; try done.
      unfold mret, Outcome_ret in Hret. injection Hret as <-.
      right. right. done.
    + unfold mret, Outcome_ret in Hret. injection Hret as <-. by left.
Qed.

(** What [merge_patterns] returns. *)
Lemma merge_patterns_shape k m c c' :
  merge_patterns opts task k m c = Returns c' →
  ∃ ek em,
    live_entry c k ek ∧ live_entry c m em
    ∧ let built :=
        make_solution task (sort_pattern (get_pattern ek ++ get_pattern em)) (rng c)
          (wildcard_plans opts) in
      rng c' = built.2
      ∧ remaining_goals c' = remaining_goals c
      ∧ global_blacklist c' = global_blacklist c
      ∧ solutions c' =
          <[Z.to_nat m := None]> (<[Z.to_nat k := Some built.1]> (solutions c))
      ∧ solution_lookup c' = redirect_lookup (get_pattern em) k (solution_lookup c)
      ∧ collection_size c' =
          int_add (int_sub (int_sub (collection_size c) (get_pdb_size ek))
                     (get_pdb_size em)) (get_pdb_size built.1)
      ∧ concrete_solution_index c' = concrete_solution_index c.
Proof.
  unfold merge_patterns.
  destruct (solution_at c k) as [ek| | | | |] eqn:Hk; simpl; try done.
  destruct (solution_at c m) as [em| | | | |] eqn:Hm; simpl; try done.
  apply solution_at_returns in Hk. apply solution_at_returns in Hm.
  cbv zeta. destruct (make_solution _ _ _ _) as [merged r] eqn:Hbuilt.
  unfold mret, Outcome_ret. intros [= <-]. exists ek, em.
  rewrite Hbuilt. split; [done|]. split; [done|]. by repeat split.
Qed.

(** What [add_variable_to_pattern] returns. *)
Lemma add_variable_to_pattern_shape k v c c' :
  add_variable_to_pattern opts task k v c = Returns c' →
  ∃ ek,
    live_entry c k ek
    ∧ let built :=
        make_solution task (sort_pattern (get_pattern ek ++ [v])) (rng c)
          (wildcard_plans opts) in
      rng c' = built.2
      ∧ remaining_goals c' = erase_first v (remaining_goals c)
      ∧ global_blacklist c' = global_blacklist c
      ∧ solutions c' = <[Z.to_nat k := Some built.1]> (solutions c)
      ∧ solution_lookup c' = <[v := k]> (solution_lookup c)
      ∧ collection_size c' =
          int_add (int_sub (collection_size c) (get_pdb_size ek)) (get_pdb_size built.1)
      ∧ concrete_solution_index c' = concrete_solution_index c.
Proof.
  unfold add_variable_to_pattern.
  destruct (solution_at c k) as [ek| | | | |] eqn:Hk; simpl; try done.
  apply solution_at_returns in Hk.
  cbv zeta. destruct (make_solution _ _ _ _) as [extended r] eqn:Hbuilt.
  unfold mret, Outcome_ret. intros [= <-]. exists ek.
  rewrite Hbuilt. split; [done|]. by repeat split.
Qed.

(** What erasing leaves is part of the list. *)
Lemma elem_of_erase_first x y l : y ∈ erase_first x l → y ∈ l.
Proof.
  induction l as [|z l IH]; simpl; [done|].
  case_bool_decide.
  - intros Hy. by apply elem_of_cons; right.
  - intros Hy. apply elem_of_cons in Hy as [->|Hy].
    + by apply elem_of_cons; left.
    + apply elem_of_cons; right. by apply IH.
Qed.

(** X6.  A refinement never takes a variable off the blacklist and adds at
    most the variable of the flaw; it never adds a remaining goal, never
    drops a key of the lookup table, never changes the number of slots and
    never touches [concrete_solution_index]. *)
Theorem handle_flaw_frame flaw c c' :
  handle_flaw opts task flaw c = Returns c' →
  (global_blacklist c' = global_blacklist c
   ∨ global_blacklist c' = {[variable flaw]} ∪ global_blacklist c)
  ∧ (∀ v, v ∈ remaining_goals c' → v ∈ remaining_goals c)
  ∧ (∀ v, is_Some (solution_lookup c !! v) → is_Some (solution_lookup c' !! v))
  ∧ length (solutions c') = length (solutions c)
  ∧ concrete_solution_index c' = concrete_solution_index c.
Proof.
  intros Hret.
  destruct (handle_flaw_shapes _ _ _ Hret) as [->|[(m & _ & Hmerge)|[_ Hadd]]].
  - split; [by right|]. by repeat split.
  - apply merge_patterns_shape in Hmerge
      as (ek & em & _ & _ & _ & Hg & Hb & Hs & Hl & _ & Hi).
    split; [by left|]. split; [by rewrite Hg|]. split; [|split; [|done]].
    + intros v Hv. rewrite Hl, redirect_lookup_lookup. by case_bool_decide.
    + by rewrite Hs, !length_insert.
  - apply add_variable_to_pattern_shape in Hadd
      as (ek & _ & _ & Hg & Hb & Hs & Hl & _ & Hi).
    split; [by left|]. split; [|split; [|split; [|done]]].
    + intros v. rewrite Hg. apply elem_of_erase_first.
    + intros v Hv. rewrite Hl, lookup_insert. by case_decide.
    + by rewrite Hs, length_insert.
Qed.

(** X7.  A refinement repairs the flaw it was given.  On a collection that
    satisfies invariant 2, for a flaw (k, v) on a live entry k whose
    pattern does not hold v, the variable v is afterwards either
    blacklisted or in the pattern of the live entry k. *)
Theorem handle_flaw_repairs flaw c c' :
  constructor_keeps_pattern →
  lookup_consistent c →
  flaw_well_formed c flaw →
  handle_flaw opts task flaw c = Returns c' →
  variable flaw ∈ global_blacklist c'
  ∨ ∃ e, live_entry c' (solution_index flaw) e ∧ variable flaw ∈ get_pattern e.
Proof.
  intros Hctor Hinv (ek & Hk & Hnotin) Hret.
  destruct (handle_flaw_shapes _ _ _ Hret) as [->|[(m & Hlk & Hmerge)|[_ Hadd]]].
  - left. unfold blacklist_var. simpl. apply elem_of_union_l. by apply elem_of_singleton.
  - right. apply Hinv in Hlk as (em & Hm & Hin).
    assert (m ≠ solution_index flaw) as Hmk.
    { intros ->. destruct Hk as [_ Hk], Hm as [_ Hm]. congruence. }
    apply merge_patterns_shape in Hmerge
      as (ek' & em' & Hk' & Hm' & _ & _ & _ & Hs & _).
    destruct Hk as [Hkpos Hkslot], Hm as [Hmpos Hmslot],
      Hk' as [_ Hkslot'], Hm' as [_ Hmslot'].
    assert (ek' = ek) as -> by congruence. assert (em' = em) as -> by congruence.
    eexists. split; [split; [done|]|].
    + rewrite Hs, list_lookup_insert_ne by lia.
      apply list_lookup_insert_eq. by eapply lookup_lt_Some.
    + rewrite Hctor, elem_of_sort_pattern. apply elem_of_app. by right.
  - right. apply add_variable_to_pattern_shape in Hadd
      as (ek' & [Hkpos Hkslot] & _ & _ & _ & Hs & _).
    eexists. split; [split; [done|]|].
    + rewrite Hs. apply list_lookup_insert_eq. by eapply lookup_lt_Some.
    + rewrite Hctor, elem_of_sort_pattern. apply elem_of_app. right.
      by apply list_elem_of_singleton.
Qed.

(** ** Invariant 1: the collection size *)

Lemma wrap_int_add_l a b : wrap_int (wrap_int a + b) = wrap_int (a + b).
Proof.
  unfold wrap_int. f_equal.
  replace ((a + 2147483648) mod 4294967296 - 2147483648 + b + 2147483648)
    with ((a + 2147483648) mod 4294967296 + b) by lia.
  replace (a + b + 2147483648) with (a + 2147483648 + b) by lia.
  by rewrite Zplus_mod_idemp_l.
Qed.

Lemma wrap_int_sub_l a b : wrap_int (wrap_int a - b) = wrap_int (a - b).
Proof.
  replace (wrap_int a - b) with (wrap_int a + - b) by lia.
  replace (a - b) with (a + - b) by lia. apply wrap_int_add_l.
Qed.

Lemma total_pdb_size_foldr c :
  total_pdb_size c = foldr (fun slot sum => slot_size slot + sum) 0 (solutions c).
Proof.
  unfold total_pdb_size. induction (solutions c) as [|[e|] l IH]; simpl; [done| |];
    by rewrite IH.
Qed.

Lemma sizes_app (l1 l2 : list (option AbstractSolutionData)) :
  foldr (fun slot sum => slot_size slot + sum) 0 (l1 ++ l2) =
  foldr (fun slot sum => slot_size slot + sum) 0 l1
  + foldr (fun slot sum => slot_size slot + sum) 0 l2.
Proof. induction l1 as [|x l1 IH]; simpl; [done|]. rewrite IH. lia. Qed.

Lemma sizes_insert (l : list (option AbstractSolutionData)) n old new :
  l !! n = Some old →
  foldr (fun slot sum => slot_size slot + sum) 0 (<[n := new]> l) =
  foldr (fun slot sum => slot_size slot + sum) 0 l - slot_size old + slot_size new.
Proof.
  revert n. induction l as [|x l IH]; intros [|n] Hn; simpl in *; try done.
  - injection Hn as ->. lia.
  - rewrite (IH n Hn). lia.
Qed.

Lemma size_consistent_add_pattern_for_var var c :
  size_consistent c → size_consistent (add_pattern_for_var opts task var c).
Proof.
  unfold size_consistent. rewrite !total_pdb_size_foldr.
  unfold add_pattern_for_var. destruct (make_solution _ _ _ _) as [e r]. simpl.
  intros ->. rewrite sizes_app. simpl. unfold int_add.
  rewrite wrap_int_add_l. f_equal. lia.
Qed.

Lemma size_consistent_mark_solved_at index e c :
  live_entry c index e → size_consistent c → size_consistent (mark_solved_at index e c).
Proof.
  intros [_ Hslot]. unfold size_consistent. rewrite !total_pdb_size_foldr.
  unfold mark_solved_at, store_solution. simpl. intros ->.
  rewrite (sizes_insert _ _ _ _ Hslot). simpl. f_equal. lia.
Qed.

Lemma size_consistent_merge_patterns k m c c' :
  k ≠ m →
  merge_patterns opts task k m c = Returns c' →
  size_consistent c → size_consistent c'.
Proof.
  intros Hkm Hmerge.
  apply merge_patterns_shape in Hmerge
    as (ek & em & [Hkpos Hkslot] & [Hmpos Hmslot] & _ & _ & _ & Hs & _ & Hsize & _).
  unfold size_consistent. rewrite !total_pdb_size_foldr. intros Hc.
  rewrite Hsize, Hs, Hc.
  rewrite (sizes_insert _ _ (Some em)) by (by rewrite list_lookup_insert_ne by lia).
  rewrite (sizes_insert _ _ _ _ Hkslot). simpl.
  set (total := foldr _ 0 (solutions c)).
  unfold int_add, int_sub.
  rewrite (wrap_int_sub_l total), (wrap_int_sub_l (total - _)), wrap_int_add_l.
  f_equal; lia.
Qed.

Lemma size_consistent_add_variable_to_pattern k v c c' :
  add_variable_to_pattern opts task k v c = Returns c' →
  size_consistent c → size_consistent c'.
Proof.
  intros Hadd.
  apply add_variable_to_pattern_shape in Hadd
    as (ek & [Hkpos Hkslot] & _ & _ & _ & Hs & _ & Hsize & _).
  unfold size_consistent. rewrite !total_pdb_size_foldr. intros Hc.
  rewrite Hsize, Hs, Hc, (sizes_insert _ _ _ _ Hkslot). simpl.
  set (total := foldr _ 0 (solutions c)).
  unfold int_add, int_sub.
  rewrite (wrap_int_sub_l total), wrap_int_add_l. f_equal; lia.
Qed.

Lemma size_consistent_only_marks_solved c c' :
  only_marks_solved c c' → size_consistent c → size_consistent c'.
Proof.
  intros (_ & _ & _ & _ & Hsize & Hlen & Hslots).
  unfold size_consistent. rewrite !total_pdb_size_foldr, Hsize. intros ->. f_equal.
  assert (slot_size <$> solutions c' = slot_size <$> solutions c) as Hsizes.
  { apply list_eq. intros i. rewrite !list_lookup_fmap.
    destruct (Hslots i) as [->|(e & -> & ->)]; done. }
  assert (∀ l : list (option AbstractSolutionData),
            foldr (fun slot sum => slot_size slot + sum) 0 l
            = foldr Z.add 0 (slot_size <$> l)) as Hfold.
  { induction l as [|x l IH]; simpl; [done | by rewrite IH]. }
  by rewrite !Hfold, Hsizes.
Qed.

(** Invariant 1 is kept by the repair of a well-formed flaw. *)
Lemma size_consistent_handle_flaw flaw c c' :
  lookup_consistent c →
  flaw_well_formed c flaw →
  size_consistent c →
  handle_flaw opts task flaw c = Returns c' →
  size_consistent c'.
Proof.
  intros Hinv (ek & Hk & Hnotin) Hsize Hret.
  destruct (handle_flaw_shapes _ _ _ Hret) as [->|[(m & Hlk & Hmerge)|[_ Hadd]]].
  - done.
  - apply Hinv in Hlk as (em & Hm & Hin).
    apply (size_consistent_merge_patterns (solution_index flaw) m c c'); try done.
    intros <-. destruct Hk as [_ Hk], Hm as [_ Hm]. congruence.
  - by eapply size_consistent_add_variable_to_pattern.
Qed.

(** ** Sorted patterns *)

Lemma sort_pattern_sorted p : Sorted Z.le (sort_pattern p).
Proof. unfold sort_pattern. apply (Sorted_merge_sort Z.le). Qed.

(** There is one sorted arrangement of a pattern. *)
Lemma sorted_permutation_sort_pattern p q :
  Sorted Z.le p → p ≡ₚ q → p = sort_pattern q.
Proof.
  intros Hsorted Hperm. apply (Sorted_unique Z.le); [done | apply sort_pattern_sorted|].
  unfold sort_pattern. by rewrite merge_sort_Permutation.
Qed.

Lemma sort_pattern_not_nil p : p ≠ [] → sort_pattern p ≠ [].
Proof.
  unfold sort_pattern. intros Hp Hnil. apply Hp.
  apply Permutation_nil_r. rewrite <- Hnil. symmetry. apply merge_sort_Permutation.
Qed.

Lemma patterns_sorted_add_pattern_for_var var c :
  constructor_keeps_pattern →
  patterns_sorted c → patterns_sorted (add_pattern_for_var opts task var c).
Proof.
  intros Hctor Hc i e' [Hpos Hslot]. unfold add_pattern_for_var in Hslot.
  pose proof (Hctor task [var] (rng c) (wildcard_plans opts)) as Hpat.
  destruct (make_solution _ _ _ _) as [e r]. simpl in *.
  apply lookup_app_Some in Hslot as [Hslot|[_ Hslot]].
  - by apply (Hc i).
  - apply list_lookup_singleton_Some in Hslot as [_ [= <-]].
    rewrite Hpat. split; [repeat constructor | done].
Qed.

Lemma patterns_sorted_handle_flaw flaw c c' :
  constructor_keeps_pattern →
  patterns_sorted c →
  handle_flaw opts task flaw c = Returns c' →
  patterns_sorted c'.
Proof.
  intros Hctor Hc Hret.
  destruct (handle_flaw_shapes _ _ _ Hret) as [->|[(m & _ & Hmerge)|[_ Hadd]]].
  - done.
  - apply merge_patterns_shape in Hmerge
      as (ek & em & Hk & _ & _ & _ & _ & Hs & _).
    intros i e [Hpos Hslot]. rewrite Hs in Hslot.
    apply list_lookup_insert_Some in Hslot as [(_ & [=] & _)|[_ Hslot]].
    apply list_lookup_insert_Some in Hslot as [(_ & [= <-] & _)|[_ Hslot]].
    + rewrite Hctor. split; [apply sort_pattern_sorted|].
      apply sort_pattern_not_nil.
      destruct (Hc _ _ Hk) as [_ Hne]. by destruct (get_pattern ek).
    + by apply (Hc i).
  - apply add_variable_to_pattern_shape in Hadd as (ek & Hk & _ & _ & _ & Hs & _).
    intros i e [Hpos Hslot]. rewrite Hs in Hslot.
    apply list_lookup_insert_Some in Hslot as [(_ & [= <-] & _)|[_ Hslot]].
    + rewrite Hctor. split; [apply sort_pattern_sorted|].
      apply sort_pattern_not_nil. by destruct (get_pattern ek).
    + by apply (Hc i).
Qed.

Lemma patterns_sorted_only_marks_solved c c' :
  only_marks_solved c c' → patterns_sorted c → patterns_sorted c'.
Proof.
  intros (_ & _ & _ & _ & _ & _ & Hslots) Hc i e [Hpos Hslot].
  destruct (Hslots (Z.to_nat i)) as [Hsame|(e0 & H0 & H1)].
  - rewrite Hsame in Hslot. by apply (Hc i).
  - rewrite H1 in Hslot. injection Hslot as <-. simpl. by apply (Hc i).
Qed.

Lemma patterns_sorted_main_loop fuel ticks counter c c' :
  constructor_keeps_pattern →
  patterns_sorted c →
  main_loop opts task fuel ticks counter c = Returns c' →
  patterns_sorted c'.
Proof.
  intros Hctor. revert ticks counter c.
  induction fuel as [|fuel IH]; intros ticks counter c Hc Hrun; simpl in Hrun; [done|].
  destruct (is_expired ticks); [by inversion Hrun; subst|].
  destruct (counter =? max_refinements opts); [by inversion Hrun; subst|].
  destruct (get_flaws opts task c) as [[fl c1]| | | | |] eqn:Hflaws; try done.
  simpl in Hrun.
  assert (patterns_sorted c1) as Hc1.
  { eapply patterns_sorted_only_marks_solved; [|done].
    by eapply only_marks_solved_get_flaws_loop. }
  destruct (bool_decide (fl = [])).
  - destruct (negb _); simpl in Hrun.
    + destruct (assert _); simpl in Hrun; try done. by inversion Hrun; subst.
    + by inversion Hrun; subst.
  - destruct (is_expired (S ticks)); [by inversion Hrun; subst|].
    destruct (refine opts task fl c1) as [c2| | | | |] eqn:Href; try done.
    simpl in Hrun. eapply IH; [|done].
    unfold refine in Href.
    destruct (assert (negb (bool_decide (fl = [])))); simpl in Href; try done.
    destruct (rng_random _ _) as [i r].
    destruct (flaw_at fl i) as [flaw| | | | |]; simpl in Href; try done.
    by eapply (patterns_sorted_handle_flaw flaw (set_rng r c1)).
Qed.

(** ** The remaining goals *)

Lemma erase_first_NoDup x l :
  NoDup l → NoDup (erase_first x l) ∧ x ∉ erase_first x l.
Proof.
  induction l as [|y l IH]; intros Hnodup; simpl.
  - split; [constructor | apply not_elem_of_nil].
  - apply NoDup_cons in Hnodup as [Hy Hl]. case_bool_decide as Hyx.
    + subst. done.
    + destruct (IH Hl) as [IH1 IH2]. split.
      * apply NoDup_cons. split; [|done]. intros Hin. apply Hy.
        by eapply elem_of_erase_first.
      * intros Hin. apply elem_of_cons in Hin as [->|Hin]; done.
Qed.

Lemma erase_first_keeps_others x y l : y ≠ x → y ∈ l → y ∈ erase_first x l.
Proof.
  intros Hyx. induction l as [|z l IH]; simpl; [done|].
  intros Hin. apply elem_of_cons in Hin as [->|Hin].
  - rewrite bool_decide_eq_false_2 by done. by apply elem_of_cons; left.
  - case_bool_decide; [done|]. apply elem_of_cons; right. by apply IH.
Qed.

Lemma erase_first_not_elem x l : x ∉ l → erase_first x l = l.
Proof.
  induction l as [|y l IH]; simpl; [done|]. intros Hx.
  apply not_elem_of_cons in Hx as [Hxy Hx].
  rewrite bool_decide_eq_false_2 by done. by rewrite IH.
Qed.

(** X9.  [update_goals] does what its comment says: it removes the
    variable from the remaining goals if it is there, and changes nothing
    otherwise.  When the remaining goals are pairwise different, the
    variable is gone afterwards and every other goal is kept. *)
Theorem update_goals_removes var c :
  (var ∉ remaining_goals c → update_goals var c = c)
  ∧ (NoDup (remaining_goals c) →
     NoDup (remaining_goals (update_goals var c))
     ∧ ∀ v, (v ∈ remaining_goals (update_goals var c))
            ↔ (v ∈ remaining_goals c ∧ v ≠ var)).
Proof.
  split.
  - intros Hvar. unfold update_goals, set_remaining_goals.
    rewrite erase_first_not_elem by done. by destruct c.
  - intros Hnodup. simpl. destruct (erase_first_NoDup var _ Hnodup) as [Hn Hvar].
    split; [done|]. intros v. split.
    + intros Hv. split; [by eapply elem_of_erase_first|]. by intros ->.
    + intros [Hv Hne]. by apply erase_first_keeps_others.
Qed.

Lemma goals_unplaced_handle_flaw flaw c c' :
  lookup_consistent c →
  goals_unplaced c →
  handle_flaw opts task flaw c = Returns c' →
  goals_unplaced c'.
Proof.
  intros Hinv [Hnodup Hfree] Hret.
  destruct (handle_flaw_shapes _ _ _ Hret) as [->|[(m & Hlk & Hmerge)|[_ Hadd]]].
  - done.
  - apply merge_patterns_shape in Hmerge
      as (ek & em & _ & Hm & _ & Hg & _ & _ & Hl & _).
    split; [by rewrite Hg|]. rewrite Hg, Hl. intros v Hv.
    rewrite redirect_lookup_lookup. case_bool_decide as Hin; [|by apply Hfree].
    assert (solution_lookup c !! v = Some m) as Hvm by (apply Hinv; by exists em).
    rewrite (Hfree v Hv) in Hvm. done.
  - apply add_variable_to_pattern_shape in Hadd
      as (ek & _ & _ & Hg & _ & _ & Hl & _).
    destruct (erase_first_NoDup (variable flaw) _ Hnodup) as [Hn Hvar].
    split; [by rewrite Hg|]. rewrite Hg, Hl. intros v Hv.
    rewrite lookup_insert_ne by (by intros <-).
    apply Hfree. by eapply elem_of_erase_first.
Qed.

(** X10.  A flaw on a variable that is still a remaining goal never leads
    to a merge: the variable is in no pattern yet, so the flawed entry is
    extended by it, after which the variable is no remaining goal any more
    and the lookup table points to the flawed entry; or, when the size test
    refuses, the variable is blacklisted. *)
Theorem goal_flaw_extends flaw c c' :
  goals_unplaced c →
  variable flaw ∈ remaining_goals c →
  handle_flaw opts task flaw c = Returns c' →
  (c' = blacklist_var (variable flaw) c
   ∧ can_add_variable_to_pattern opts task (solution_index flaw) (variable flaw) c
     = Returns false)
  ∨ (add_variable_to_pattern opts task (solution_index flaw) (variable flaw) c
     = Returns c'
     ∧ (variable flaw ∉ remaining_goals c')
     ∧ solution_lookup c' !! variable flaw = Some (solution_index flaw)).
Proof.
  intros [Hnodup Hfree] Hgoal Hret.
  pose proof (Hfree _ Hgoal) as Hlk.
  unfold handle_flaw, try_add_var in Hret. rewrite Hlk in Hret.
  destruct (can_add_variable_to_pattern _ _ _ _ _) as [[|]| | | | |];
    simpl in Hret; try done.
  - destruct (add_variable_to_pattern _ _ _ _ _) as [c1| | | | |] eqn:Hadd;
      simpl in Hret; try done.
    unfold mret, Outcome_ret in Hret. injection Hret as <-. right.
    split; [done|].
    apply add_variable_to_pattern_shape in Hadd
      as (ek & _ & _ & Hg & _ & _ & Hl & _).
    rewrite Hg, Hl. split; [by apply erase_first_NoDup | by rewrite lookup_insert_eq].
  - unfold mret, Outcome_ret in Hret. injection Hret as <-. by left.
Qed.

(** ** What seeding builds *)

Lemma seed_all_goals_keeps (P : Cegar → Prop) fuel c :
  (∀ c g, P c → P (set_remaining_goals g c)) →
  (∀ c v, P c → P (add_pattern_for_var opts task v c)) →
  P c → P (seed_all_goals opts task fuel c).
Proof.
  intros Hgoals Hadd. revert c.
  induction fuel as [|fuel IH]; intros c Hc; simpl; [done|].
  destruct (pop_back (remaining_goals c)) as [[rest var]|]; [|done].
  by apply IH, Hadd, Hgoals.
Qed.

Lemma live_patterns_add_pattern_for_var var c :
  constructor_keeps_pattern →
  live_patterns (add_pattern_for_var opts task var c) = live_patterns c ++ [[var]].
Proof.
  intros Hctor. unfold live_patterns, add_pattern_for_var.
  pose proof (Hctor task [var] (rng c) (wildcard_plans opts)) as Hpat.
  destruct (make_solution _ _ _ _) as [e r]. simpl in *.
  rewrite omap_app. simpl. by rewrite Hpat.
Qed.

Lemma live_patterns_seed_all_goals fuel c :
  constructor_keeps_pattern →
  (length (remaining_goals c) <= fuel)%nat →
  live_patterns (seed_all_goals opts task fuel c) =
    live_patterns c ++ ((fun v => [v]) <$> reverse (remaining_goals c)).
Proof.
  intros Hctor. revert c.
  induction fuel as [|fuel IH]; intros c Hlen; simpl.
  - destruct (remaining_goals c); [by rewrite app_nil_r | simpl in Hlen; lia].
  - destruct (pop_back (remaining_goals c)) as [[rest var]|] eqn:Hpop.
    + apply pop_back_Some in Hpop as Hrest. rewrite Hrest in *.
      rewrite length_app in Hlen. simpl in Hlen.
      rewrite IH.
      * rewrite add_pattern_for_var_remaining_goals. simpl.
        rewrite live_patterns_add_pattern_for_var by done.
        rewrite reverse_snoc. simpl. by rewrite <- app_assoc.
      * rewrite add_pattern_for_var_remaining_goals. simpl. lia.
    + apply pop_back_None in Hpop. rewrite Hpop. simpl. by rewrite app_nil_r.
Qed.

Lemma live_patterns_seeding c c' :
  constructor_keeps_pattern →
  solutions c = [] →
  generate_trivial_solution_collection opts task c = Returns c' →
  live_patterns c' = (fun v => [v]) <$> seeded_goals opts (remaining_goals c).
Proof.
  intros Hctor Hsols. unfold generate_trivial_solution_collection, seeded_goals.
  destruct (assert (negb (bool_decide (remaining_goals c = [])))); simpl; try done.
  assert (live_patterns c = []) as Hnone by (unfold live_patterns; by rewrite Hsols).
  destruct (initial opts).
  - destruct (assert (negb (given_goal opts =? -1))); simpl; try done.
    unfold mret, Outcome_ret. intros [= <-].
    rewrite live_patterns_add_pattern_for_var by done.
    unfold live_patterns. simpl. by rewrite Hsols.
  - destruct (pop_back (remaining_goals c)) as [[rest var]|] eqn:Hpop; [|done].
    unfold mret, Outcome_ret. intros [= <-].
    unfold pop_back in Hpop.
    destruct (last (remaining_goals c)) as [x|]; [|done]. injection Hpop as _ ->.
    rewrite live_patterns_add_pattern_for_var by done.
    unfold live_patterns. simpl. by rewrite Hsols.
  - unfold mret, Outcome_ret. intros [= <-].
    by rewrite live_patterns_seed_all_goals, Hnone.
Qed.

(** X11.  Seeding an object without entries builds singleton patterns and
    nothing else.  With [ALL_GOALS] there is one pattern for every
    remaining goal, in reverse order, and no goal remains; with
    [RANDOM_GOAL] the one pattern is the last of the remaining goals, which
    is taken off the list; with [GIVEN_GOAL] the one pattern is
    [given_goal], which is erased from the list. *)
Theorem seeding_builds_singletons c c' :
  constructor_keeps_pattern →
  solutions c = [] →
  generate_trivial_solution_collection opts task c = Returns c' →
  match initial opts with
  | ALL_GOALS =>
      live_patterns c' = (fun v => [v]) <$> reverse (remaining_goals c)
      ∧ remaining_goals c' = []
  | RANDOM_GOAL =>
      ∃ var, remaining_goals c = remaining_goals c' ++ [var]
             ∧ live_patterns c' = [[var]]
  | GIVEN_GOAL =>
      live_patterns c' = [[given_goal opts]]
      ∧ remaining_goals c' = erase_first (given_goal opts) (remaining_goals c)
  end.
Proof.
  intros Hctor Hsols Hseed.
  pose proof (live_patterns_seeding _ _ Hctor Hsols Hseed) as Hpat.
  unfold seeded_goals in Hpat.
  unfold generate_trivial_solution_collection in Hseed.
  destruct (assert (negb (bool_decide (remaining_goals c = []))));
    simpl in Hseed; try done.
  destruct (initial opts).
  - destruct (assert (negb (given_goal opts =? -1))); simpl in Hseed; try done.
    unfold mret, Outcome_ret in Hseed. injection Hseed as <-.
    split; [done|]. by rewrite add_pattern_for_var_remaining_goals.
  - destruct (pop_back (remaining_goals c)) as [[rest var]|] eqn:Hpop; [|done].
    unfold mret, Outcome_ret in Hseed. injection Hseed as <-. exists var.
    rewrite add_pattern_for_var_remaining_goals. simpl.
    apply pop_back_Some in Hpop as Hrest. split; [done|].
    rewrite Hpat, Hrest, last_snoc. done.
  - unfold mret, Outcome_ret in Hseed. injection Hseed as <-.
    split; [done | by apply seed_all_goals_remaining_goals].
Qed.

Lemma goals_unplaced_add_pattern_for_var var c :
  goals_unplaced c → var ∉ remaining_goals c →
  goals_unplaced (add_pattern_for_var opts task var c).
Proof.
  intros [Hnodup Hfree] Hvar.
  destruct (add_pattern_for_var_fields opts task var c) as [_ Hother].
  unfold goals_unplaced. rewrite add_pattern_for_var_remaining_goals.
  split; [done|]. intros v Hv. rewrite Hother; [by apply Hfree | by intros ->].
Qed.

Lemma has_live_entry_add_pattern_for_var var c :
  has_live_entry (add_pattern_for_var opts task var c).
Proof.
  unfold add_pattern_for_var. destruct (make_solution _ _ _ _) as [e r].
  exists (Z.of_nat (length (solutions c))), e. split; [lia|]. simpl.
  rewrite Nat2Z.id. by apply list_lookup_middle.
Qed.

Lemma size_consistent_seeding c c' :
  size_consistent c →
  generate_trivial_solution_collection opts task c = Returns c' →
  size_consistent c'.
Proof.
  intros Hc. unfold generate_trivial_solution_collection.
  destruct (assert (negb (bool_decide (remaining_goals c = [])))); simpl; try done.
  destruct (initial opts).
  - destruct (assert (negb (given_goal opts =? -1))); simpl; try done.
    unfold mret, Outcome_ret. intros [= <-].
    by apply size_consistent_add_pattern_for_var.
  - destruct (pop_back (remaining_goals c)) as [[rest var]|]; [|done].
    unfold mret, Outcome_ret. intros [= <-].
    by apply size_consistent_add_pattern_for_var.
  - unfold mret, Outcome_ret. intros [= <-].
    apply (seed_all_goals_keeps size_consistent); [done| |done].
    intros. by apply size_consistent_add_pattern_for_var.
Qed.

Lemma patterns_sorted_seeding c c' :
  constructor_keeps_pattern →
  patterns_sorted c →
  generate_trivial_solution_collection opts task c = Returns c' →
  patterns_sorted c'.
Proof.
  intros Hctor Hc. unfold generate_trivial_solution_collection.
  destruct (assert (negb (bool_decide (remaining_goals c = [])))); simpl; try done.
  destruct (initial opts).
  - destruct (assert (negb (given_goal opts =? -1))); simpl; try done.
    unfold mret, Outcome_ret. intros [= <-].
    by apply patterns_sorted_add_pattern_for_var.
  - destruct (pop_back (remaining_goals c)) as [[rest var]|]; [|done].
    unfold mret, Outcome_ret. intros [= <-].
    by apply patterns_sorted_add_pattern_for_var.
  - unfold mret, Outcome_ret. intros [= <-].
    apply (seed_all_goals_keeps patterns_sorted); [done| |done].
    intros. by apply patterns_sorted_add_pattern_for_var.
Qed.

Lemma goals_unplaced_seeding c c' :
  goals_unplaced c →
  generate_trivial_solution_collection opts task c = Returns c' →
  goals_unplaced c'.
Proof.
  intros [Hnodup Hfree]. unfold generate_trivial_solution_collection.
  destruct (assert (negb (bool_decide (remaining_goals c = [])))); simpl; try done.
  destruct (initial opts).
  - destruct (assert (negb (given_goal opts =? -1))); simpl; try done.
    unfold mret, Outcome_ret. intros [= <-].
    destruct (erase_first_NoDup (given_goal opts) _ Hnodup) as [Hn Hgone].
    apply goals_unplaced_add_pattern_for_var; [|done].
    split; [done|]. intros v Hv. simpl. apply Hfree.
    by apply (elem_of_erase_first (given_goal opts)).
  - destruct (pop_back (remaining_goals c)) as [[rest var]|] eqn:Hpop; [|done].
    unfold mret, Outcome_ret. intros [= <-].
    apply pop_back_Some in Hpop. rewrite Hpop in Hnodup, Hfree.
    apply NoDup_app in Hnodup as (Hrest & Hdisj & _).
    apply goals_unplaced_add_pattern_for_var.
    + split; [done|]. intros v Hv. simpl. apply Hfree, elem_of_app. by left.
    + simpl. intros Hin. apply (Hdisj var Hin). by apply list_elem_of_singleton.
  - unfold mret, Outcome_ret. intros [= <-].
    unfold goals_unplaced. rewrite seed_all_goals_remaining_goals by done.
    split; [constructor|]. intros v Hv. by apply not_elem_of_nil in Hv.
Qed.

Lemma has_live_entry_seeding c c' :
  remaining_goals c ≠ [] →
  generate_trivial_solution_collection opts task c = Returns c' →
  has_live_entry c'.
Proof.
  intros Hgoals. unfold generate_trivial_solution_collection.
  destruct (assert (negb (bool_decide (remaining_goals c = [])))); simpl; try done.
  destruct (initial opts).
  - destruct (assert (negb (given_goal opts =? -1))); simpl; try done.
    unfold mret, Outcome_ret. intros [= <-].
    apply has_live_entry_add_pattern_for_var.
  - destruct (pop_back (remaining_goals c)) as [[rest var]|]; [|done].
    unfold mret, Outcome_ret. intros [= <-].
    apply has_live_entry_add_pattern_for_var.
  - unfold mret, Outcome_ret. intros [= <-].
    destruct (remaining_goals c) as [|g goals] eqn:Hg; [done|].
    cbn [length seed_all_goals]. rewrite Hg.
    destruct (pop_back (g :: goals)) as [[rest var]|] eqn:Hpop.
    + apply (seed_all_goals_keeps has_live_entry); [done|..].
      * intros. apply has_live_entry_add_pattern_for_var.
      * apply has_live_entry_add_pattern_for_var.
    + by apply pop_back_None in Hpop.
Qed.

Lemma concrete_solution_index_seeding c c' :
  generate_trivial_solution_collection opts task c = Returns c' →
  concrete_solution_index c' = concrete_solution_index c.
Proof.
  assert (∀ v c0, concrete_solution_index (add_pattern_for_var opts task v c0)
                  = concrete_solution_index c0) as Hadd.
  { intros v c0. unfold add_pattern_for_var. by destruct (make_solution _ _ _ _). }
  unfold generate_trivial_solution_collection.
  destruct (assert (negb (bool_decide (remaining_goals c = [])))); simpl; try done.
  destruct (initial opts).
  - destruct (assert (negb (given_goal opts =? -1))); simpl; try done.
    unfold mret, Outcome_ret. intros [= <-]. by rewrite Hadd.
  - destruct (pop_back (remaining_goals c)) as [[rest var]|]; [|done].
    unfold mret, Outcome_ret. intros [= <-]. by rewrite Hadd.
  - unfold mret, Outcome_ret. intros [= <-].
    apply (seed_all_goals_keeps
             (fun c0 => concrete_solution_index c0 = concrete_solution_index c));
      [done| |done].
    intros c0 v Hc0. by rewrite Hadd.
Qed.

(** X12.  Seeding an object without entries, whose remaining goals are
    pairwise different and fewer than 2^31, establishes the invariants of
    the collection: the lookup table agrees with the patterns,
    [collection_size] is the sum of the PDB sizes, no remaining goal is in
    a pattern, every pattern is sorted and not empty, and there is an
    entry.  The constructor of an entry is taken to keep the pattern it is
    built for. *)
Theorem seeding_establishes_invariants c c' :
  constructor_keeps_pattern →
  unseeded c →
  NoDup (remaining_goals c) →
  remaining_goals c ≠ [] →
  Z.of_nat (length (remaining_goals c)) <= INT_MAX →
  generate_trivial_solution_collection opts task c = Returns c' →
  collection_invariants c'.
Proof.
  intros Hctor (Hsols & Hlk & Hsize) Hnodup Hgoals Hlen Hseed.
  split; [by eapply lookup_consistent_seeding|].
  split.
  { eapply size_consistent_seeding; [|done].
    unfold size_consistent, total_pdb_size. by rewrite Hsize, Hsols. }
  split.
  { eapply goals_unplaced_seeding; [|done].
    split; [done|]. intros v _. by rewrite Hlk. }
  split.
  { eapply patterns_sorted_seeding; [done| |done].
    intros i e [_ Hslot]. by rewrite Hsols in Hslot. }
  by eapply has_live_entry_seeding.
Qed.

(** ** The main loop *)

(** Under invariant 2, two live entries share no variable. *)
Lemma lookup_consistent_disjoint c : lookup_consistent c → patterns_disjoint c.
Proof.
  intros Hinv i j ei ej v Hi Hj Hvi Hvj.
  assert (solution_lookup c !! v = Some i) as Hli by (apply Hinv; by exists ei).
  assert (solution_lookup c !! v = Some j) as Hlj by (apply Hinv; by exists ej).
  congruence.
Qed.

Lemma goals_unplaced_only_marks_solved c c' :
  only_marks_solved c c' → goals_unplaced c → goals_unplaced c'.
Proof.
  intros (_ & Hg & _ & Hl & _) [Hnodup Hfree]. unfold goals_unplaced.
  rewrite Hg, Hl. done.
Qed.

Lemma has_live_entry_only_marks_solved c c' :
  only_marks_solved c c' → has_live_entry c → has_live_entry c'.
Proof.
  intros (_ & _ & _ & _ & _ & _ & Hslots) (i & e & Hpos & Hslot).
  destruct (Hslots (Z.to_nat i)) as [Hsame|(e0 & H0 & H1)].
  - exists i, e. split; [done|]. by rewrite Hsame.
  - exists i, (mark_as_solved e0). by split.
Qed.

Lemma has_live_entry_handle_flaw flaw c c' :
  lookup_consistent c →
  flaw_well_formed c flaw →
  handle_flaw opts task flaw c = Returns c' →
  has_live_entry c'.
Proof.
  intros Hinv (ek & Hk & Hnotin) Hret. exists (solution_index flaw).
  destruct (handle_flaw_shapes _ _ _ Hret) as [->|[(m & Hlk & Hmerge)|[_ Hadd]]].
  - by exists ek.
  - apply Hinv in Hlk as (em & Hm & Hin).
    assert (m ≠ solution_index flaw) as Hmk.
    { intros ->. destruct Hk as [_ Hk], Hm as [_ Hm]. congruence. }
    apply merge_patterns_shape in Hmerge as (ek' & em' & _ & _ & _ & _ & _ & Hs & _).
    destruct Hk as [Hkpos Hkslot], Hm as [Hmpos Hmslot].
    eexists. split; [done|].
    rewrite Hs, list_lookup_insert_ne by lia.
    apply list_lookup_insert_eq. by eapply lookup_lt_Some.
  - apply add_variable_to_pattern_shape in Hadd as (ek' & _ & _ & _ & _ & Hs & _).
    destruct Hk as [Hkpos Hkslot].
    eexists. split; [done|].
    rewrite Hs. apply list_lookup_insert_eq. by eapply lookup_lt_Some.
Qed.

Lemma collection_invariants_main_loop fuel ticks counter c c' :
  NDEBUG = false →
  constructor_keeps_pattern →
  collection_invariants c →
  main_loop opts task fuel ticks counter c = Returns c' →
  collection_invariants c'.
Proof.
  intros Hdebug Hctor. revert ticks counter c.
  induction fuel as [|fuel IH]; intros ticks counter c Hc Hrun; simpl in Hrun; [done|].
  destruct (is_expired ticks); [by inversion Hrun; subst|].
  destruct (counter =? max_refinements opts); [by inversion Hrun; subst|].
  destruct (get_flaws opts task c) as [[fl c1]| | | | |] eqn:Hflaws; try done.
  simpl in Hrun. unfold get_flaws in Hflaws.
  destruct Hc as (Hinv & Hsize & Hgoals & Hsorted & Hlive).
  pose proof (only_marks_solved_get_flaws_loop _ _ _ _ _ Hflaws) as Hmarks.
  assert (lookup_consistent c1) as Hinv1
    by by eapply lookup_consistent_get_flaws_loop.
  assert (Forall (flaw_on_live_entry c1) fl) as Hon
    by (eapply get_flaws_loop_flaws_on_live; [done | by apply Forall_nil_2]).
  assert (collection_invariants c1) as Hc1.
  { split; [done|]. split; [by eapply size_consistent_only_marks_solved|].
    split; [by eapply goals_unplaced_only_marks_solved|].
    split; [by eapply patterns_sorted_only_marks_solved|].
    by eapply has_live_entry_only_marks_solved. }
  destruct (bool_decide (fl = [])).
  - destruct (negb _); simpl in Hrun.
    + destruct (assert _); simpl in Hrun; try done. by inversion Hrun; subst.
    + by inversion Hrun; subst.
  - destruct (is_expired (S ticks)); [by inversion Hrun; subst|].
    destruct (refine opts task fl c1) as [c2| | | | |] eqn:Href; try done.
    simpl in Hrun. eapply IH; [|done].
    unfold refine in Href.
    destruct (assert (negb (bool_decide (fl = [])))); simpl in Href; try done.
    destruct (rng_random _ _) as [i r]. unfold flaw_at in Href.
    destruct (i <? 0); [done|].
    destruct (fl !! Z.to_nat i) as [flaw|] eqn:Hflaw; [|done]. simpl in Href.
    pose proof (proj1 (Forall_lookup _ _) Hon _ _ Hflaw) as Hk.
    destruct Hc1 as (_ & Hsize1 & Hgoals1 & Hsorted1 & _).
    assert (flaw_well_formed (set_rng r c1) flaw) as Hwf
      by by eapply handle_flaw_asserted.
    split; [by eapply (lookup_consistent_handle_flaw opts task flaw (set_rng r c1))|].
    split; [by eapply (size_consistent_handle_flaw flaw (set_rng r c1))|].
    split; [by eapply (goals_unplaced_handle_flaw flaw (set_rng r c1))|].
    split; [by eapply (patterns_sorted_handle_flaw flaw (set_rng r c1))|].
    by eapply (has_live_entry_handle_flaw flaw (set_rng r c1)).
Qed.

(** X13.  In a build with assertions the main loop keeps the invariants of
    the collection: whatever the timer and the random number generator do,
    a collection whose lookup table agrees with its patterns, whose
    [collection_size] is the sum of its PDB sizes, whose remaining goals
    are in no pattern, whose patterns are sorted and which has an entry
    that is not null is again such a collection when the loop returns; no
    two of its entries share a variable and the blacklist has only grown.
    The constructor of an entry is taken to keep the pattern it is built
    for. *)
Theorem main_loop_keeps_invariants fuel ticks counter c c' :
  NDEBUG = false →
  constructor_keeps_pattern →
  collection_invariants c →
  main_loop opts task fuel ticks counter c = Returns c' →
  collection_invariants c'
  ∧ patterns_disjoint c'
  ∧ global_blacklist c ⊆ global_blacklist c'.
Proof.
  intros Hdebug Hctor Hc Hrun.
  pose proof (collection_invariants_main_loop _ _ _ _ _ Hdebug Hctor Hc Hrun) as Hc'.
  split; [done|]. split; [by apply lookup_consistent_disjoint, Hc'|].
  clear Hc Hc'. revert ticks counter c Hrun.
  induction fuel as [|fuel IH]; intros ticks counter c Hrun; simpl in Hrun; [done|].
  destruct (is_expired ticks); [by inversion Hrun; subst|].
  destruct (counter =? max_refinements opts); [by inversion Hrun; subst|].
  destruct (get_flaws opts task c) as [[fl c1]| | | | |] eqn:Hflaws; try done.
  simpl in Hrun. unfold get_flaws in Hflaws.
  destruct (only_marks_solved_get_flaws_loop _ _ _ _ _ Hflaws)
    as (_ & _ & Hb & _).
  rewrite <- Hb.
  destruct (bool_decide (fl = [])).
  - destruct (negb _); simpl in Hrun.
    + destruct (assert _); simpl in Hrun; try done. by inversion Hrun; subst.
    + by inversion Hrun; subst.
  - destruct (is_expired (S ticks)); [by inversion Hrun; subst|].
    destruct (refine opts task fl c1) as [c2| | | | |] eqn:Href; try done.
    simpl in Hrun. apply IH in Hrun. etrans; [|done].
    unfold refine in Href.
    destruct (assert (negb (bool_decide (fl = [])))); simpl in Href; try done.
    destruct (rng_random _ _) as [i r].
    destruct (flaw_at fl i) as [flaw| | | | |]; simpl in Href; try done.
    destruct (handle_flaw_shapes _ _ _ Href) as [->|[(m & _ & Hmerge)|[_ Hadd]]].
    + simpl. apply union_subseteq_r.
    + apply merge_patterns_shape in Hmerge as (ek & em & _ & _ & _ & _ & -> & _).
      done.
    + apply add_variable_to_pattern_shape in Hadd as (ek & _ & _ & _ & -> & _).
      done.
Qed.

(** ** The random blacklist *)

Lemma foldl_blacklist (l : list Z) (b : gset Z) :
  foldl (fun b var_id => {[var_id]} ∪ b) b l = list_to_set l ∪ b.
Proof.
  revert b. induction l as [|x l IH]; intros b; simpl.
  - by rewrite (left_id_L ∅ (∪)).
  - by rewrite IH, (assoc_L (∪)), (comm_L (∪) (list_to_set l)).
Qed.

Lemma elem_of_nongoal_variables c v :
  v ∈ nongoal_variables task c ↔
  (0 <= v < static_cast_int (get_variables_size task) ∧ v ∉ remaining_goals c).
Proof.
  unfold nongoal_variables. rewrite list_elem_of_filter. split.
  - intros [Hgoal Hv]. apply list_elem_of_In, in_map_iff in Hv as (n & <- & Hn).
    apply in_seq in Hn. split; [lia | done].
  - intros [Hv Hgoal]. split; [done|]. apply list_elem_of_In, in_map_iff.
    exists (Z.to_nat v). split; [lia|]. apply in_seq. lia.
Qed.

Lemma size_list_to_set_le (l : list Z) : (size (list_to_set l : gset Z) ≤ length l)%nat.
Proof.
  induction l as [|x l IH].
  - rewrite list_to_set_nil, size_empty. done.
  - rewrite list_to_set_cons, size_union_alt, size_singleton. cbn [length].
    assert (size ((list_to_set l : gset Z) ∖ {[x]}) ≤ size (list_to_set l : gset Z))%nat
      by apply subseteq_size, subseteq_difference_l, reflexivity.
    lia.
Qed.

(** What a call of [blacklist_nongoals] that returns has done. *)
Lemma blacklist_nongoals_returns c c' :
  blacklist_nongoals opts task c = Returns c' →
  ∃ shuffled,
    shuffled = (rng_shuffle (rng c) (nongoal_variables task c)).1
    ∧ global_blacklist c' =
        list_to_set
          (take (if global_blacklist_size opts <? 0 then length shuffled
                 else Z.to_nat (global_blacklist_size opts) `min` length shuffled)
             shuffled)
        ∪ global_blacklist c
    ∧ remaining_goals c' = remaining_goals c
    ∧ solutions c' = solutions c
    ∧ solution_lookup c' = solution_lookup c
    ∧ collection_size c' = collection_size c
    ∧ concrete_solution_index c' = concrete_solution_index c.
Proof.
  unfold blacklist_nongoals, reserve. cbv zeta.
  destruct (vector_int_max_size <? _); simpl; [done|].
  fold (nongoal_variables task c).
  destruct (rng_shuffle (rng c) (nongoal_variables task c)) as [shuffled r].
  unfold mret, Outcome_ret. intros [= <-]. exists shuffled. simpl.
  by rewrite foldl_blacklist.
Qed.

(** X14.  The random blacklist of [generate].  The call returns when there
    are at most as many remaining goals as variables, and ends in
    [std::length_error] when there are more.  When it returns, with a
    shuffle that permutes its argument, every variable added to the
    blacklist is a variable of the task that is not among the remaining
    goals, at most [global_blacklist_size] variables are added, and
    nothing but the blacklist and the random number generator has
    changed. *)
Theorem blacklist_nongoals_sound c :
  shuffle_permutes (rng c) →
  (Z.of_nat (length (remaining_goals c)) <= static_cast_int (get_variables_size task) →
   ∃ c', blacklist_nongoals opts task c = Returns c')
  ∧ (static_cast_int (get_variables_size task) < Z.of_nat (length (remaining_goals c)) →
     Z.of_nat (length (remaining_goals c)) < 9223372036854775808 →
     blacklist_nongoals opts task c = LengthError)
  ∧ ∀ c', blacklist_nongoals opts task c = Returns c' →
      (∀ v, v ∈ global_blacklist c' →
            v ∈ global_blacklist c
            ∨ (0 <= v < static_cast_int (get_variables_size task)
               ∧ v ∉ remaining_goals c))
      ∧ (0 <= global_blacklist_size opts →
         (size (global_blacklist c')
          ≤ size (global_blacklist c) + Z.to_nat (global_blacklist_size opts))%nat)
      ∧ remaining_goals c' = remaining_goals c
      ∧ solutions c' = solutions c
      ∧ solution_lookup c' = solution_lookup c
      ∧ collection_size c' = collection_size c
      ∧ concrete_solution_index c' = concrete_solution_index c.
Proof.
  intros Hshuffle.
  pose proof (wrap_int_range (Z.of_nat (get_variables_size task))) as Hvars.
  fold (static_cast_int (get_variables_size task)) in Hvars.
  unfold in_int_range, INT_MIN, INT_MAX in Hvars.
  split; [|split].
  - intros Hgoals. unfold blacklist_nongoals, reserve, wrap_size_t, vector_int_max_size.
    cbv zeta. rewrite Z.mod_small by lia.
    destruct (Z.ltb_spec 2305843009213693951
                (static_cast_int (get_variables_size task)
                 - Z.of_nat (length (remaining_goals c)))); [lia|].
    simpl. destruct (rng_shuffle _ _) as [shuffled r]. by eexists.
  - intros Hgoals Hbound.
    unfold blacklist_nongoals, reserve, wrap_size_t, vector_int_max_size. cbv zeta.
    rewrite <- (Z_mod_plus_full _ 1), Z.mod_small by lia.
    destruct (Z.ltb_spec 2305843009213693951
                (static_cast_int (get_variables_size task)
                 - Z.of_nat (length (remaining_goals c))
                 + 1 * 18446744073709551616)); [done | lia].
  - intros c' Hret.
    apply blacklist_nongoals_returns in Hret
      as (shuffled & Hsh & Hbl & Hg & Hs & Hl & Hsize & Hidx).
    pose proof (Hshuffle (nongoal_variables task c)) as Hperm. rewrite <- Hsh in Hperm.
    split; [|split; [|done]].
    + intros v Hv. rewrite Hbl in Hv.
      apply elem_of_union in Hv as [Hv|Hv]; [right | by left].
      apply elem_of_list_to_set, elem_of_take in Hv as (i & Hi & _).
      apply list_elem_of_lookup_2 in Hi. rewrite Hperm in Hi.
      by apply elem_of_nongoal_variables.
    + intros Hwanted. rewrite Hbl.
      destruct (Z.ltb_spec (global_blacklist_size opts) 0); [lia|].
      rewrite size_union_alt.
      pose proof (size_list_to_set_le
                    (take (Z.to_nat (global_blacklist_size opts)
                             `min` length shuffled) shuffled)) as Hle.
      rewrite length_take in Hle.
      assert (size (global_blacklist c ∖
                      list_to_set (take (Z.to_nat (global_blacklist_size opts)
                                           `min` length shuffled) shuffled))
              ≤ size (global_blacklist c))%nat
        by apply subseteq_size, subseteq_difference_l, reflexivity.
      lia.
Qed.

(** X15.  What the help text of [global_blacklist_size] says about
    infinity: when the option is at least the number of variables that are
    not goals (or, as an [int], negative) and the call returns, every such
    variable is blacklisted. *)
Theorem blacklist_nongoals_complete c c' v :
  shuffle_permutes (rng c) →
  blacklist_nongoals opts task c = Returns c' →
  global_blacklist_size opts < 0
  ∨ Z.of_nat (length (nongoal_variables task c)) <= global_blacklist_size opts →
  0 <= v < static_cast_int (get_variables_size task) →
  v ∉ remaining_goals c →
  v ∈ global_blacklist c'.
Proof.
  intros Hshuffle Hret Hwanted Hv Hgoal.
  apply blacklist_nongoals_returns in Hret as (shuffled & Hsh & Hbl & _).
  pose proof (Hshuffle (nongoal_variables task c)) as Hperm. rewrite <- Hsh in Hperm.
  assert (v ∈ nongoal_variables task c) as Hin by by apply elem_of_nongoal_variables.
  rewrite Hbl. apply elem_of_union_l, elem_of_list_to_set.
  rewrite take_ge; [by rewrite Hperm|].
  apply Permutation_length in Hperm.
  destruct (Z.ltb_spec (global_blacklist_size opts) 0); lia.
Qed.

(** ** The driver *)

(** The stages of a run of [generate] that returns. *)
Lemma generate_returns fuel c out :
  generate opts task fuel c = Returns out →
  ∃ c3 c4 c5,
    remaining_goals c3 =
      (rng_shuffle (rng c) (remaining_goals c ++ map fact_var (get_goals task))).1
    ∧ solutions c3 = solutions c
    ∧ solution_lookup c3 = solution_lookup c
    ∧ collection_size c3 = collection_size c
    ∧ concrete_solution_index c3 = concrete_solution_index c
    ∧ generate_trivial_solution_collection opts task c3 = Returns c4
    ∧ main_loop opts task fuel 0 0 c4 = Returns c5
    ∧ collect_output c5 = Returns out.
Proof.
  unfold generate. cbv zeta.
  destruct (_ && _); [done|]. destruct (_ && _); [done|]. simpl.
  destruct (rng_shuffle (rng c) _) as [shuffled r0] eqn:Hsh.
  match goal with
  | |- context [mbind _ (if _ then blacklist_nongoals opts task ?x else _)] =>
      set (c2 := x)
  end.
  assert (∀ c3,
            (if negb (global_blacklist_size opts =? 0)
             then blacklist_nongoals opts task c2 else mret c2) = Returns c3 →
            remaining_goals c3 = shuffled ∧ solutions c3 = solutions c
            ∧ solution_lookup c3 = solution_lookup c
            ∧ collection_size c3 = collection_size c
            ∧ concrete_solution_index c3 = concrete_solution_index c) as Hc3.
  { intros c3. destruct (negb _).
    - intros Hret. apply blacklist_nongoals_returns in Hret
        as (l & _ & _ & -> & -> & -> & -> & ->). done.
    - unfold mret, Outcome_ret. by intros [= <-]. }
  destruct (if negb (global_blacklist_size opts =? 0)
            then blacklist_nongoals opts task c2 else mret c2)
    as [c3| | | | |] eqn:H3; simpl; try done.
  destruct (generate_trivial_solution_collection opts task c3) as [c4| | | | |] eqn:H4;
    simpl; try done.
  destruct (main_loop opts task fuel 0 0 c4) as [c5| | | | |] eqn:H5; simpl; try done.
  intros Hout. exists c3, c4, c5.
  destruct (Hc3 c3 eq_refl) as (-> & -> & -> & -> & ->). done.
Qed.

Lemma fmap_omap_id (l : list (option AbstractSolutionData)) :
  get_pattern <$> omap id l = omap (fmap get_pattern) l.
Proof.
  induction l as [|[e|] l IH]; simpl; [done| |exact IH]. f_equal. exact IH.
Qed.

Lemma omap_id_lookup {A} (l : list (option A)) i x :
  omap id l !! i = Some x → ∃ k, l !! k = Some (Some x).
Proof.
  intros Hi. apply list_elem_of_lookup_2, list_elem_of_omap in Hi as (o & Ho & Hx).
  simpl in Hx. subst o. by apply list_elem_of_lookup_1.
Qed.

(** Different places of the list without nulls come from different
    slots. *)
Lemma omap_id_lookup_distinct {A} (l : list (option A)) i j x y :
  omap id l !! i = Some x → omap id l !! j = Some y → i ≠ j →
  ∃ ki kj, ki ≠ kj ∧ l !! ki = Some (Some x) ∧ l !! kj = Some (Some y).
Proof.
  revert i j. induction l as [|[a|] l IH]; intros i j; simpl.
  - done.
  - destruct i as [|i], j as [|j]; simpl; intros Hi Hj Hij.
    + done.
    + injection Hi as ->. apply omap_id_lookup in Hj as [k Hk].
      exists O, (S k). by split.
    + injection Hj as ->. apply omap_id_lookup in Hi as [k Hk].
      exists (S k), O. by split.
    + destruct (IH i j Hi Hj) as (ki & kj & Hne & Hki & Hkj); [congruence|].
      exists (S ki), (S kj). split; [congruence | by split].
  - intros Hi Hj Hij.
    destruct (IH i j Hi Hj Hij) as (ki & kj & Hne & Hki & Hkj).
    exists (S ki), (S kj). split; [congruence | by split].
Qed.

(** What [generate] hands out are live entries of the final collection. *)
Lemma collect_output_live c out e :
  collect_output c = Returns out → e ∈ out → ∃ i, live_entry c i e.
Proof.
  unfold collect_output. destruct (negb _).
  - destruct (solution_at c (concrete_solution_index c)) as [e0| | | | |] eqn:Hsol;
      simpl; try done.
    unfold mret, Outcome_ret. intros [= <-] He.
    apply list_elem_of_singleton in He as ->.
    exists (concrete_solution_index c). by apply solution_at_returns.
  - unfold mret, Outcome_ret. intros [= <-] He.
    apply list_elem_of_omap in He as (o & Ho & Hx). simpl in Hx. subst o.
    apply list_elem_of_lookup_1 in Ho as [k Hk].
    exists (Z.of_nat k). split; [lia|]. by rewrite Nat2Z.id.
Qed.

(** X16.  The patterns that [cegar] returns are sorted and not empty, in
    every build and whatever the solver, the timer and the random number
    generator do, as long as the constructor of an entry keeps the pattern
    it was given. *)
Theorem cegar_patterns_sorted fuel r out :
  constructor_keeps_pattern →
  cegar opts task fuel r = Returns out →
  Forall (fun e => Sorted Z.le (get_pattern e) ∧ get_pattern e ≠ []) out.
Proof.
  intros Hctor Hrun. unfold cegar in Hrun.
  apply generate_returns in Hrun
    as (c3 & c4 & c5 & _ & Hsols & _ & _ & _ & Hseed & Hloop & Hout).
  assert (patterns_sorted c3) as H3.
  { intros i e [_ Hslot]. by rewrite Hsols in Hslot. }
  assert (patterns_sorted c5) as H5.
  { eapply patterns_sorted_main_loop; [done| |done].
    by eapply patterns_sorted_seeding. }
  apply Forall_forall. intros e He.
  destruct (collect_output_live _ _ _ Hout He) as [i Hi]. by apply (H5 i).
Qed.

Lemma seeding_asserts_goals c c' :
  NDEBUG = false →
  generate_trivial_solution_collection opts task c = Returns c' →
  remaining_goals c ≠ [].
Proof.
  intros Hdebug. unfold generate_trivial_solution_collection, assert.
  rewrite Hdebug. simpl. by case_bool_decide.
Qed.

(** X17.  In a build with assertions, for a task whose goals are on
    pairwise different variables, [cegar] returns at least one pattern and
    no two patterns it returns share a variable.  The shuffle is taken to
    permute its argument and the constructor of an entry to keep the
    pattern it is built for. *)
Theorem cegar_patterns_disjoint fuel r out :
  NDEBUG = false →
  constructor_keeps_pattern →
  shuffle_permutes r →
  NoDup (map fact_var (get_goals task)) →
  Z.of_nat (length (get_goals task)) <= INT_MAX →
  cegar opts task fuel r = Returns out →
  out ≠ [] ∧ outputs_disjoint out.
Proof.
  intros Hdebug Hctor Hshuffle Hnodup Hlen Hrun. unfold cegar in Hrun.
  apply generate_returns in Hrun
    as (c3 & c4 & c5 & Hgoals & Hsols & Hlk & Hsize & Hidx & Hseed & Hloop & Hout).
  simpl in *.
  pose proof (Hshuffle (map fact_var (get_goals task))) as Hperm.
  rewrite <- Hgoals in Hperm.
  assert (collection_invariants c4) as H4.
  { split; [|split; [|split; [|split]]].
    - eapply lookup_consistent_seeding; try done.
      + by rewrite Hperm.
      + apply Permutation_length in Hperm. rewrite Hperm, length_map. done.
    - eapply size_consistent_seeding; [|done].
      unfold size_consistent, total_pdb_size. by rewrite Hsize, Hsols.
    - eapply goals_unplaced_seeding; [|done].
      split; [by rewrite Hperm|]. intros v _. by rewrite Hlk.
    - eapply patterns_sorted_seeding; [done| |done].
      intros i e [_ Hslot]. by rewrite Hsols in Hslot.
    - eapply has_live_entry_seeding; [|done]. by eapply seeding_asserts_goals. }
  pose proof (collection_invariants_main_loop _ _ _ _ _ Hdebug Hctor H4 Hloop)
    as (Hinv & _ & _ & _ & (k & ek & Hkpos & Hk)).
  apply lookup_consistent_disjoint in Hinv.
  unfold collect_output in Hout. destruct (negb _).
  - destruct (solution_at c5 (concrete_solution_index c5)) as [e0| | | | |];
      simpl in Hout; try done.
    unfold mret, Outcome_ret in Hout. injection Hout as <-. split; [done|].
    intros i j ei ej v Hi Hj _ _.
    apply lookup_lt_Some in Hi, Hj. simpl in *. lia.
  - unfold mret, Outcome_ret in Hout. injection Hout as <-. split.
    + intros Hnil.
      assert (ek ∈ omap id (solutions c5)) as Hek.
      { apply list_elem_of_omap. exists (Some ek).
        split; [by eapply list_elem_of_lookup_2 | done]. }
      rewrite Hnil in Hek. by apply not_elem_of_nil in Hek.
    + intros i j ei ej v Hi Hj Hvi Hvj.
      destruct (decide (i = j)) as [|Hne]; [done|]. exfalso.
      destruct (omap_id_lookup_distinct _ _ _ _ _ Hi Hj Hne)
        as (ki & kj & Hk' & Hki & Hkj).
      assert (Z.of_nat ki = Z.of_nat kj); [|lia].
      apply (Hinv (Z.of_nat ki) (Z.of_nat kj) ei ej v); try done.
      * split; [lia|]. by rewrite Nat2Z.id.
      * split; [lia|]. by rewrite Nat2Z.id.
Qed.

(** More fuel does not change what the model of the loop gives once it
    had enough. *)
Lemma main_loop_more_fuel fuel fuel' ticks counter c :
  has_fuel (main_loop opts task fuel ticks counter c) →
  (fuel ≤ fuel')%nat →
  main_loop opts task fuel' ticks counter c = main_loop opts task fuel ticks counter c.
Proof.
  revert fuel' ticks counter c.
  induction fuel as [|fuel IH]; intros fuel' ticks counter c Hfuel Hle;
    [by unfold has_fuel in Hfuel|].
  destruct fuel' as [|fuel']; [lia|]. simpl in *.
  destruct (is_expired ticks); [done|].
  destruct (counter =? max_refinements opts); [done|].
  destruct (get_flaws opts task c) as [[fl c1]| | | | |]; simpl in *; try done.
  destruct (bool_decide (fl = [])); [done|].
  destruct (is_expired (S ticks)); [done|].
  destruct (refine opts task fl c1) as [c2| | | | |]; simpl in *; try done.
  apply IH; [done | lia].
Qed.

(** X18.  The main loop makes at most [max_refinements] rounds: for a
    bound between 0 and [INT_MAX], the run of [cegar] is the same for
    every number of rounds the model is allowed beyond the bound, and it
    never stops for lack of rounds. *)
Theorem cegar_ends_within_max_refinements fuel r :
  0 <= max_refinements opts <= INT_MAX →
  (Z.to_nat (max_refinements opts) < fuel)%nat →
  has_fuel (cegar opts task fuel r)
  ∧ cegar opts task fuel r
    = cegar opts task (S (Z.to_nat (max_refinements opts))) r.
Proof.
  intros Hmax Hfuel.
  assert (cegar opts task fuel r
          = cegar opts task (S (Z.to_nat (max_refinements opts))) r) as Hsame.
  { unfold cegar, generate. cbv zeta.
    destruct (_ && _); [done|]. destruct (_ && _); [done|].
    destruct (rng_shuffle _ _) as [shuffled r0].
    destruct (if negb (global_blacklist_size opts =? 0) then _ else _)
      as [c3| | | | |]; try done.
    cbn [mbind Outcome_bind].
    destruct (generate_trivial_solution_collection _ _ _) as [c4| | | | |]; try done.
    cbn [mbind Outcome_bind].
    rewrite (main_loop_more_fuel (S (Z.to_nat (max_refinements opts))) fuel);
      [done | apply main_loop_has_fuel; lia | lia]. }
  split; [|done]. rewrite Hsame. by apply generate_has_fuel.
Qed.

(** X19.  Without a refinement the output is the seed: when the timer is
    expired at the first test or [max_refinements] is 0, [cegar] returns
    one singleton pattern for each seeded goal, in the order of seeding,
    the goals being shuffled by the random number generator it was
    given. *)
Theorem no_refinement_returns_seed fuel r out :
  constructor_keeps_pattern →
  is_expired 0 = true ∨ max_refinements opts = 0 →
  cegar opts task (S fuel) r = Returns out →
  get_pattern <$> out =
    (fun v => [v])
      <$> seeded_goals opts (rng_shuffle r (map fact_var (get_goals task))).1.
Proof.
  intros Hctor Hstop Hrun. unfold cegar in Hrun.
  apply generate_returns in Hrun
    as (c3 & c4 & c5 & Hgoals & Hsols & _ & _ & Hidx & Hseed & Hloop & Hout).
  simpl in *.
  assert (c5 = c4) as ->.
  { destruct Hstop as [Hexp|Hzero].
    - rewrite Hexp in Hloop. by inversion Hloop.
    - rewrite Hzero in Hloop. simpl in Hloop.
      destruct (is_expired 0); by inversion Hloop. }
  unfold collect_output in Hout.
  rewrite (concrete_solution_index_seeding _ _ Hseed), Hidx in Hout. simpl in Hout.
  unfold mret, Outcome_ret in Hout. injection Hout as <-.
  rewrite fmap_omap_id. fold (live_patterns c4).
  by rewrite (live_patterns_seeding _ _ Hctor Hsols Hseed), Hgoals.
Qed.

(** ** The refiner and the seeding, field by field *)

Lemma erase_first_spec x l : first_erased x l (erase_first x l).
Proof.
  induction l as [|y l IH]; simpl.
  - left. split; [apply not_elem_of_nil | done].
  - case_bool_decide as Hyx.
    + subst y. right. exists [], l. split; [done|]. split; [apply not_elem_of_nil | done].
    + destruct IH as [[Hx ->]|(l1 & l2 & Hl & Hx & Herase)].
      * left. split; [|done]. apply not_elem_of_cons. split; [congruence | done].
      * right. exists (y :: l1), l2. rewrite Herase. split; [by rewrite Hl|].
        split; [|done]. apply not_elem_of_cons. split; [congruence | done].
Qed.

Lemma merged_into_merge_patterns r k m c c' :
  merge_patterns opts task k m (set_rng r c) = Returns c' →
  merged_into opts task r k m c c'.
Proof.
  intros Hmerge. apply merge_patterns_shape in Hmerge
    as (ek & em & Hk & Hm & Hshape). cbv zeta in Hshape. simpl in Hshape.
  destruct (make_solution task (sort_pattern (get_pattern ek ++ get_pattern em)) r
              (wildcard_plans opts)) as [merged r'] eqn:Hbuilt.
  simpl in Hshape. destruct Hshape as (Hr & Hg & Hb & Hs & Hl & Hsize & Hi).
  exists ek, em, (sort_pattern (get_pattern ek ++ get_pattern em)), merged.
  split; [done|]. split; [done|]. split; [apply sort_pattern_sorted|].
  split; [apply merge_sort_Permutation|]. split; [by rewrite Hr|].
  split; [done|]. split; [|done].
  intros v. by rewrite Hl, redirect_lookup_lookup.
Qed.

Lemma extended_by_add_variable_to_pattern r k v c c' :
  add_variable_to_pattern opts task k v (set_rng r c) = Returns c' →
  extended_by opts task r k v c c'.
Proof.
  intros Hadd. apply add_variable_to_pattern_shape in Hadd as (ek & Hk & Hshape).
  cbv zeta in Hshape. simpl in Hshape.
  destruct (make_solution task (sort_pattern (get_pattern ek ++ [v])) r
              (wildcard_plans opts)) as [extended r'] eqn:Hbuilt.
  simpl in Hshape. destruct Hshape as (Hr & Hg & Hb & Hs & Hl & Hsize & Hi).
  exists ek, (sort_pattern (get_pattern ek ++ [v])), extended.
  split; [done|]. split; [apply sort_pattern_sorted|].
  split; [apply merge_sort_Permutation|]. split; [by rewrite Hr|].
  split; [done|]. split; [done|]. split; [done|].
  split; [rewrite Hg; apply erase_first_spec | done].
Qed.

Lemma blacklisted_only_blacklist_var r v c :
  blacklisted_only r v c (blacklist_var v (set_rng r c)).
Proof. by repeat split. Qed.

(** C2.  From a non-empty flaw list the refiner takes the flaw (k, v) at
    the index the random number generator draws for the length of the
    list, returns, and has done one of three things, field by field.  If v
    lies in the pattern of a live entry m, then m is not k, and when
    [can_merge_patterns] allows it the two entries are merged: slot k
    holds the entry built for the sorted union of the patterns, slot m is
    null, the lookup table sends the variables of m to k and
    [collection_size] is brought up to date.  If v lies in no live
    pattern, then when [can_add_variable_to_pattern] allows it the pattern
    of k is extended by v: slot k holds the entry built for the sorted
    pattern with v, the lookup table sends v to k, [collection_size] is
    brought up to date and v is erased from the remaining goals.  In the
    cases that remain v is inserted into the blacklist and nothing else
    changes. *)
Theorem refine_performs_one_mutation flaws c :
  lookup_consistent c →
  Forall (flaw_well_formed c) flaws →
  draws_below_bound (rng c) →
  Z.of_nat (length flaws) <= INT_MAX →
  flaws ≠ [] →
  let draw := rng_random (rng c) (static_cast_int (length flaws)) in
  let c0 := set_rng draw.2 c in
  ∃ k v c',
    0 <= draw.1
    ∧ flaws !! Z.to_nat draw.1 = Some {| solution_index := k; variable := v |}
    ∧ refine opts task flaws c = Returns c'
    ∧ (∀ m em, live_entry c m em → v ∈ get_pattern em →
         m ≠ k
         ∧ ∃ b, can_merge_patterns opts k m c0 = Returns b
           ∧ if b then merged_into opts task draw.2 k m c c'
             else blacklisted_only draw.2 v c c')
    ∧ (¬ in_live_pattern c v →
         ∃ b, can_add_variable_to_pattern opts task k v c0 = Returns b
           ∧ if b then extended_by opts task draw.2 k v c c'
             else blacklisted_only draw.2 v c c').
Proof.
  intros Hinv Hwf Hrng Hlen Hne.
  destruct (refine_branches opts task flaws c Hinv Hwf Hrng Hlen Hne)
    as (k & v & Hpos & Hflaw & Hmerge & Hextend).
  cbv zeta.
  destruct (rng_random (rng c) (static_cast_int (length flaws))) as [i r].
  simpl in *.
  assert (∃ c', refine opts task flaws c = Returns c') as [c' Href].
  { destruct (solution_lookup c !! v) as [m|] eqn:Hlk.
    - apply Hinv in Hlk as (em & Hm & Hin).
      destruct (Hmerge m em Hm Hin) as (_ & [|] & _ & Hres).
      + destruct Hres as (c' & _ & Href). by exists c'.
      + by eexists.
    - apply (lookup_None_iff _ _ Hinv) in Hlk.
      destruct (Hextend Hlk) as ([|] & _ & Hres).
      + destruct Hres as (c' & _ & Href). by exists c'.
      + by eexists. }
  exists k, v, c'. split; [done|]. split; [done|]. split; [done|]. split.
  - intros m em Hm Hin. destruct (Hmerge m em Hm Hin) as (Hmk & b & Hb & Hres).
    split; [done|]. exists b. split; [done|]. destruct b.
    + destruct Hres as (c'' & Hmp & Href'). rewrite Href in Href'.
      injection Href' as <-. by apply merged_into_merge_patterns.
    + rewrite Href in Hres. injection Hres as ->.
      apply blacklisted_only_blacklist_var.
  - intros Hno. destruct (Hextend Hno) as (b & Hb & Hres).
    exists b. split; [done|]. destruct b.
    + destruct Hres as (c'' & Hadd & Href'). rewrite Href in Href'.
      injection Href' as <-. by apply extended_by_add_variable_to_pattern.
    + rewrite Href in Hres. injection Hres as ->.
      apply blacklisted_only_blacklist_var.
Qed.

(** A call of [add_pattern_for_var] on the object [c], which is [c0] with
    [var] taken out of the remaining goals. *)
Lemma singleton_added_call var c0 c :
  constructor_keeps_pattern →
  Z.of_nat (length (solutions c0)) <= INT_MAX →
  rng c = rng c0 → solutions c = solutions c0 →
  solution_lookup c = solution_lookup c0 → collection_size c = collection_size c0 →
  global_blacklist c = global_blacklist c0 →
  concrete_solution_index c = concrete_solution_index c0 →
  var ∉ remaining_goals c →
  (∀ v, v ≠ var → (v ∈ remaining_goals c) ↔ (v ∈ remaining_goals c0)) →
  singleton_added opts task var c0 (add_pattern_for_var opts task var c).
Proof.
  intros Hctor Hlen Hr Hs Hl Hsize Hb Hi Hvar Hothers.
  pose proof (add_pattern_for_var_fields_all opts task var c) as Hfields.
  cbv zeta in Hfields. rewrite Hr, Hs, Hl, Hsize, Hb, Hi in Hfields.
  pose proof (Hctor task [var] (rng c0) (wildcard_plans opts)) as Hpattern.
  destruct (make_solution task [var] (rng c0) (wildcard_plans opts))
    as [solution r'] eqn:Hbuilt.
  simpl in *. destruct Hfields as (Hs' & Hl' & Hsize' & Hg' & Hb' & Hi' & Hr').
  exists solution. split; [by rewrite Hr'|]. split; [done|]. split; [done|].
  split; [by rewrite Hl', static_cast_int_small|]. split; [done|].
  rewrite Hg'. done.
Qed.

Lemma singletons_added_seed_all_goals fuel c :
  constructor_keeps_pattern →
  NoDup (remaining_goals c) →
  Z.of_nat (length (solutions c) + length (remaining_goals c)) <= INT_MAX →
  (length (remaining_goals c) <= fuel)%nat →
  singletons_added opts task (reverse (remaining_goals c)) c
    (seed_all_goals opts task fuel c).
Proof.
  intros Hctor. revert c.
  induction fuel as [|fuel IH]; intros c Hnodup Hlen Hfuel; simpl.
  - destruct (remaining_goals c); [done | simpl in Hfuel; lia].
  - destruct (pop_back (remaining_goals c)) as [[rest var]|] eqn:Hpop.
    + apply pop_back_Some in Hpop as Hgoals. rewrite Hgoals in *.
      rewrite length_app in Hlen, Hfuel. simpl in Hlen, Hfuel.
      apply NoDup_app in Hnodup as (Hrest & Hdisj & _).
      rewrite reverse_snoc. simpl.
      exists (add_pattern_for_var opts task var (set_remaining_goals rest c)). split.
      * apply singleton_added_call; try done; [lia| |].
        -- simpl. intros Hin. apply (Hdisj var Hin). by apply list_elem_of_singleton.
        -- intros v Hv. simpl. rewrite Hgoals, elem_of_app, list_elem_of_singleton.
           split; [by left | by intros [|]].
      * pose proof (add_pattern_for_var_fields opts task var
                      (set_remaining_goals rest c)) as [Hlength _].
        pose proof (add_pattern_for_var_remaining_goals opts task var
                      (set_remaining_goals rest c)) as Hremaining.
        simpl in Hlength, Hremaining.
        rewrite <- Hremaining at 1. apply IH; rewrite ?Hremaining, ?Hlength; [done|lia|lia].
    + apply pop_back_None in Hpop. by rewrite Hpop.
Qed.

(** C9.  Every new singleton is added the way the specification says.
    Seeding an object whose remaining goals are pairwise different makes
    one call of [add_pattern_for_var] for each of the goals that it seeds,
    after taking the goal out of the remaining goals, and every such step
    appends the entry built for the pattern [{var}], sets
    [solution_lookup[var]] to the index of the new entry, adds the size of
    its PDB to [collection_size] and leaves [var] out of the remaining
    goals. *)
Theorem seeding_adds_singletons c c' :
  constructor_keeps_pattern →
  NoDup (remaining_goals c) →
  Z.of_nat (length (solutions c) + length (remaining_goals c)) <= INT_MAX →
  generate_trivial_solution_collection opts task c = Returns c' →
  singletons_added opts task (seeded_goals opts (remaining_goals c)) c c'.
Proof.
  intros Hctor Hnodup Hlen. unfold generate_trivial_solution_collection, seeded_goals.
  destruct (assert (negb (bool_decide (remaining_goals c = [])))); simpl; try done.
  destruct (initial opts).
  - destruct (assert (negb (given_goal opts =? -1))); simpl; try done.
    unfold mret, Outcome_ret. intros [= <-]. eexists. split; [|done].
    destruct (erase_first_NoDup (given_goal opts) _ Hnodup) as [_ Hgone].
    apply singleton_added_call; try done; [lia|].
    intros v Hv. simpl. split; [apply elem_of_erase_first|].
    by apply erase_first_keeps_others.
  - destruct (pop_back (remaining_goals c)) as [[rest var]|] eqn:Hpop; [|done].
    unfold mret, Outcome_ret. intros [= <-].
    apply pop_back_Some in Hpop as Hgoals. rewrite Hgoals in *.
    rewrite last_snoc. simpl. eexists. split; [|done].
    apply NoDup_app in Hnodup as (Hrest & Hdisj & _).
    apply singleton_added_call; try done; [lia| |].
    + simpl. intros Hin. apply (Hdisj var Hin). by apply list_elem_of_singleton.
    + intros v Hv. simpl. rewrite Hgoals, elem_of_app, list_elem_of_singleton.
      split; [by left | by intros [|]].
  - unfold mret, Outcome_ret. intros [= <-].
    by apply singletons_added_seed_all_goals.
Qed.

End Invariants.

(** * The further theorems at work on the example task *)

Lemma example_world_keeps_pattern ndebug :
  constructor_keeps_pattern (H := example_world ndebug).
Proof.
  intros task pattern r wildcard. simpl. unfold example_solver.
  destruct (decide (pattern = [0])) as [->|H0]; [done|].
  rewrite (bool_decide_eq_false_2 _ H0).
  destruct (decide (pattern = [1])) as [->|H1]; [done|].
  rewrite (bool_decide_eq_false_2 _ H1).
  destruct (decide (pattern = [0; 1])) as [->|H01]; [done|].
  by rewrite (bool_decide_eq_false_2 _ H01).
Qed.

Lemma example_world_shuffle ndebug r : shuffle_permutes (H := example_world ndebug) r.
Proof. intros l. reflexivity. Qed.

Lemma example_goals_NoDup : NoDup [0; 1].
Proof.
  apply NoDup_cons. split; [|apply NoDup_singleton].
  intros Hin. apply list_elem_of_singleton in Hin. discriminate.
Qed.

Lemma example_unseeded_seeds :
  generate_trivial_solution_collection (H := debug_world) default_options
    example_task example_unseeded
  = Returns example_seeded.
Proof. vm_compute. reflexivity. Qed.

Lemma example_seeded_invariants : collection_invariants (H := debug_world) example_seeded.
Proof.
  split; [exact example_seeded_consistent|].
  split; [vm_compute; reflexivity|].
  split.
  { split; [constructor|]. intros v Hv. by apply not_elem_of_nil in Hv. }
  split.
  - eapply patterns_sorted_seeding;
      [apply example_world_keeps_pattern | | exact example_unseeded_seeds].
    intros i e [_ Hslot]. done.
  - eapply has_live_entry_seeding; [|exact example_unseeded_seeds]. done.
Qed.

Lemma example_seeded_random_consistent : lookup_consistent example_seeded_random.
Proof. apply lookup_consistentb_sound. vm_compute. reflexivity. Qed.

(** The flaw (1, b) on the seeded collection: [b] lies in the pattern of
    entry 0, the merge is allowed, and afterwards slot 1 holds the pattern
    of both variables and slot 0 is null.  The flaw (0, a) on the
    collection seeded with a random goal: [a] lies in no pattern, the
    extension is allowed, and afterwards slot 0 holds the pattern of both
    variables, [collection_size] is 2 - 2 + 4 and no goal remains. *)
Lemma refine_performs_one_mutation_witness :
  (∃ c', refine (H := debug_world) default_options example_task
           [{| solution_index := 1; variable := 1 |}] example_seeded = Returns c'
         ∧ solutions c' = solutions example_merged
         ∧ collection_size c' = 4
         ∧ solution_lookup c' !! 1 = Some 1)
  ∧ (∃ c', refine (H := debug_world) default_options example_task
             [{| solution_index := 0; variable := 0 |}] example_seeded_random
           = Returns c'
           ∧ solutions c' = solutions example_extended
           ∧ collection_size c' = 4
           ∧ solution_lookup c' = solution_lookup example_extended
           ∧ remaining_goals c' = []).
Proof.
  split.
  - destruct (refine_performs_one_mutation (H := debug_world) default_options
                example_task [{| solution_index := 1; variable := 1 |}] example_seeded)
      as (k & v & c' & _ & Hflaw & Href & Hmerge & _).
    + exact example_seeded_consistent.
    + constructor; [|constructor].
      exists (example_entry [0] 2 [[0]] true). split.
      * split; [simpl; lia | reflexivity].
      * simpl. intros Hin. apply list_elem_of_singleton in Hin. discriminate.
    + intros bound Hbound. simpl. lia.
    + simpl. unfold INT_MAX. lia.
    + discriminate.
    + simpl in Hflaw. injection Hflaw as <- <-.
      destruct (Hmerge 0 (example_entry [1] 2 [[1]] true)) as (_ & b & Hb & Hres).
      * split; [simpl; lia | reflexivity].
      * simpl. by apply list_elem_of_singleton.
      * vm_compute in Hb. injection Hb as <-.
        destruct Hres as (ek & em & pattern & merged & [_ Hk] & [_ Hm] & Hsorted
                          & Hperm & Hmake & Hs & Hl & Hsize & _).
        vm_compute in Hk, Hm. injection Hk as <-. injection Hm as <-.
        rewrite (sorted_permutation_sort_pattern _ _ Hsorted Hperm) in Hmake.
        vm_compute in Hmake. injection Hmake as <- _.
        exists c'. split; [exact Href|]. split; [by rewrite Hs|].
        split; [by rewrite Hsize | by rewrite Hl].
  - destruct (refine_performs_one_mutation (H := debug_world) default_options
                example_task [{| solution_index := 0; variable := 0 |}]
                example_seeded_random)
      as (k & v & c' & _ & Hflaw & Href & _ & Hextend).
    + exact example_seeded_random_consistent.
    + constructor; [|constructor].
      exists (example_entry [1] 2 [[1]] true). split.
      * split; [simpl; lia | reflexivity].
      * simpl. intros Hin. apply list_elem_of_singleton in Hin. discriminate.
    + intros bound Hbound. simpl. lia.
    + simpl. unfold INT_MAX. lia.
    + discriminate.
    + simpl in Hflaw. injection Hflaw as <- <-.
      destruct Hextend as (b & Hb & Hres).
      * apply (lookup_None_iff _ _ example_seeded_random_consistent). reflexivity.
      * vm_compute in Hb. injection Hb as <-.
        destruct Hres as (ek & pattern & extended & [_ Hk] & Hsorted & Hperm & Hmake
                          & Hs & Hl & Hsize & Hgoals & _).
        vm_compute in Hk. injection Hk as <-.
        rewrite (sorted_permutation_sort_pattern _ _ Hsorted Hperm) in Hmake.
        vm_compute in Hmake. injection Hmake as <- _.
        exists c'. split; [exact Href|]. split; [by rewrite Hs|].
        split; [by rewrite Hsize|]. split; [by rewrite Hl|].
        destruct Hgoals as [[Hin _]|(l1 & l2 & Hl12 & Hnotin & ->)].
        -- exfalso. apply Hin. simpl. by apply list_elem_of_singleton.
        -- simpl in Hl12. destruct l1 as [|x l1]; simpl in Hl12.
           ++ by injection Hl12 as <-.
           ++ injection Hl12 as <- Hnil. by destruct l1.
Defined.

(** Seeding the example task with all goals adds the singleton of [b] and
    then the singleton of [a]. *)
Lemma seeding_adds_singletons_witness :
  singletons_added (H := debug_world) default_options example_task [1; 0]
    example_unseeded example_seeded.
Proof.
  apply (seeding_adds_singletons (H := debug_world) default_options example_task
           example_unseeded example_seeded).
  - apply example_world_keeps_pattern.
  - exact example_goals_NoDup.
  - vm_compute. discriminate.
  - exact example_unseeded_seeds.
Defined.

(** With a blacklisted variable, flaw extraction on the merged collection
    marks its entry as solved and changes nothing else. *)
Lemma get_flaws_only_marks_solved_witness :
  only_marks_solved (blacklist_var 5 example_merged)
    (mark_solved_at 1 (example_entry [0; 1] 4 [[1]; [0]] true)
       (blacklist_var 5 example_merged)).
Proof.
  apply (get_flaws_only_marks_solved (H := debug_world) default_options
           example_task (blacklist_var 5 example_merged) []).
  vm_compute. reflexivity.
Defined.

(** With variable 5 blacklisted, the one flaw of the seeded collection is
    on [b]. *)
Lemma get_flaws_skips_blacklisted_witness :
  Forall (fun f => variable f ∉ global_blacklist (blacklist_var 5 example_seeded))
    [{| solution_index := 1; variable := 1 |}].
Proof.
  apply (get_flaws_skips_blacklisted (H := debug_world) default_options
           example_task (blacklist_var 5 example_seeded)
           [{| solution_index := 1; variable := 1 |}]
           (blacklist_var 5 example_seeded)).
  vm_compute. reflexivity.
Defined.

(** The flaw of the seeded collection is on its entry 1, which is neither
    solved nor unsolvable. *)
Lemma get_flaws_reports_open_entries_witness :
  Forall
    (fun f => ∃ e, live_entry example_seeded (solution_index f) e
                   ∧ is_solved e = false ∧ solution_exists e = true)
    [{| solution_index := 1; variable := 1 |}].
Proof.
  apply (get_flaws_reports_open_entries (H := debug_world) default_options
           example_task example_seeded
           [{| solution_index := 1; variable := 1 |}] example_seeded).
  - vm_compute. discriminate.
  - vm_compute. reflexivity.
Defined.

(** Flaw extraction on the merged collection ends regularly. *)
Lemma get_flaws_is_safe_witness :
  ends_regularly (get_flaws (H := debug_world) default_options example_task
                    example_merged).
Proof.
  refine (proj1 (get_flaws_is_safe (H := debug_world) default_options
                   example_task example_merged _ _)).
  - reflexivity.
  - vm_compute. discriminate.
Defined.

(** The plan of the merged entry is a plan of the example task. *)
Lemma concrete_solution_is_a_plan_witness :
  ∃ e choice,
    live_entry example_merged 1 e
    ∧ picks_from choice (get_plan e)
    ∧ is_concrete_plan example_task (concrete_operator example_task e <$> choice)
    ∧ (Forall (fun equivalent_ops => equivalent_ops ≠ []) (get_plan e) →
       length choice = length (get_plan e)).
Proof.
  apply (concrete_solution_is_a_plan (H := debug_world) default_options
           example_task 1 example_merged [] example_solved).
  - reflexivity.
  - discriminate.
Defined.

(** An exit of flaw extraction: the collection with the unsolvable entry. *)
Lemma get_flaws_exit_needs_unsolvable_entry_witness :
  SEARCH_UNSOLVABLE = SEARCH_UNSOLVABLE
  ∧ ∃ i e, live_entry example_unsolvable i e
           ∧ is_solved e = false ∧ solution_exists e = false.
Proof.
  apply (get_flaws_exit_needs_unsolvable_entry (H := debug_world) default_options
           example_task example_unsolvable SEARCH_UNSOLVABLE).
  vm_compute. reflexivity.
Defined.

(** The merge of the two seeded entries changes neither the blacklist nor
    the number of slots. *)
Lemma handle_flaw_frame_witness :
  (global_blacklist example_merged = global_blacklist example_seeded
   ∨ global_blacklist example_merged = {[1]} ∪ global_blacklist example_seeded)
  ∧ (∀ v, v ∈ remaining_goals example_merged → v ∈ remaining_goals example_seeded)
  ∧ (∀ v, is_Some (solution_lookup example_seeded !! v)
          → is_Some (solution_lookup example_merged !! v))
  ∧ length (solutions example_merged) = length (solutions example_seeded)
  ∧ concrete_solution_index example_merged = concrete_solution_index example_seeded.
Proof.
  apply (handle_flaw_frame (H := debug_world) default_options example_task
           {| solution_index := 1; variable := 1 |} example_seeded example_merged).
  vm_compute. reflexivity.
Defined.

(** After the merge, [b] is in the pattern of entry 1. *)
Lemma handle_flaw_repairs_witness :
  1 ∈ global_blacklist example_merged
  ∨ ∃ e, live_entry example_merged 1 e ∧ 1 ∈ get_pattern e.
Proof.
  apply (handle_flaw_repairs (H := debug_world) default_options example_task
           {| solution_index := 1; variable := 1 |} example_seeded example_merged).
  - apply example_world_keeps_pattern.
  - exact example_seeded_consistent.
  - exists (example_entry [0] 2 [[0]] true). split.
    + split; [simpl; lia | reflexivity].
    + simpl. intros Hin. apply list_elem_of_singleton in Hin. discriminate.
  - vm_compute. reflexivity.
Defined.

(** The flaw on the remaining goal [a] extends entry 0 of the collection
    seeded with a random goal. *)
Lemma goal_flaw_extends_witness :
  (example_extended = blacklist_var 0 example_seeded_random
   ∧ can_add_variable_to_pattern (H := debug_world) default_options example_task
       0 0 example_seeded_random = Returns false)
  ∨ (add_variable_to_pattern (H := debug_world) default_options example_task
       0 0 example_seeded_random = Returns example_extended
     ∧ (0 ∉ remaining_goals example_extended)
     ∧ solution_lookup example_extended !! 0 = Some 0).
Proof.
  apply (goal_flaw_extends (H := debug_world) default_options example_task
           {| solution_index := 0; variable := 0 |} example_seeded_random
           example_extended).
  - split.
    + apply NoDup_singleton.
    + intros v Hv. apply list_elem_of_singleton in Hv as ->. reflexivity.
  - simpl. by apply list_elem_of_singleton.
  - vm_compute. reflexivity.
Defined.

(** Seeding the example task with all goals builds [{b}] and [{a}]. *)
Lemma seeding_builds_singletons_witness :
  live_patterns example_seeded = (fun v => [v]) <$> reverse [0; 1]
  ∧ remaining_goals example_seeded = [].
Proof.
  apply (seeding_builds_singletons (H := debug_world) default_options example_task
           example_unseeded example_seeded).
  - apply example_world_keeps_pattern.
  - reflexivity.
  - vm_compute. reflexivity.
Defined.

(** The seeded collection of the example task satisfies the invariants. *)
Lemma seeding_establishes_invariants_witness :
  collection_invariants (H := debug_world) example_seeded.
Proof.
  apply (seeding_establishes_invariants (H := debug_world) default_options
           example_task example_unseeded example_seeded).
  - apply example_world_keeps_pattern.
  - by repeat split.
  - exact example_goals_NoDup.
  - discriminate.
  - vm_compute. discriminate.
  - vm_compute. reflexivity.
Defined.

(** The main loop on the seeded collection ends in the solved one. *)
Lemma main_loop_keeps_invariants_witness :
  collection_invariants (H := debug_world) example_solved
  ∧ patterns_disjoint example_solved
  ∧ global_blacklist example_seeded ⊆ global_blacklist example_solved.
Proof.
  apply (main_loop_keeps_invariants (H := debug_world) default_options example_task
           5 0 0 example_seeded example_solved).
  - reflexivity.
  - apply example_world_keeps_pattern.
  - exact example_seeded_invariants.
  - vm_compute. reflexivity.
Defined.

(** On the example task with the one goal [a] and a blacklist of one
    variable, the call returns and the goal is not blacklisted. *)
Lemma blacklist_nongoals_sound_witness :
  (∃ c', blacklist_nongoals (H := debug_world) (bounded_options 100 1)
           example_task_one_goal example_one_goal_unseeded = Returns c')
  ∧ ∀ v, v ∈ global_blacklist example_one_goal_blacklisted →
         v ∈ global_blacklist example_one_goal_unseeded
         ∨ (0 <= v < static_cast_int (get_variables_size example_task_one_goal)
            ∧ v ∉ remaining_goals example_one_goal_unseeded).
Proof.
  destruct (blacklist_nongoals_sound (H := debug_world) (bounded_options 100 1)
              example_task_one_goal example_one_goal_unseeded)
    as (Hreturns & _ & Hsound).
  - apply example_world_shuffle.
  - split.
    + apply Hreturns. vm_compute. discriminate.
    + apply (Hsound example_one_goal_blacklisted). vm_compute. reflexivity.
Defined.

(** With a blacklist of up to five variables, [b] is blacklisted. *)
Lemma blacklist_nongoals_complete_witness :
  1 ∈ global_blacklist example_one_goal_blacklisted.
Proof.
  apply (blacklist_nongoals_complete (H := debug_world) (bounded_options 100 5)
           example_task_one_goal example_one_goal_unseeded
           example_one_goal_blacklisted 1).
  - apply example_world_shuffle.
  - vm_compute. reflexivity.
  - right. vm_compute. discriminate.
  - vm_compute. split; [discriminate | reflexivity].
  - simpl. intros Hin. apply list_elem_of_singleton in Hin. discriminate.
Defined.

(** With three remaining goals and two variables, [reserve] throws. *)
Example blacklist_nongoals_throws :
  blacklist_nongoals (H := debug_world) (bounded_options 100 1) example_task
    example_many_goals
  = LengthError.
Proof. vm_compute. reflexivity. Qed.

(** The pattern that [cegar] returns for the example task. *)
Lemma cegar_patterns_sorted_witness :
  Forall (fun e => Sorted Z.le (get_pattern e) ∧ get_pattern e ≠ [])
    [example_entry [0; 1] 4 [[1]; [0]] true].
Proof.
  apply (cegar_patterns_sorted (H := debug_world) default_options example_task
           5 tt [example_entry [0; 1] 4 [[1]; [0]] true]).
  - apply example_world_keeps_pattern.
  - vm_compute. reflexivity.
Defined.

(** With [max_pdb_size] = 3 the two seeded patterns are returned. *)
Lemma cegar_patterns_disjoint_witness :
  [example_entry [1] 2 [[1]] true; example_entry [0] 2 [[0]] true] ≠ []
  ∧ outputs_disjoint
      [example_entry [1] 2 [[1]] true; example_entry [0] 2 [[0]] true].
Proof.
  apply (cegar_patterns_disjoint (H := debug_world)
           (example_options ALL_GOALS (-1) 3 false) example_task 5 tt).
  - reflexivity.
  - apply example_world_keeps_pattern.
  - apply example_world_shuffle.
  - exact example_goals_NoDup.
  - vm_compute. discriminate.
  - vm_compute. reflexivity.
Defined.

(** With the bound of 100 refinements, 200 rounds are as good as 101. *)
Lemma cegar_ends_within_max_refinements_witness :
  has_fuel (cegar (H := debug_world) default_options example_task 200 tt)
  ∧ cegar (H := debug_world) default_options example_task 200 tt
    = cegar (H := debug_world) default_options example_task
        (S (Z.to_nat (max_refinements default_options))) tt.
Proof.
  apply (cegar_ends_within_max_refinements (H := debug_world) default_options
           example_task 200 tt).
  - vm_compute. split; discriminate.
  - simpl. lia.
Defined.

(** With no refinement allowed, the patterns are [{b}] and [{a}]. *)
Lemma no_refinement_returns_seed_witness :
  get_pattern <$> [example_entry [1] 2 [[1]] true; example_entry [0] 2 [[0]] true]
  = (fun v => [v])
      <$> seeded_goals (bounded_options 0 0)
            (rng_shuffle (Collaborators := debug_world) tt
               (map fact_var (get_goals example_task))).1.
Proof.
  apply (no_refinement_returns_seed (H := debug_world) (bounded_options 0 0)
           example_task 0 tt).
  - apply example_world_keeps_pattern.
  - right. reflexivity.
  - vm_compute. reflexivity.
Defined.
